(** * gocmd: dependencies/packageswithdeps.go

    A shallow embedding of the resolver of [PackageWithDeps]: the
    populate-and-publish state machine, the expansion of a [go mod graph]
    into child resolvers, and the walk over these children.

    The Go code calls the operating system, the go tool, Artifactory and
    helpers of other files of the repository.  Each of these calls is an
    oracle of the record [World]: a function of the state of everything
    outside the Go values (file system, network, process), which yields
    the next outside state and the value the call returns.  Every call is
    also appended to a log, with its arguments and its result, so that
    what the code calls, and in which order, can be stated.  Logging
    ([log.Debug], [log.Error], [logError]) has no effect on any value
    the code reads and is left out, but for the two lines that mark the
    walk: "Starting to work on" (line 45) and "was already handled"
    (line 347). *)

From Stdlib Require Import String Ascii List Arith Lia.
From stdpp Require Import base option list gmap strings fin_maps fin_sets.

Open Scope string_scope.
Open Scope list_scope.
Open Scope stdpp_scope.

(** ** Go strings

    A Go string (and a [[]byte]) is a sequence of bytes: [string].  The
    source only splits on one-byte separators (":", "@", "/" and the
    newline), so [Split] takes the separator as one [ascii]. *)

Module strings.

(** [strings.Split(s, sep)]: the pieces of [s] between the occurrences of
    [sep]; one more piece than there are separators, hence never empty. *)
Fixpoint Split (s : string) (sep : ascii) : list string :=
  match s with
  | EmptyString => [EmptyString]
  | String c rest =>
      if Ascii.eqb c sep then EmptyString :: Split rest sep
      else match Split rest sep with
           | [] => [String c EmptyString]
           | piece :: pieces => String c piece :: pieces
           end
  end.

(** [strings.Join(elems, sep)]. *)
Definition Join (elems : list string) (sep : string) : string :=
  String.concat sep elems.

(** [strings.Replace(s, old, new, 1)] for one-byte [old] and [new]: only
    the first occurrence is replaced. *)
Fixpoint Replace1 (s : string) (old new : ascii) : string :=
  match s with
  | EmptyString => EmptyString
  | String c rest =>
      if Ascii.eqb c old then String new rest
      else String c (Replace1 rest old new)
  end.

(** Number of occurrences of a byte. *)
Fixpoint Count (s : string) (c : ascii) : nat :=
  match s with
  | EmptyString => 0
  | String d rest => (if Ascii.eqb d c then 1 else 0) + Count rest c
  end.

End strings.

Definition colon : ascii := ":"%char.
Definition at_sign : ascii := "@"%char.
Definition slash : ascii := "/"%char.
Definition newline : ascii := "010"%char.

(** ** Data *)

(** A Go [error]: [nil] or some error value. *)
Inductive error := ErrNil | Err (msg : string).

Definition is_nil (e : error) : bool :=
  match e with ErrNil => true | Err _ => false end.

(** [errorutils.CheckError] (jfrog-client-go) logs a non-nil error and
    hands it back; it is nil exactly when its argument is. *)
Definition CheckError (e : error) : error := e.

(** [Package]: the struct is declared in another file of the package; the
    resolver reads [id], [modContent] and the zip path through the
    accessors below. *)
Record Package := mkPackage {
  pkgId : string;
  modContent : string;
  zipPath : string
}.

Definition GetId (p : Package) : string := pkgId p.
Definition GetModContent (p : Package) : string := modContent p.
Definition GetZipPath (p : Package) : string := zipPath p.
Definition SetModContent (p : Package) (content : string) : Package :=
  {| pkgId := pkgId p; modContent := content; zipPath := zipPath p |}.

(** [RegExp] holds two compiled expressions.  The resolver only ever asks
    [re.FindString(s) != ""], so each expression is the predicate "has a
    non-empty leftmost match in [s]".  A resolver is taken after [Init]
    (lines 82-89): its [regExp] is not nil. *)
Record RegExp := mkRegExp {
  GetNotEmptyModRegex : string -> bool;
  GetGeneratedBy : string -> bool
}.

(** [PackageWithDeps] (lines 22-32). *)
#[warnings="-register-all"]
Inductive PackageWithDeps := mkPackageWithDeps {
  Dependency : Package;
  transitiveDependencies : list PackageWithDeps;
  regExp : RegExp;
  runGoModCommand : bool;
  shouldRevertToEmptyMod : bool;
  TidyEnum : nat;
  cachePath : string;
  GoModEditMessage : string;
  originalModContent : string
}.

Definition withDependency (pwd : PackageWithDeps) (d : Package) :=
  mkPackageWithDeps d (transitiveDependencies pwd) (regExp pwd)
    (runGoModCommand pwd) (shouldRevertToEmptyMod pwd) (TidyEnum pwd)
    (cachePath pwd) (GoModEditMessage pwd) (originalModContent pwd).

Definition withTransitive (pwd : PackageWithDeps) (l : list PackageWithDeps) :=
  mkPackageWithDeps (Dependency pwd) l (regExp pwd)
    (runGoModCommand pwd) (shouldRevertToEmptyMod pwd) (TidyEnum pwd)
    (cachePath pwd) (GoModEditMessage pwd) (originalModContent pwd).

Definition withRevert (pwd : PackageWithDeps) (b : bool) :=
  mkPackageWithDeps (Dependency pwd) (transitiveDependencies pwd) (regExp pwd)
    (runGoModCommand pwd) b (TidyEnum pwd)
    (cachePath pwd) (GoModEditMessage pwd) (originalModContent pwd).

Definition withOriginal (pwd : PackageWithDeps) (content : string) :=
  mkPackageWithDeps (Dependency pwd) (transitiveDependencies pwd) (regExp pwd)
    (runGoModCommand pwd) (shouldRevertToEmptyMod pwd) (TidyEnum pwd)
    (cachePath pwd) (GoModEditMessage pwd) content.

(** [pwd.Dependency.SetModContent(content)]: the package is held by pointer,
    so the resolver sees the new content. *)
Definition setMod (pwd : PackageWithDeps) (content : string) :=
  withDependency pwd (SetModContent (Dependency pwd) content).

(** Modelled from the spec: [cache.DependenciesCache] (utils/cache, not in
    src/).  Section 3: a mapping from package ID to a published flag
    (absent = never seen), and the counters total, success and failure;
    section 4.1: [incrementTotal(n)], [incrementSuccess()],
    [incrementFailure()], none of which fails. *)
Record DependenciesCache := mkCache {
  depMap : gmap string bool;
  totals : nat;
  successes : nat;
  failures : nat
}.

Definition setFlag (k : string) (b : bool) (c : DependenciesCache) :=
  mkCache (<[k := b]> (depMap c)) (totals c) (successes c) (failures c).
Definition addTotal (n : nat) (c : DependenciesCache) :=
  mkCache (depMap c) (totals c + n) (successes c) (failures c).
Definition addSuccess (c : DependenciesCache) :=
  mkCache (depMap c) (totals c) (successes c + 1) (failures c).
Definition addFailure (c : DependenciesCache) :=
  mkCache (depMap c) (totals c) (successes c) (failures c + 1).

(** [published, _ := m[id]]: a missing key reads as [false]. *)
Definition flagOf (m : gmap string bool) (k : string) : bool :=
  default false (m !! k).

(** ** The log of outside calls: arguments, then what the call returned. *)
Inductive Event :=
| EvStart (id : string)
| EvAlreadyHandled (id : string)
| EvDownloadModFile (cachePath targetRepo name version path : string)
| EvReadFile (path content : string) (err : error)
| EvWriteFile (path content : string) (err : error)
| EvUnsetenv (key : string) (err : error)
| EvUnzip (zipPath tempDir : string) (err : error)
| EvChdir (dir : string) (err : error)
| EvIsFileExists (path : string) (found : bool) (err : error)
| EvRemove (path : string) (err : error)
| EvRemoveAll (path : string) (err : error)
| EvGoModInit (moduleName editMessage : string) (err : error)
| EvTidy (path : string) (err : error)
| EvRemoveGoSum (path : string) (err : error)
| EvGraph (output : list string) (err : error)
| EvGetSumContentAndRemove (dir content : string) (stat : option nat) (err : error)
| EvRestoreSumFile (dir content : string) (stat : nat) (err : error)
| EvCreateDependency (cachePath name version : string) (dep : option Package) (err : error)
| EvProbe (path version targetRepo : string) (found : bool) (err : error)
| EvDownloadAndCreate (cachePath name version edge targetRepo : string)
    (fromArtifactory : bool) (dep : option Package) (err : error)
| EvPublish (pkg : Package) (targetRepo : string) (err : error).

(** ** The outside world

    One field per callee that is not in this file.  [Env] is the state of
    everything outside; the shared cache is not part of it, so no callee
    but [Package.prepareAndPublish] (which is handed the cache) can touch
    the ledger.  The http client, the credentials and the service manager
    are read-only arguments and do not appear. *)
Record World (Env : Type) := mkWorld {
  (* helpers of the repository that are not in src/ *)
  downloadModFileFromArtifactoryToLocalCache :
    string -> string -> string -> string -> Env -> Env * string;
  createDependencyInTemp : string -> Env -> Env * (string * error);
  populateModWithTidy : string -> Env -> Env * error;
  removeGoSum : string -> Env -> Env * error;
  runGoModGraph : Env -> Env * (list string * error);
  RunGoModInit : string -> string -> Env -> Env * error;
  GetSumContentAndRemove : string -> Env -> Env * (string * option nat * error);
  RestoreSumFile : string -> string -> nat -> Env -> Env * error;
  createDependency : string -> string -> string -> Env -> Env * (option Package * error);
  shouldDownloadFromArtifactory :
    string -> string -> string -> Env -> Env * (bool * error);
  downloadAndCreateDependency :
    string -> string -> string -> string -> string -> bool ->
    Env -> Env * (option Package * error);
  Publish : Package -> string -> Env -> Env * error;
  getDependencyName : string -> string;
  replaceExclamationMarkWithUpperCase : string -> string;
  (* the Go library and jfrog-client-go *)
  ReadFile : string -> Env -> Env * (string * error);
  WriteFile : string -> string -> Env -> Env * error;
  Unsetenv : string -> Env -> Env * error;
  Chdir : string -> Env -> Env * error;
  Remove : string -> Env -> Env * error;
  RemoveAll : string -> Env -> Env * error;
  IsFileExists : string -> Env -> Env * (bool * error);
  filepath_Dir : string -> string;
  filepath_Join : list string -> string;
  GetFileSeparator : string
}.

Arguments downloadModFileFromArtifactoryToLocalCache {Env}.
Arguments createDependencyInTemp {Env}.
Arguments populateModWithTidy {Env}.
Arguments removeGoSum {Env}.
Arguments runGoModGraph {Env}.
Arguments RunGoModInit {Env}.
Arguments GetSumContentAndRemove {Env}.
Arguments RestoreSumFile {Env}.
Arguments createDependency {Env}.
Arguments shouldDownloadFromArtifactory {Env}.
Arguments downloadAndCreateDependency {Env}.
Arguments Publish {Env}.
Arguments getDependencyName {Env}.
Arguments replaceExclamationMarkWithUpperCase {Env}.
Arguments ReadFile {Env}.
Arguments WriteFile {Env}.
Arguments Unsetenv {Env}.
Arguments Chdir {Env}.
Arguments Remove {Env}.
Arguments RemoveAll {Env}.
Arguments IsFileExists {Env}.
Arguments filepath_Dir {Env}.
Arguments filepath_Join {Env}.
Arguments GetFileSeparator {Env}.

(** [cmd.GOPROXY] (declared in utils/cmd): the name of the environment
    variable that tells the go tool where its module proxy is. *)
Definition GOPROXY : string := "GOPROXY".

(** ** The monad: shared cache, outside state, log; a call returns,
    panics (an index out of range), or the model runs out of fuel. *)

Record State (Env : Type) := mkState {
  cache : DependenciesCache;
  env : Env;
  log : list Event
}.
Arguments mkState {Env}.
Arguments cache {Env}.
Arguments env {Env}.
Arguments log {Env}.

Inductive outcome (Env A : Type) :=
| Ret (a : A) (s : State Env)
| Panic
| OutOfFuel.
Arguments Ret {Env A}.
Arguments Panic {Env A}.
Arguments OutOfFuel {Env A}.

Definition M (Env A : Type) := State Env -> outcome Env A.

Section Monad.
Context {Env : Type}.

Definition ret {A} (a : A) : M Env A := fun s => Ret a s.

Definition bind {A B} (m : M Env A) (k : A -> M Env B) : M Env B :=
  fun s => match m s with
           | Ret a s' => k a s'
           | Panic => Panic
           | OutOfFuel => OutOfFuel
           end.

Definition panic {A} : M Env A := fun _ => Panic.
Definition outOfFuel {A} : M Env A := fun _ => OutOfFuel.

(** An outside call: the oracle moves the outside state, the call and its
    result are logged. *)
Definition call {A} (f : Env -> Env * A) (ev : A -> Event) : M Env A :=
  fun s => let r := f (env s) in
           Ret (snd r) (mkState (cache s) (fst r) (log s ++ [ev (snd r)])).

(** A line of the log that is no outside call. *)
Definition note (e : Event) : M Env unit :=
  fun s => Ret tt (mkState (cache s) (env s) (log s ++ [e])).

Definition updCache (f : DependenciesCache -> DependenciesCache) : M Env unit :=
  fun s => Ret tt (mkState (f (cache s)) (env s) (log s)).

(** [cache.GetMap()]: the map itself, not a copy. *)
Definition GetMap : M Env (gmap string bool) := fun s => Ret (depMap (cache s)) s.
Definition mapStore (k : string) (b : bool) : M Env unit := updCache (setFlag k b).
Definition IncrementTotal (n : nat) : M Env unit := updCache (addTotal n).
Definition IncrementSuccess : M Env unit := updCache addSuccess.
Definition IncrementFailures : M Env unit := updCache addFailure.

(** [l[i]]: panics out of range. *)
Definition index {A} (l : list A) (i : nat) : M Env A :=
  match l !! i with
  | Some x => ret x
  | None => panic
  end.

(** A [for ... range] loop whose body updates an accumulator. *)
Fixpoint foldM {A B} (f : B -> A -> M Env B) (l : list A) (b : B) : M Env B :=
  match l with
  | [] => ret b
  | x :: l' => bind (f b x) (foldM f l')
  end.

End Monad.

Notation "'let*' x ':=' m 'in' k" := (bind m (fun x => k))
  (at level 10, x pattern, m at level 200, k at level 200).
Notation "m ';;' k" := (bind m (fun _ => k))
  (at level 100, k at level 200, right associativity).

(** ** The resolver *)

Section Resolver.
Context {Env : Type} (W : World Env).

(** Lines 91-100. *)
Definition PatternMatched (pwd : PackageWithDeps) (regExp : string -> bool) : bool :=
  existsb regExp (strings.Split (modContent (Dependency pwd)) newline).

(** Lines 210-212. *)
Definition writeModContentToModFile (path modContent : string) : M Env error :=
  call (WriteFile W path modContent) (EvWriteFile path modContent).

(** Lines 69-79. *)
Definition updateModContent (pwd : PackageWithDeps) (path : string)
  : M Env (PackageWithDeps * error) :=
  if decide (path = "") then ret (pwd, ErrNil)
  else
    let* r := call (ReadFile W path) (fun r => EvReadFile path (fst r) (snd r)) in
    match snd r with
    | Err _ => IncrementFailures ;; ret (pwd, CheckError (snd r))
    | ErrNil => ret (setMod pwd (fst r), ErrNil)
    end.

(** Lines 214-222. *)
Definition getModPathInTemp (pwd : PackageWithDeps) (tempDir : string) : M Env string :=
  let moduleId := GetId (Dependency pwd) in
  let moduleInfo := strings.Split moduleId colon in
  let* m0 := index moduleInfo 0 in
  let moduleInfo := <[0 := replaceExclamationMarkWithUpperCase W m0]> moduleInfo in
  let moduleId := strings.Join moduleInfo ":" in
  let modulePath := strings.Replace1 moduleId colon at_sign in
  ret (filepath_Join W [tempDir; modulePath; "go.mod"]).

(** Lines 177-189. *)
Definition getModPathAndUnzipDependency (pwd : PackageWithDeps) (path : string)
  : M Env (string * error) :=
  let* err := call (Unsetenv W GOPROXY) (EvUnsetenv GOPROXY) in
  if is_nil err then
    let* r := call (createDependencyInTemp W (GetZipPath (Dependency pwd)))
                (fun r => EvUnzip (GetZipPath (Dependency pwd)) (fst r) (snd r)) in
    if is_nil (snd r) then
      let* path := getModPathInTemp pwd (fst r) in
      ret (path, snd r)
    else ret ("", snd r)
  else ret ("", err).

(** Lines 164-175. *)
Definition useCachedMod (pwd : PackageWithDeps) (path : string) : M Env error :=
  writeModContentToModFile path (GetModContent (Dependency pwd)) ;;
  let* err := call (Chdir W (filepath_Dir W path)) (EvChdir (filepath_Dir W path)) in
  if is_nil (CheckError err) then
    call (removeGoSum W path) (EvRemoveGoSum path) ;;
    ret ErrNil
  else ret err.

(** Lines 191-208. *)
Definition prepareAndRunInit (pwd : PackageWithDeps) (pathToModFile : string) : M Env error :=
  let* err := call (Chdir W (filepath_Dir W pathToModFile))
                (EvChdir (filepath_Dir W pathToModFile)) in
  if is_nil (CheckError err) then
    let* r := call (IsFileExists W pathToModFile)
                (fun r => EvIsFileExists pathToModFile (fst r) (snd r)) in
    (if fst r : bool
     then call (Remove W pathToModFile) (EvRemove pathToModFile) ;; ret tt
     else ret tt) ;;
    let moduleId := GetId (Dependency pwd) in
    let moduleInfo := strings.Split moduleId colon in
    let* m0 := index moduleInfo 0 in
    call (RunGoModInit W (replaceExclamationMarkWithUpperCase W m0) (GoModEditMessage pwd))
      (EvGoModInit (replaceExclamationMarkWithUpperCase W m0) (GoModEditMessage pwd))
  else ret err.

(** Lines 144-162.  The result is the content the package had on entry;
    the package is left with whatever the mod file holds after init. *)
Definition prepareUnpublishedDependency (pwd : PackageWithDeps)
    (pathToModFile originalModContent : string) : M Env (PackageWithDeps * string) :=
  let* err := prepareAndRunInit pwd pathToModFile in
  (if is_nil err then ret tt
   else
     let* r := call (IsFileExists W pathToModFile)
                 (fun r => EvIsFileExists pathToModFile (fst r) (snd r)) in
     if fst r : bool then ret tt
     else writeModContentToModFile pathToModFile (GetModContent (Dependency pwd)) ;; ret tt) ;;
  let* r := call (ReadFile W pathToModFile)
              (fun r => EvReadFile pathToModFile (fst r) (snd r)) in
  let originalModContent := GetModContent (Dependency pwd) in
  ret (setMod pwd (fst r), originalModContent).

(** Lines 140-141: the tail every path of [createDependencyAndPrepareMod]
    that does not return early runs into. *)
Definition graphOf (pwd : PackageWithDeps) (path : string)
  : M Env (PackageWithDeps * string * list string * error) :=
  let* r := call (runGoModGraph W) (fun r => EvGraph (fst r) (snd r)) in
  ret (pwd, path, fst r, snd r).

(** Lines 104-142.  The graph is a [map[string]bool] of which only the
    keys are read: the list of its keys in the order the [range] of line
    282 will visit them. *)
Definition createDependencyAndPrepareMod (pwd : PackageWithDeps)
  : M Env (PackageWithDeps * string * list string * error) :=
  let* r := getModPathAndUnzipDependency pwd "" in
  let path := fst r in
  if is_nil (snd r) then
    let pwd := withRevert pwd false in
    if PatternMatched pwd (GetNotEmptyModRegex (regExp pwd)) then
      let* err := useCachedMod pwd path in
      if is_nil err then graphOf pwd path
      else ret (pwd, path, [], err)
    else
      let* m := GetMap in
      let published := flagOf m (GetId (Dependency pwd)) in
      let* po :=
        (if negb published then prepareUnpublishedDependency pwd path ""
         else
           let originalModContent := GetModContent (Dependency pwd) in
           writeModContentToModFile path (GetModContent (Dependency pwd)) ;;
           ret (pwd, originalModContent)) in
      let pwd := fst po in
      let originalModContent := snd po in
      let* pwd :=
        (if negb (PatternMatched pwd (GetNotEmptyModRegex (regExp pwd))) then
           call (populateModWithTidy W path) (EvTidy path) ;;
           ret (withOriginal (withRevert pwd true) originalModContent)
         else ret pwd) in
      graphOf pwd path
  else ret (pwd, path, [], snd r).

(** Lines 329-335. *)
Definition writeModContentToGoCache (pwd : PackageWithDeps) : M Env error :=
  let moduleAndVersion := strings.Split (GetId (Dependency pwd)) colon in
  let* m0 := index moduleAndVersion 0 in
  let pathToModule := strings.Split m0 slash in
  let* m1 := index moduleAndVersion 1 in
  let path := filepath_Join W
                [cachePath pwd; strings.Join pathToModule (GetFileSeparator W);
                 "@v"; m1 +:+ ".mod"] in
  let* err := call (WriteFile W path (GetModContent (Dependency pwd)))
                (EvWriteFile path (GetModContent (Dependency pwd))) in
  ret (CheckError err).

(** Modelled from the spec: [Package.prepareAndPublish] (another file of
    the package, not in src/).  Section 4.3 step 12: the package content
    and the final manifest are submitted to the repository; section 7(c):
    a repository error is counted as a failure in the shared cache; a
    publish that succeeded is counted in the success counter (section 8,
    counter conservation).  It does not touch the map. *)
Definition Package_prepareAndPublish (p : Package) (targetRepo : string) : M Env error :=
  let* err := call (Publish W p targetRepo) (EvPublish p targetRepo) in
  if is_nil err then IncrementSuccess ;; ret ErrNil
  else IncrementFailures ;; ret err.

(** Lines 274-278. *)
Definition prepareAndPublish (pwd : PackageWithDeps) (targetRepo : string) : M Env error :=
  let* err := Package_prepareAndPublish (Dependency pwd) targetRepo in
  mapStore (GetId (Dependency pwd)) true ;;
  ret err.

(** Lines 313-317: the child resolver of a materialised package. *)
Definition childOf (pwd : PackageWithDeps) (dep : Package) : PackageWithDeps :=
  mkPackageWithDeps dep [] (regExp pwd) false false (TidyEnum pwd)
    (cachePath pwd) (GoModEditMessage pwd) "".

(** Lines 311-320. *)
Definition appendChild (pwd : PackageWithDeps) (dependencies : list PackageWithDeps)
    (key : string) (dep : option Package) (downloadedFromArtifactory : bool)
  : M Env (list PackageWithDeps) :=
  match dep with
  | Some d =>
      mapStore key downloadedFromArtifactory ;;
      ret (dependencies ++ [childOf pwd d])
  | None => ret dependencies
  end.

(** Lines 283-324: the body of the loop for one edge of the graph. *)
Definition setTransitiveDependency (pwd : PackageWithDeps) (targetRepo : string)
    (dependencies : list PackageWithDeps) (transitiveDependency : string)
  : M Env (list PackageWithDeps) :=
  match strings.Split transitiveDependency at_sign with
  | [m0; m1] =>
      let* dependenciesMap := GetMap in
      let name := getDependencyName W m0 in
      let key := name +:+ ":" +:+ m1 in
      match dependenciesMap !! key with
      | Some _ => ret dependencies
      | None =>
          let* r := call (createDependency W (cachePath pwd) name m1)
                      (fun r => EvCreateDependency (cachePath pwd) name m1 (fst r) (snd r)) in
          if is_nil (snd r) then
            let* q := call (shouldDownloadFromArtifactory W m0 m1 targetRepo)
                        (fun q => EvProbe m0 m1 targetRepo (fst q) (snd q)) in
            if is_nil (snd q) then
              match fst r with
              | None =>
                  let* d := call (downloadAndCreateDependency W (cachePath pwd) name m1
                                    transitiveDependency targetRepo (fst q))
                              (fun d => EvDownloadAndCreate (cachePath pwd) name m1
                                          transitiveDependency targetRepo (fst q)
                                          (fst d) (snd d)) in
                  if is_nil (snd d) then appendChild pwd dependencies key (fst d) (fst q)
                  else ret dependencies
              | Some dep => appendChild pwd dependencies key (Some dep) (fst q)
              end
            else ret dependencies
          else ret dependencies
      end
  | _ => ret dependencies
  end.

(** Lines 280-327. *)
Definition setTransitiveDependencies (pwd : PackageWithDeps) (targetRepo : string)
    (graphDependencies : list string) : M Env PackageWithDeps :=
  let* dependencies := foldM (setTransitiveDependency pwd targetRepo) graphDependencies [] in
  ret (withTransitive pwd dependencies).

(** Lines 340-349: one turn of the loop.  [transitiveDep] is a copy of the
    slice element: the children, the revert flag and the snapshot that the
    call sets in the copy are dropped with it.  But the copy holds the
    same [*Package] as the element, so the manifest the call leaves in
    the package is the manifest of the element too.  [visited] are the
    elements the loop has been through, as it left them. *)
Definition populateChild (rec : string -> PackageWithDeps -> M Env (PackageWithDeps * error))
    (targetRepo : string) (visited : list PackageWithDeps) (transitiveDep : PackageWithDeps)
  : M Env (list PackageWithDeps) :=
  let* m := GetMap in
  let published := flagOf m (GetId (Dependency transitiveDep)) in
  if negb published then
    let* r := rec targetRepo transitiveDep in
    ret (visited ++ [withDependency transitiveDep (Dependency (fst r))])
  else
    (IncrementSuccess ;; note (EvAlreadyHandled (GetId (Dependency transitiveDep)))) ;;
    ret (visited ++ [transitiveDep]).

(** Lines 338-350.  The resolver comes back with its children as the
    walk left them. *)
Definition populateTransitive (rec : string -> PackageWithDeps -> M Env (PackageWithDeps * error))
    (pwd : PackageWithDeps) (targetRepo : string) : M Env PackageWithDeps :=
  IncrementTotal (length (transitiveDependencies pwd)) ;;
  let* visited := foldM (populateChild rec targetRepo) (transitiveDependencies pwd) [] in
  ret (withTransitive pwd visited).

(** Lines 226-233. *)
Definition expandGraph (pwd : PackageWithDeps) (pathToModFile targetRepo : string)
    (graphDependencies : list string) : M Env PackageWithDeps :=
  match graphDependencies with
  | [] => ret pwd
  | _ :: _ =>
      let dir := filepath_Dir W pathToModFile in
      let* r := call (GetSumContentAndRemove W dir)
                  (fun r => EvGetSumContentAndRemove dir (fst (fst r)) (snd (fst r)) (snd r)) in
      let sumFileContent := fst (fst r) in
      let* pwd := setTransitiveDependencies pwd targetRepo graphDependencies in
      match snd (fst r) with
      | Some sumFileStat =>
          if negb (String.eqb sumFileContent "") then
            call (RestoreSumFile W dir sumFileContent sumFileStat)
              (EvRestoreSumFile dir sumFileContent sumFileStat) ;;
            ret pwd
          else ret pwd
      | None => ret pwd
      end
  end.

(** Lines 236-239. *)
Definition persistIfPopulated (pwd : PackageWithDeps) (published : bool) : M Env unit :=
  if negb published &&
     (PatternMatched pwd (GetNotEmptyModRegex (regExp pwd)) ||
      PatternMatched pwd (GetGeneratedBy (regExp pwd)))
  then writeModContentToGoCache pwd ;; ret tt
  else ret tt.

(** Lines 248-251: the manifest to go back to. *)
Definition revertedContent (pwd : PackageWithDeps) : string :=
  if GetGeneratedBy (regExp pwd) (originalModContent pwd)
  then originalModContent pwd
  else GoModEditMessage pwd +:+ String newline (String newline "") +:+ originalModContent pwd.

(** Lines 246-256. *)
Definition revertToOriginalMod (pwd : PackageWithDeps) (pathToModFile : string)
    (published : bool) : M Env PackageWithDeps :=
  if negb published && shouldRevertToEmptyMod pwd then
    let pwd := withOriginal pwd (revertedContent pwd) in
    writeModContentToModFile pathToModFile (originalModContent pwd) ;;
    let pwd := setMod pwd (originalModContent pwd) in
    writeModContentToGoCache pwd ;;
    ret pwd
  else ret pwd.

(** Lines 226-261: everything before the workspace is removed. *)
Definition publishAndPopulate (rec : string -> PackageWithDeps -> M Env (PackageWithDeps * error))
    (pwd : PackageWithDeps) (pathToModFile targetRepo : string)
    (graphDependencies : list string) : M Env PackageWithDeps :=
  let* pwd := expandGraph pwd pathToModFile targetRepo graphDependencies in
  let* m := GetMap in
  let published := flagOf m (GetId (Dependency pwd)) in
  persistIfPopulated pwd published ;;
  let* pwd :=
    match transitiveDependencies pwd with
    | [] => ret pwd
    | _ :: _ => populateTransitive rec pwd targetRepo
    end in
  let* pwd := revertToOriginalMod pwd pathToModFile published in
  (if negb published then prepareAndPublish pwd targetRepo ;; ret tt else ret tt) ;;
  ret pwd.

(** Lines 264-267. *)
Definition removeWorkspace (pathToModFile : string) : M Env error :=
  call (RemoveAll W (filepath_Dir W pathToModFile)) (EvRemoveAll (filepath_Dir W pathToModFile)).

(** Lines 224-270. *)
Definition publishDependencyAndPopulateTransitive
    (rec : string -> PackageWithDeps -> M Env (PackageWithDeps * error))
    (pwd : PackageWithDeps) (pathToModFile targetRepo : string)
    (graphDependencies : list string) : M Env (PackageWithDeps * error) :=
  let* pwd := publishAndPopulate rec pwd pathToModFile targetRepo graphDependencies in
  removeWorkspace pathToModFile ;;
  ret (pwd, ErrNil).

(** Lines 48-55. *)
Definition refreshPublished (pwd : PackageWithDeps) (targetRepo : string) : M Env PackageWithDeps :=
  let* dependenciesMap := GetMap in
  let published := flagOf dependenciesMap (GetId (Dependency pwd)) in
  if published then
    let moduleAndVersion := strings.Split (GetId (Dependency pwd)) colon in
    let* m0 := index moduleAndVersion 0 in
    let* m1 := index moduleAndVersion 1 in
    let* path := call (downloadModFileFromArtifactoryToLocalCache W (cachePath pwd) targetRepo m0 m1)
                   (EvDownloadModFile (cachePath pwd) targetRepo m0 m1) in
    let* r := updateModContent pwd path in
    ret (fst r)
  else ret pwd.

(** Lines 43-66, with the recursive call left open. *)
Definition PopulateModAndPublish_body
    (rec : string -> PackageWithDeps -> M Env (PackageWithDeps * error))
    (pwd : PackageWithDeps) (targetRepo : string) : M Env (PackageWithDeps * error) :=
  note (EvStart (GetId (Dependency pwd))) ;;
  let* pwd := refreshPublished pwd targetRepo in
  let* r := createDependencyAndPrepareMod pwd in
  let '(pwd, path, output, _) := r in
  let* r := publishDependencyAndPopulateTransitive rec pwd path targetRepo output in
  ret (fst r, ErrNil).

(** [PopulateModAndPublish] (lines 43-66).  The recursion goes through
    the children, whose number the outside world decides: [fuel] bounds
    the depth of the walk. *)
Fixpoint PopulateModAndPublish (fuel : nat) (targetRepo : string) (pwd : PackageWithDeps)
  : M Env (PackageWithDeps * error) :=
  match fuel with
  | 0 => outOfFuel
  | S fuel' => PopulateModAndPublish_body (PopulateModAndPublish fuel') pwd targetRepo
  end.

End Resolver.

(** ** A small concrete world, to run the model *)

Module Sample.

(** The outside state is left trivial: every oracle answers the same way
    whenever it is asked. *)
Definition ok {A} (a : A) : unit -> unit * A := fun u => (u, a).

(** [publishErr]: what publishing returns; [graph]: what [go mod graph]
    prints; [found]: what the probe of Artifactory answers; [refreshed]:
    where the manifest fetched from Artifactory is said to be (no file
    can be read in this world). *)
Definition worldWith (refreshed : string) (publishErr : error) (graph : list string)
    (found : bool) : World unit :=
  {| downloadModFileFromArtifactoryToLocalCache := fun _ _ _ _ => ok refreshed;
     createDependencyInTemp := fun _ => ok ("/tmp/ws", ErrNil);
     populateModWithTidy := fun _ => ok ErrNil;
     removeGoSum := fun _ => ok ErrNil;
     runGoModGraph := ok (graph, ErrNil);
     RunGoModInit := fun _ _ => ok ErrNil;
     GetSumContentAndRemove := fun _ => ok ("", None, ErrNil);
     RestoreSumFile := fun _ _ _ => ok ErrNil;
     createDependency := fun _ name version =>
       ok (Some (mkPackage (name +:+ ":" +:+ version) "module example.com/bar" "bar.zip"), ErrNil);
     shouldDownloadFromArtifactory := fun _ _ _ => ok (found, ErrNil);
     downloadAndCreateDependency := fun _ _ _ _ _ _ => ok (None, ErrNil);
     Publish := fun _ _ => ok publishErr;
     getDependencyName := fun s => s;
     replaceExclamationMarkWithUpperCase := fun s => s;
     ReadFile := fun _ => ok ("", Err "no such file");
     WriteFile := fun _ _ => ok ErrNil;
     Unsetenv := fun _ => ok ErrNil;
     Chdir := fun _ => ok ErrNil;
     Remove := fun _ => ok ErrNil;
     RemoveAll := fun _ => ok ErrNil;
     IsFileExists := fun _ => ok (false, ErrNil);
     filepath_Dir := fun p => p +:+ "/..";
     filepath_Join := fun l => strings.Join l "/";
     GetFileSeparator := "/" |}.

Definition world : error -> list string -> bool -> World unit := worldWith "".

(** Stand-ins for the two expressions: a line that starts with "require",
    a text that starts with "// Generated by". *)
Definition regexps : RegExp :=
  mkRegExp (String.prefix "require") (String.prefix "// Generated by").

Definition foo (content : string) : PackageWithDeps :=
  mkPackageWithDeps (mkPackage "example.com/foo:v1.0.0" content "foo.zip")
    [] regexps false false 0 "/gocache" "// Generated by JFrog" "".

Definition start (m : gmap string bool) : State unit :=
  mkState (mkCache m 0 0 0) tt [].

(** The state and the value a run ended with. *)
Definition stateOf {A} (o : outcome unit A) : State unit :=
  match o with Ret _ s => s | _ => start ∅ end.
Definition valueOf {A} (default : A) (o : outcome unit A) : A :=
  match o with Ret a _ => a | _ => default end.

End Sample.


(** ** Reasoning about runs *)

Section Runs.
Context {Env : Type}.

Lemma bind_inv {A B} (m : M Env A) (k : A -> M Env B) s b s' :
  bind m k s = Ret b s' -> exists a s1, m s = Ret a s1 /\ k a s1 = Ret b s'.
Proof. unfold bind. destruct (m s) as [a s1| |]; [eauto | discriminate..]. Qed.

Lemma bind_Ret {A B} (m : M Env A) (k : A -> M Env B) s a s1 :
  m s = Ret a s1 -> bind m k s = k a s1.
Proof. unfold bind. now intros ->. Qed.

Lemma bind_ext_on {A B} (m : M Env A) (k1 k2 : A -> M Env B) s :
  (forall a s1, m s = Ret a s1 -> k1 a s1 = k2 a s1) -> bind m k1 s = bind m k2 s.
Proof. unfold bind. destruct (m s); auto. Qed.

Lemma ret_inv {A} (a b : A) (s s' : State Env) : ret a s = Ret b s' -> a = b /\ s = s'.
Proof. unfold ret. now intros [= -> ->]. Qed.

Lemma call_inv {A} (f : Env -> Env * A) ev s a s' :
  call f ev s = Ret a s' ->
  exists e', f (env s) = (e', a) /\ s' = mkState (cache s) e' (log s ++ [ev a]).
Proof.
  unfold call. destruct (f (env s)) as [e' a']. simpl. intros [= <- <-]. eauto.
Qed.

Lemma note_inv e (s : State Env) a s' :
  note e s = Ret a s' -> s' = mkState (cache s) (env s) (log s ++ [e]).
Proof. unfold note. now intros [= <-]. Qed.

Lemma updCache_inv f (s : State Env) a s' :
  updCache f s = Ret a s' -> s' = mkState (f (cache s)) (env s) (log s).
Proof. unfold updCache. now intros [= <-]. Qed.

Lemma GetMap_inv (s : State Env) m s' : GetMap s = Ret m s' -> m = depMap (cache s) /\ s' = s.
Proof. unfold GetMap. now intros [= <- <-]. Qed.

Lemma index_inv {A} (l : list A) i (s : State Env) a s' :
  index l i s = Ret a s' -> l !! i = Some a /\ s' = s.
Proof.
  unfold index. destruct (l !! i); [|discriminate].
  now intros [-> ->]%ret_inv.
Qed.

(** A relation between the state before and the state after that every
    step keeps: it holds of a whole run once it holds of the steps. *)
Definition preserves (R : State Env -> State Env -> Prop) {A} (m : M Env A) : Prop :=
  forall s a s', m s = Ret a s' -> R s s'.

Section Preorder.
Variable R : State Env -> State Env -> Prop.
Hypothesis R_refl : forall s, R s s.
Hypothesis R_trans : forall s1 s2 s3, R s1 s2 -> R s2 s3 -> R s1 s3.

Lemma preserves_ret {A} (a : A) : preserves R (ret a).
Proof. intros s b s' [_ <-]%ret_inv. apply R_refl. Qed.

Lemma preserves_panic {A} : preserves R (@panic Env A).
Proof. intros s b s'. discriminate. Qed.

Lemma preserves_outOfFuel {A} : preserves R (@outOfFuel Env A).
Proof. intros s b s'. discriminate. Qed.

Lemma preserves_bind {A B} (m : M Env A) (k : A -> M Env B) :
  preserves R m -> (forall a, preserves R (k a)) -> preserves R (bind m k).
Proof.
  intros Hm Hk s b s' (a & s1 & H1 & H2)%bind_inv.
  eapply R_trans; [eapply Hm | eapply Hk]; eauto.
Qed.

Lemma preserves_GetMap : preserves R GetMap.
Proof. intros s m s' [_ ->]%GetMap_inv. apply R_refl. Qed.

Lemma preserves_index {A} (l : list A) i : preserves R (index l i).
Proof. intros s m s' [_ ->]%index_inv. apply R_refl. Qed.

Lemma preserves_foldM {A B} (f : B -> A -> M Env B) l :
  (forall b x, x ∈ l -> preserves R (f b x)) -> forall b, preserves R (foldM f l b).
Proof.
  induction l as [|x l IH]; intros Hf b; simpl.
  - apply preserves_ret.
  - apply preserves_bind.
    + apply Hf. left.
    + intros b'. apply IH. intros b'' y Hy. apply Hf. now right.
Qed.

End Preorder.

(** *** The ledger only grows *)

(** The two writes to the map: a flag is set to true, or a key that was
    not there gets a flag. *)
Inductive write : gmap string bool -> gmap string bool -> Prop :=
| write_true m k : write m (<[k := true]> m)
| write_fresh m k b : m !! k = None -> write m (<[k := b]> m).

Lemma write_keeps_true m m' k : write m m' -> m !! k = Some true -> m' !! k = Some true.
Proof.
  intros [m0 k0|m0 k0 b Hk0] Hk.
  - destruct (decide (k0 = k)) as [->|]; [apply lookup_insert_eq | now rewrite lookup_insert_ne].
  - destruct (decide (k0 = k)) as [->|]; [congruence | now rewrite lookup_insert_ne].
Qed.

Lemma write_keeps_key m m' k : write m m' -> is_Some (m !! k) -> is_Some (m' !! k).
Proof.
  intros [m0 k0|m0 k0 b Hk0] Hk.
  - destruct (decide (k0 = k)) as [->|].
    + rewrite lookup_insert_eq. eauto.
    + now rewrite lookup_insert_ne.
  - destruct (decide (k0 = k)) as [->|].
    + rewrite lookup_insert_eq. eauto.
    + now rewrite lookup_insert_ne.
Qed.

Lemma writes_keep_true m m' k : rtc write m m' -> m !! k = Some true -> m' !! k = Some true.
Proof. induction 1; eauto using write_keeps_true. Qed.

Lemma writes_keep_key m m' k : rtc write m m' -> is_Some (m !! k) -> is_Some (m' !! k).
Proof. induction 1; eauto using write_keeps_key. Qed.

Lemma writes_dom m m' : rtc write m m' -> dom m ⊆ dom m'.
Proof.
  intros H k. rewrite !elem_of_dom. now apply writes_keep_key.
Qed.

(** Number of events of a kind in a log. *)
Fixpoint countEv (p : Event -> bool) (evs : list Event) : nat :=
  match evs with
  | [] => 0
  | e :: evs' => (if p e then 1 else 0) + countEv p evs'
  end.

Lemma countEv_app p evs1 evs2 : countEv p (evs1 ++ evs2) = countEv p evs1 + countEv p evs2.
Proof. induction evs1 as [|e evs1 IH]; simpl; [done | rewrite IH; lia]. Qed.

Definition isAlreadyHandled (e : Event) : bool :=
  match e with EvAlreadyHandled _ => true | _ => false end.
Definition isPublish (e : Event) : bool :=
  match e with EvPublish _ _ _ => true | _ => false end.
Definition isTidy (e : Event) : bool :=
  match e with EvTidy _ _ => true | _ => false end.
Definition isInit (e : Event) : bool :=
  match e with EvGoModInit _ _ _ => true | _ => false end.
Definition isUnzip (e : Event) : bool :=
  match e with EvUnzip _ _ _ => true | _ => false end.

(** Number of children the walk found already handled. *)
Definition handled (evs : list Event) : nat := countEv isAlreadyHandled evs.

Lemma handled_app evs1 evs2 : handled (evs1 ++ evs2) = handled evs1 + handled evs2.
Proof. apply countEv_app. Qed.

End Runs.

(** Stepping through a run that is known to return. *)
Ltac run_inv :=
  repeat (match goal with
    | H : bind _ _ _ = Ret _ _ |- _ =>
        let a := fresh "a" in let s := fresh "s" in let Ha := fresh "Hrun" in
        apply bind_inv in H as (a & s & Ha & H)
    | H : ret _ _ = Ret _ _ |- _ => apply ret_inv in H as [? ?]; subst
    | H : call _ _ _ = Ret _ _ |- _ =>
        let e := fresh "e" in let He := fresh "Hcall" in
        apply call_inv in H as (e & He & ?); subst
    | H : note _ _ = Ret _ _ |- _ => apply note_inv in H; subst
    | H : updCache _ _ = Ret _ _ |- _ => apply updCache_inv in H; subst
    | H : mapStore _ _ _ = Ret _ _ |- _ => apply updCache_inv in H; subst
    | H : IncrementTotal _ _ = Ret _ _ |- _ => apply updCache_inv in H; subst
    | H : IncrementSuccess _ = Ret _ _ |- _ => apply updCache_inv in H; subst
    | H : IncrementFailures _ = Ret _ _ |- _ => apply updCache_inv in H; subst
    | H : GetMap _ = Ret _ _ |- _ => apply GetMap_inv in H as [? ?]; subst
    | H : index _ _ _ = Ret _ _ |- _ => apply index_inv in H as [? ?]; subst
    | H : panic _ = Ret _ _ |- _ => discriminate H
    | H : outOfFuel _ = Ret _ _ |- _ => discriminate H
    end; cbn [cache env log fst snd] in *).

(** The same, splitting on every test the run went through. *)
Ltac run_all :=
  repeat (run_inv;
          match goal with
          | H : (match ?x with _ => _ end) _ = Ret _ _ |- _ =>
              let E := fresh "E" in destruct x eqn:E
          end);
  run_inv.

(** Proving that a relation is kept, along the structure of the code. *)
Ltac pres_with Hrefl Htrans :=
  repeat first
    [ progress intros
    | solve [auto with walk]
    | apply (preserves_ret _ Hrefl)
    | apply (preserves_panic _)
    | apply (preserves_outOfFuel _)
    | apply (preserves_GetMap _ Hrefl)
    | apply (preserves_index _ Hrefl)
    | apply (preserves_bind _ Htrans)
    | match goal with
      | |- preserves _ (if ?b then _ else _) => destruct b
      | |- preserves _ (match ?x with _ => _ end) => destruct x
      | |- preserves _ (let _ := _ in _) => cbv zeta
      end
    | solve [eauto with walk] ].

Create HintDb walk.

Section Walk.
Context {Env : Type} (W : World Env).

(** *** The cache is left as it was *)

Definition same_cache (s s' : State Env) : Prop := cache s' = cache s.

Lemma same_cache_refl s : same_cache s s.
Proof. reflexivity. Qed.

Lemma same_cache_trans s1 s2 s3 : same_cache s1 s2 -> same_cache s2 s3 -> same_cache s1 s3.
Proof. unfold same_cache. congruence. Qed.

Lemma same_cache_call {A} (f : Env -> Env * A) ev : preserves same_cache (call f ev).
Proof. intros s a s' H. run_inv. reflexivity. Qed.

Lemma same_cache_note e : preserves (Env:=Env) same_cache (note e).
Proof. intros s a s' H. run_inv. reflexivity. Qed.

Hint Resolve same_cache_call same_cache_note : walk.

Ltac same := pres_with same_cache_refl same_cache_trans.

Lemma same_cache_writeModContentToModFile path content :
  preserves same_cache (writeModContentToModFile W path content).
Proof. unfold writeModContentToModFile. same. Qed.
Hint Resolve same_cache_writeModContentToModFile : walk.

Lemma same_cache_getModPathInTemp pwd tempDir :
  preserves same_cache (getModPathInTemp W pwd tempDir).
Proof. unfold getModPathInTemp. same. Qed.
Hint Resolve same_cache_getModPathInTemp : walk.

Lemma same_cache_getModPathAndUnzipDependency pwd path :
  preserves same_cache (getModPathAndUnzipDependency W pwd path).
Proof. unfold getModPathAndUnzipDependency. same. Qed.
Hint Resolve same_cache_getModPathAndUnzipDependency : walk.

Lemma same_cache_useCachedMod pwd path : preserves same_cache (useCachedMod W pwd path).
Proof. unfold useCachedMod. same. Qed.
Hint Resolve same_cache_useCachedMod : walk.

Lemma same_cache_prepareAndRunInit pwd path : preserves same_cache (prepareAndRunInit W pwd path).
Proof. unfold prepareAndRunInit. same. Qed.
Hint Resolve same_cache_prepareAndRunInit : walk.

Lemma same_cache_prepareUnpublishedDependency pwd path orig :
  preserves same_cache (prepareUnpublishedDependency W pwd path orig).
Proof. unfold prepareUnpublishedDependency. same. Qed.
Hint Resolve same_cache_prepareUnpublishedDependency : walk.

Lemma same_cache_graphOf pwd path : preserves same_cache (graphOf W pwd path).
Proof. unfold graphOf. same. Qed.
Hint Resolve same_cache_graphOf : walk.

Lemma same_cache_createDependencyAndPrepareMod pwd :
  preserves same_cache (createDependencyAndPrepareMod W pwd).
Proof. unfold createDependencyAndPrepareMod. same. Qed.
Hint Resolve same_cache_createDependencyAndPrepareMod : walk.

Lemma same_cache_writeModContentToGoCache pwd :
  preserves same_cache (writeModContentToGoCache W pwd).
Proof. unfold writeModContentToGoCache. same. Qed.
Hint Resolve same_cache_writeModContentToGoCache : walk.

Lemma same_cache_persistIfPopulated pwd published :
  preserves same_cache (persistIfPopulated W pwd published).
Proof. unfold persistIfPopulated. same. Qed.
Hint Resolve same_cache_persistIfPopulated : walk.

Lemma same_cache_revertToOriginalMod pwd path published :
  preserves same_cache (revertToOriginalMod W pwd path published).
Proof. unfold revertToOriginalMod. same. Qed.
Hint Resolve same_cache_revertToOriginalMod : walk.

Lemma same_cache_removeWorkspace path : preserves same_cache (removeWorkspace W path).
Proof. unfold removeWorkspace. same. Qed.
Hint Resolve same_cache_removeWorkspace : walk.

(** *** What every run keeps *)

(** A path the resolver computed for a [go.mod] in a workspace
    (line 220). *)
Definition isModPath (path : string) : Prop :=
  exists tempDir modulePath, path = filepath_Join W [tempDir; modulePath; "go.mod"].

(** The calls that change the process itself: [GOPROXY] is the only
    variable unset, and the only directories entered are workspaces. *)
Definition processOk (e : Event) : Prop :=
  match e with
  | EvUnsetenv key _ => key = GOPROXY
  | EvChdir dir _ => exists path, isModPath path /\ dir = filepath_Dir W path
  | _ => True
  end.

Record walk (s s' : State Env) : Prop := mkWalk {
  walk_map : rtc write (depMap (cache s)) (depMap (cache s'));
  walk_totals : totals (cache s) <= totals (cache s');
  walk_failures : failures (cache s) <= failures (cache s');
  walk_log : exists evs, log s' = log s ++ evs /\ Forall processOk evs /\
                         successes (cache s) + handled evs <= successes (cache s')
}.

Lemma walk_refl s : walk s s.
Proof.
  split; [reflexivity | lia | lia |].
  exists []. rewrite app_nil_r. repeat split; [constructor | unfold handled; simpl; lia].
Qed.

Lemma walk_trans s1 s2 s3 : walk s1 s2 -> walk s2 s3 -> walk s1 s3.
Proof.
  intros [Hm1 Ht1 Hf1 (evs1 & Hl1 & Ho1 & Hs1)] [Hm2 Ht2 Hf2 (evs2 & Hl2 & Ho2 & Hs2)].
  split; [etrans; eauto | lia | lia |].
  exists (evs1 ++ evs2). rewrite Hl2, Hl1, app_assoc, handled_app.
  repeat split; [by apply Forall_app | lia].
Qed.

Lemma same_cache_walk s evs :
  Forall processOk evs -> handled evs = 0 ->
  forall s', cache s' = cache s -> log s' = log s ++ evs -> walk s s'.
Proof.
  intros Hok Hh s' Hc Hl.
  split; rewrite ?Hc; [reflexivity | lia | lia |].
  exists evs. repeat split; [done.. | lia].
Qed.

Lemma walk_call {A} (f : Env -> Env * A) ev :
  (forall a, processOk (ev a) /\ isAlreadyHandled (ev a) = false) ->
  preserves walk (call f ev).
Proof.
  intros Hev s a s' H. run_inv.
  destruct (Hev a) as [Hok Hh].
  eapply same_cache_walk with (evs := [_]); [ | | reflexivity | reflexivity].
  - by repeat constructor.
  - unfold handled. simpl. by rewrite Hh.
Qed.

Lemma walk_note_start id : preserves (Env:=Env) walk (note (EvStart id)).
Proof.
  intros s a s' H. run_inv.
  eapply same_cache_walk with (evs := [_]); [ | | reflexivity | reflexivity]; [|done].
  by repeat constructor.
Qed.

Lemma walk_skip id :
  preserves (Env:=Env) walk (IncrementSuccess ;; note (EvAlreadyHandled id)).
Proof.
  intros s a s' H. run_inv.
  split; simpl; [reflexivity | lia | lia |].
  exists [EvAlreadyHandled id]. repeat split; [by repeat constructor | unfold handled; simpl; lia].
Qed.

Lemma walk_cache f :
  (forall c, rtc write (depMap c) (depMap (f c)) /\ totals c <= totals (f c) /\
             failures c <= failures (f c) /\ successes c <= successes (f c)) ->
  preserves (Env:=Env) walk (updCache f).
Proof.
  intros Hf s a s' H. run_inv. destruct (Hf (cache s)) as (? & ? & ? & ?).
  split; simpl; [done.. |].
  exists []. rewrite app_nil_r. repeat split; [constructor | unfold handled; simpl; lia].
Qed.

Lemma walk_IncrementTotal n : preserves (Env:=Env) walk (IncrementTotal n).
Proof. apply walk_cache. intros c; simpl. repeat split; [reflexivity | lia..]. Qed.

Lemma walk_IncrementSuccess : preserves (Env:=Env) walk IncrementSuccess.
Proof. apply walk_cache. intros c; simpl. repeat split; [reflexivity | lia..]. Qed.

Lemma walk_IncrementFailures : preserves (Env:=Env) walk IncrementFailures.
Proof. apply walk_cache. intros c; simpl. repeat split; [reflexivity | lia..]. Qed.

Lemma walk_mark k : preserves (Env:=Env) walk (mapStore k true).
Proof.
  apply walk_cache. intros c; simpl.
  repeat split; [apply rtc_once, write_true | lia..].
Qed.

Hint Resolve walk_note_start walk_skip walk_IncrementTotal walk_IncrementSuccess
  walk_IncrementFailures walk_mark : walk.

Ltac walks := pres_with walk_refl walk_trans.

(** An outside call whose event is plainly harmless. *)
Ltac walk_plain := apply walk_call; intros; split; [exact I | reflexivity].
Hint Extern 1 (preserves walk (call _ _)) => walk_plain : walk.

Lemma walk_writeModContentToModFile path content :
  preserves walk (writeModContentToModFile W path content).
Proof. unfold writeModContentToModFile. walks. Qed.
Hint Resolve walk_writeModContentToModFile : walk.

Lemma walk_updateModContent pwd path : preserves walk (updateModContent W pwd path).
Proof. unfold updateModContent. walks. Qed.
Hint Resolve walk_updateModContent : walk.

Lemma walk_refreshPublished pwd targetRepo : preserves walk (refreshPublished W pwd targetRepo).
Proof. unfold refreshPublished. walks. Qed.
Hint Resolve walk_refreshPublished : walk.

Lemma walk_getModPathInTemp pwd tempDir : preserves walk (getModPathInTemp W pwd tempDir).
Proof. unfold getModPathInTemp. walks. Qed.
Hint Resolve walk_getModPathInTemp : walk.

Lemma walk_unsetenv : preserves walk (call (Unsetenv W GOPROXY) (EvUnsetenv GOPROXY)).
Proof. apply walk_call. intros; split; reflexivity. Qed.
Hint Resolve walk_unsetenv : walk.

Lemma walk_getModPathAndUnzipDependency pwd path :
  preserves walk (getModPathAndUnzipDependency W pwd path).
Proof. unfold getModPathAndUnzipDependency. walks. Qed.
Hint Resolve walk_getModPathAndUnzipDependency : walk.

Lemma walk_chdir path :
  isModPath path ->
  preserves walk (call (Chdir W (filepath_Dir W path)) (EvChdir (filepath_Dir W path))).
Proof. intros Hp. apply walk_call. intros; split; [simpl; eauto | reflexivity]. Qed.
Hint Resolve walk_chdir : walk.

Lemma walk_useCachedMod pwd path : isModPath path -> preserves walk (useCachedMod W pwd path).
Proof. intros Hp. unfold useCachedMod. walks. Qed.
Hint Resolve walk_useCachedMod : walk.

Lemma walk_prepareAndRunInit pwd path :
  isModPath path -> preserves walk (prepareAndRunInit W pwd path).
Proof. intros Hp. unfold prepareAndRunInit. walks. Qed.
Hint Resolve walk_prepareAndRunInit : walk.

Lemma walk_prepareUnpublishedDependency pwd path orig :
  isModPath path -> preserves walk (prepareUnpublishedDependency W pwd path orig).
Proof. intros Hp. unfold prepareUnpublishedDependency. walks. Qed.
Hint Resolve walk_prepareUnpublishedDependency : walk.

Lemma walk_graphOf pwd path : preserves walk (graphOf W pwd path).
Proof. unfold graphOf. walks. Qed.
Hint Resolve walk_graphOf : walk.

Lemma preserves_bind_with (R : State Env -> State Env -> Prop)
    (R_trans : forall s1 s2 s3, R s1 s2 -> R s2 s3 -> R s1 s3)
    {A B} (Q : A -> Prop) (m : M Env A) (k : A -> M Env B) :
  (forall s a s', m s = Ret a s' -> Q a) ->
  preserves R m -> (forall a, Q a -> preserves R (k a)) -> preserves R (bind m k).
Proof.
  intros HQ Hm Hk s b s' (a & s1 & H1 & H2)%bind_inv.
  eapply R_trans; [eapply Hm | eapply Hk]; eauto.
Qed.

(** Line 187: when no error is returned the path is the workspace's
    [go.mod]; otherwise it is empty. *)
Lemma getModPathAndUnzipDependency_path pwd p s r s' :
  getModPathAndUnzipDependency W pwd p s = Ret r s' ->
  if is_nil (snd r) then isModPath (fst r) else fst r = "".
Proof.
  unfold getModPathAndUnzipDependency, getModPathInTemp. intros H.
  apply bind_inv in H as (err & s1 & _ & H). destruct (is_nil err) eqn:E1.
  - apply bind_inv in H as ([tempDir err2] & s2 & _ & H). simpl in H.
    destruct (is_nil err2) eqn:E2; run_inv; simpl; rewrite E2; [|done].
    eexists _, _. reflexivity.
  - run_inv. simpl. by rewrite E1.
Qed.

Lemma walk_createDependencyAndPrepareMod pwd :
  preserves walk (createDependencyAndPrepareMod W pwd).
Proof.
  unfold createDependencyAndPrepareMod.
  eapply (preserves_bind_with _ walk_trans
            (fun r => if is_nil (snd r) then isModPath (fst r) else fst r = "")).
  - intros s r s'. apply getModPathAndUnzipDependency_path.
  - auto with walk.
  - intros [path err]; simpl. destruct (is_nil err); intros Hp; walks.
Qed.
Hint Resolve walk_createDependencyAndPrepareMod : walk.

Lemma walk_writeModContentToGoCache pwd : preserves walk (writeModContentToGoCache W pwd).
Proof. unfold writeModContentToGoCache. walks. Qed.
Hint Resolve walk_writeModContentToGoCache : walk.

Lemma walk_persistIfPopulated pwd published :
  preserves walk (persistIfPopulated W pwd published).
Proof. unfold persistIfPopulated. walks. Qed.
Hint Resolve walk_persistIfPopulated : walk.

Lemma walk_revertToOriginalMod pwd path published :
  preserves walk (revertToOriginalMod W pwd path published).
Proof. unfold revertToOriginalMod. walks. Qed.
Hint Resolve walk_revertToOriginalMod : walk.

Lemma walk_removeWorkspace path : preserves walk (removeWorkspace W path).
Proof. unfold removeWorkspace. walks. Qed.
Hint Resolve walk_removeWorkspace : walk.

Lemma walk_Package_prepareAndPublish p targetRepo :
  preserves walk (Package_prepareAndPublish W p targetRepo).
Proof. unfold Package_prepareAndPublish. walks. Qed.
Hint Resolve walk_Package_prepareAndPublish : walk.

Lemma walk_prepareAndPublish pwd targetRepo :
  preserves walk (prepareAndPublish W pwd targetRepo).
Proof. unfold prepareAndPublish. walks. Qed.
Hint Resolve walk_prepareAndPublish : walk.

(** Line 319 writes a key that line 287 found missing. *)
Lemma walk_fresh (s s' : State Env) k b evs :
  depMap (cache s) !! k = None ->
  Forall processOk evs -> handled evs = 0 ->
  cache s' = setFlag k b (cache s) -> log s' = log s ++ evs -> walk s s'.
Proof.
  intros Hk Hok Hh Hc Hl.
  split; rewrite ?Hc; simpl; [by apply rtc_once, write_fresh | lia | lia |].
  exists evs. repeat split; [done.. | lia].
Qed.

Lemma walk_log_of s s' :
  walk s s' -> exists evs, log s' = log s ++ evs /\ Forall processOk evs.
Proof. intros [_ _ _ (evs & ? & ? & _)]. eauto. Qed.

(** *** One edge of the graph *)

Lemma is_nil_true e : is_nil e = true -> e = ErrNil.
Proof. by destruct e. Qed.

(** The key under which line 287 looks an edge up and line 319 records it. *)
Definition edgeKey (m0 m1 : string) : string := getDependencyName W m0 +:+ ":" +:+ m1.

(** [d] is what [createDependency] or [downloadAndCreateDependency] made
    of [name] and [version], without an error. *)
Definition materialisedAs (cachePath name version : string) (d : Package) : Prop :=
  (exists e e', createDependency W cachePath name version e = (e', (Some d, ErrNil))) \/
  (exists edge targetRepo found e e',
      downloadAndCreateDependency W cachePath name version edge targetRepo found e
      = (e', (Some d, ErrNil))).

(** The outside calls of the expansion of one edge. *)
Definition expansionEvent (e : Event) : Prop :=
  match e with
  | EvCreateDependency _ _ _ _ _ | EvProbe _ _ _ _ _ | EvDownloadAndCreate _ _ _ _ _ _ _ _ => True
  | _ => False
  end.

Lemma expansionEvent_processOk evs : Forall expansionEvent evs -> Forall processOk evs.
Proof. intros H. eapply Forall_impl; [exact H|]. by intros []. Qed.

Lemma expansionEvent_count p evs :
  (forall e, expansionEvent e -> p e = false) -> Forall expansionEvent evs -> countEv p evs = 0.
Proof.
  intros Hp. induction 1 as [|e evs He _ IH]; simpl; [done|]. by rewrite (Hp e He).
Qed.

Lemma expansionEvent_handled evs : Forall expansionEvent evs -> handled evs = 0.
Proof. apply expansionEvent_count. by intros []. Qed.

(** The events of a log extension, made explicit. *)
Ltac log_ext :=
  eexists; split;
    [rewrite <- ?app_assoc; simpl; first [reflexivity | symmetry; apply app_nil_r] |];
  split; [repeat constructor |].

Lemma setTransitiveDependency_spec pwd targetRepo deps edge s deps' s' :
  setTransitiveDependency W pwd targetRepo deps edge s = Ret deps' s' ->
  exists evs, log s' = log s ++ evs /\ Forall expansionEvent evs /\
    ((deps' = deps /\ cache s' = cache s) \/
     (exists m0 m1 found d,
        strings.Split edge at_sign = [m0; m1] /\
        depMap (cache s) !! edgeKey m0 m1 = None /\
        deps' = deps ++ [childOf pwd d] /\
        cache s' = setFlag (edgeKey m0 m1) found (cache s) /\
        EvProbe m0 m1 targetRepo found ErrNil ∈ evs /\
        materialisedAs (cachePath pwd) (getDependencyName W m0) m1 d)).
Proof.
  unfold setTransitiveDependency. intros H.
  destruct (strings.Split edge at_sign) as [|m0 [|m1 [|? ?]]] eqn:Hsplit;
    try (run_inv; log_ext; by left).
  apply bind_inv in H as (m & s1 & Hm & H). run_inv.
  fold (edgeKey m0 m1) in H.
  destruct (depMap (cache s) !! edgeKey m0 m1) eqn:Hkey; [run_inv; log_ext; by left|].
  apply bind_inv in H as ([dep err] & s2 & Hc & H). run_inv.
  destruct (is_nil err) eqn:E1; [|run_inv; log_ext; by left].
  apply is_nil_true in E1 as ->.
  apply bind_inv in H as ([found err] & s3 & Hq & H). run_inv.
  destruct (is_nil err) eqn:E2; [|run_inv; log_ext; by left].
  apply is_nil_true in E2 as ->.
  destruct dep as [d|].
  - unfold appendChild in H. run_inv. log_ext. right.
    exists m0, m1, found, d. repeat split; try done.
    + rewrite !elem_of_cons. auto.
    + left. eauto.
  - apply bind_inv in H as ([dep err] & s4 & Hd & H). run_inv.
    destruct (is_nil err) eqn:E3; [|run_inv; log_ext; by left].
    apply is_nil_true in E3 as ->.
    destruct dep as [d|]; unfold appendChild in H; run_inv; log_ext; [|by left].
    right. exists m0, m1, found, d. repeat split; try done.
    + rewrite !elem_of_cons. auto.
    + right. eauto 10.
Qed.

Lemma walk_setTransitiveDependency pwd targetRepo deps edge :
  preserves walk (setTransitiveDependency W pwd targetRepo deps edge).
Proof.
  intros s deps' s' H.
  apply setTransitiveDependency_spec in H as (evs & Hl & Hev & [[_ Hc]|Hnew]).
  - apply (same_cache_walk s evs);
      auto using expansionEvent_processOk, expansionEvent_handled.
  - destruct Hnew as (m0 & m1 & found & d & _ & Hk & _ & Hc & _).
    apply (walk_fresh s s' (edgeKey m0 m1) found evs);
      auto using expansionEvent_processOk, expansionEvent_handled.
Qed.
Hint Resolve walk_setTransitiveDependency : walk.

Lemma walk_setTransitiveDependencies pwd targetRepo graph :
  preserves walk (setTransitiveDependencies W pwd targetRepo graph).
Proof.
  unfold setTransitiveDependencies. walks.
  apply (preserves_foldM _ walk_refl walk_trans). walks.
Qed.
Hint Resolve walk_setTransitiveDependencies : walk.

Lemma walk_expandGraph pwd path targetRepo graph :
  preserves walk (expandGraph W pwd path targetRepo graph).
Proof. unfold expandGraph. walks. Qed.
Hint Resolve walk_expandGraph : walk.

(** A loop keeps what each of its turns keeps. *)
Lemma foldM_invariant {A B} (f : B -> A -> M Env B) (I : B -> State Env -> Prop) l :
  (forall b x s b' s', x ∈ l -> I b s -> f b x s = Ret b' s' -> I b' s') ->
  forall b s b' s', I b s -> foldM f l b s = Ret b' s' -> I b' s'.
Proof.
  induction l as [|x l IH]; simpl; intros Hf b s b' s' HI H.
  - by run_inv.
  - apply bind_inv in H as (b1 & s1 & H1 & H).
    eapply IH; [| |exact H].
    + intros. eapply Hf; [by right|..]; eauto.
    + eapply Hf; [by left|..]; eauto.
Qed.


(** The expansion writes no counter and keeps every entry of the map. *)
Record extends (s s' : State Env) : Prop := mkExtends {
  ext_map : depMap (cache s) ⊆ depMap (cache s');
  ext_totals : totals (cache s') = totals (cache s);
  ext_successes : successes (cache s') = successes (cache s);
  ext_failures : failures (cache s') = failures (cache s)
}.

Lemma extends_refl s : extends s s.
Proof. by split. Qed.

Lemma extends_trans s1 s2 s3 : extends s1 s2 -> extends s2 s3 -> extends s1 s3.
Proof. intros [] []. split; [by etrans | congruence..]. Qed.

Lemma same_cache_extends s s' : same_cache s s' -> extends s s'.
Proof. unfold same_cache. intros H. split; by rewrite H. Qed.

Lemma extends_setTransitiveDependency pwd targetRepo deps edge :
  preserves extends (setTransitiveDependency W pwd targetRepo deps edge).
Proof.
  intros s deps' s' H.
  apply setTransitiveDependency_spec in H as (evs & Hl & Hev & [[_ Hc]|Hnew]).
  - by apply same_cache_extends.
  - destruct Hnew as (m0 & m1 & found & d & _ & Hk & _ & Hc & _).
    split; rewrite Hc; simpl; [by apply insert_subseteq | done..].
Qed.

Lemma extends_call {A} (f : Env -> Env * A) ev : preserves extends (call f ev).
Proof. intros s a s' H. by apply same_cache_extends, (same_cache_call f ev s a). Qed.

Hint Resolve extends_call extends_setTransitiveDependency : walk.

Lemma extends_setTransitiveDependencies pwd targetRepo graph :
  preserves extends (setTransitiveDependencies W pwd targetRepo graph).
Proof.
  unfold setTransitiveDependencies. pres_with extends_refl extends_trans.
  apply (preserves_foldM _ extends_refl extends_trans).
  intros. apply extends_setTransitiveDependency.
Qed.

Lemma extends_expandGraph pwd path targetRepo graph :
  preserves extends (expandGraph W pwd path targetRepo graph).
Proof.
  pose proof extends_setTransitiveDependencies.
  unfold expandGraph. pres_with extends_refl extends_trans.
Qed.

Lemma extends_flag s s' k b :
  extends s s' -> depMap (cache s) !! k = Some b -> depMap (cache s') !! k = Some b.
Proof. intros [Hm _ _ _] Hk. by eapply lookup_weaken. Qed.

(** *** The children of an expansion *)

Definition isStart (e : Event) : bool :=
  match e with EvStart _ => true | _ => false end.

(** What holds of a child the expansion of [pwd] made, once [evs] has
    been logged and the cache is [c]: it wraps a materialised package and
    shares the settings of [pwd]; its key is in the map, with the answer
    the probe of Artifactory gave. *)
Definition expanded (pwd : PackageWithDeps) (targetRepo : string)
    (c : DependenciesCache) (evs : list Event) (child : PackageWithDeps) : Prop :=
  exists m0 m1 found d,
    child = childOf pwd d /\
    materialisedAs (cachePath pwd) (getDependencyName W m0) m1 d /\
    depMap c !! edgeKey m0 m1 = Some found /\
    EvProbe m0 m1 targetRepo found ErrNil ∈ evs.

(** The loop of lines 282-325, after some turns: [evs] is what they
    logged since [s0]. *)
Definition expansion (pwd : PackageWithDeps) (targetRepo : string) (s0 : State Env)
    (deps : list PackageWithDeps) (s : State Env) : Prop :=
  exists evs, log s = log s0 ++ evs /\ countEv isStart evs = 0 /\
    Forall (expanded pwd targetRepo (cache s) evs) deps.

Lemma expansion_step pwd targetRepo s0 deps edge s deps' s' :
  setTransitiveDependency W pwd targetRepo deps edge s = Ret deps' s' ->
  expansion pwd targetRepo s0 deps s -> expansion pwd targetRepo s0 deps' s'.
Proof.
  intros H (evs0 & Hl0 & Hst0 & Hdeps).
  assert (Hext : extends s s') by by eapply extends_setTransitiveDependency.
  apply setTransitiveDependency_spec in H as (evs & Hl & Hevs & Hcase).
  assert (Hst : countEv isStart evs = 0).
  { revert Hevs. apply expansionEvent_count. by intros []. }
  exists (evs0 ++ evs). rewrite Hl, Hl0, app_assoc, countEv_app. split; [done|]. split; [lia|].
  assert (Hold : Forall (expanded pwd targetRepo (cache s') (evs0 ++ evs)) deps).
  { eapply Forall_impl; [exact Hdeps|].
    intros child (m0 & m1 & found & d & -> & Hmat & Hk & Hev).
    exists m0, m1, found, d. repeat split; [done | by eapply extends_flag |].
    apply elem_of_app. by left. }
  destruct Hcase as [[-> _]|(m0 & m1 & found & d & _ & Hk & -> & Hc & Hev & Hmat)]; [done|].
  apply Forall_app; split; [done|]. constructor; [|constructor].
  exists m0, m1, found, d. repeat split; [done| |].
  - rewrite Hc. simpl. apply lookup_insert_eq.
  - apply elem_of_app. by right.
Qed.

Lemma expansion_setTransitiveDependencies pwd targetRepo graph s pwd' s' :
  setTransitiveDependencies W pwd targetRepo graph s = Ret pwd' s' ->
  pwd' = withTransitive pwd (transitiveDependencies pwd') /\
  expansion pwd targetRepo s (transitiveDependencies pwd') s'.
Proof.
  unfold setTransitiveDependencies. intros H.
  apply bind_inv in H as (deps & s1 & Hfold & H). run_inv. simpl. split; [done|].
  revert Hfold.
  apply (foldM_invariant _ (expansion pwd targetRepo s)).
  - intros b x s0 b' s0' _ Hb Hstep. by eapply expansion_step.
  - exists []. rewrite app_nil_r. by repeat split.
Qed.

(** *** The walk over the children and the whole call *)

Section Recursion.
Variable rec : string -> PackageWithDeps -> M Env (PackageWithDeps * error).
Hypothesis walk_rec : forall targetRepo pwd, preserves walk (rec targetRepo pwd).

Lemma walk_populateChild targetRepo u child :
  preserves walk (populateChild rec targetRepo u child).
Proof. unfold populateChild. walks. Qed.

Lemma walk_populateTransitive pwd targetRepo :
  preserves walk (populateTransitive rec pwd targetRepo).
Proof.
  unfold populateTransitive. walks.
  apply (preserves_foldM _ walk_refl walk_trans). intros. apply walk_populateChild.
Qed.

Lemma walk_publishAndPopulate pwd path targetRepo graph :
  preserves walk (publishAndPopulate W rec pwd path targetRepo graph).
Proof.
  pose proof walk_populateTransitive. unfold publishAndPopulate. walks.
Qed.

Lemma walk_publishDependencyAndPopulateTransitive pwd path targetRepo graph :
  preserves walk (publishDependencyAndPopulateTransitive W rec pwd path targetRepo graph).
Proof.
  pose proof walk_publishAndPopulate.
  unfold publishDependencyAndPopulateTransitive. walks.
Qed.

Lemma walk_PopulateModAndPublish_body pwd targetRepo :
  preserves walk (PopulateModAndPublish_body W rec pwd targetRepo).
Proof.
  pose proof walk_publishDependencyAndPopulateTransitive.
  unfold PopulateModAndPublish_body. walks.
Qed.

End Recursion.

Lemma walk_PopulateModAndPublish fuel targetRepo pwd :
  preserves walk (PopulateModAndPublish W fuel targetRepo pwd).
Proof.
  revert targetRepo pwd. induction fuel as [|fuel IH]; intros targetRepo pwd; simpl.
  - apply preserves_outOfFuel.
  - by apply walk_PopulateModAndPublish_body.
Qed.

(** *** The order of the calls of one node *)

Lemma createDependencyAndPrepareMod_log pwd s r s' :
  createDependencyAndPrepareMod W pwd s = Ret r s' ->
  exists err rest, log s' = log s ++ EvUnsetenv GOPROXY err :: rest.
Proof.
  unfold createDependencyAndPrepareMod, getModPathAndUnzipDependency, getModPathInTemp,
    useCachedMod, prepareUnpublishedDependency, prepareAndRunInit, graphOf,
    writeModContentToModFile.
  intros H. run_all.
  all: rewrite <- ?app_assoc; simpl; eauto.
Qed.

Lemma refreshPublished_log pwd targetRepo s pwd' s' :
  refreshPublished W pwd targetRepo s = Ret pwd' s' ->
  exists pre, log s' = log s ++ pre /\ countEv isUnzip pre = 0.
Proof.
  unfold refreshPublished, updateModContent. intros H. run_all.
  all: eexists; split;
    [rewrite <- ?app_assoc; simpl; first [reflexivity | symmetry; apply app_nil_r] | done].
Qed.

(** Lines 164-175 and 191-208 enter the directory of the mod file. *)
Lemma useCachedMod_chdir pwd path s err s' :
  useCachedMod W pwd path s = Ret err s' ->
  exists evs e, log s' = log s ++ evs /\ EvChdir (filepath_Dir W path) e ∈ evs.
Proof.
  unfold useCachedMod, writeModContentToModFile. intros H. run_all.
  all: eexists _, _; split; [rewrite <- ?app_assoc; simpl; reflexivity |].
  all: rewrite !elem_of_cons; auto.
Qed.

Lemma prepareAndRunInit_chdir pwd path s err s' :
  prepareAndRunInit W pwd path s = Ret err s' ->
  exists e rest, log s' = log s ++ EvChdir (filepath_Dir W path) e :: rest.
Proof.
  unfold prepareAndRunInit. intros H. run_all.
  all: eexists _, _; rewrite <- ?app_assoc; simpl; reflexivity.
Qed.

(** The log only grows. *)
Definition grows (s s' : State Env) : Prop := exists evs, log s' = log s ++ evs.

Lemma grows_refl s : grows s s.
Proof. exists []. by rewrite app_nil_r. Qed.

Lemma grows_trans s1 s2 s3 : grows s1 s2 -> grows s2 s3 -> grows s1 s3.
Proof. intros [evs1 H1] [evs2 H2]. exists (evs1 ++ evs2). by rewrite H2, H1, app_assoc. Qed.

Lemma grows_call {A} (f : Env -> Env * A) ev : preserves grows (call f ev).
Proof. intros s a s' H. run_inv. by eexists. Qed.

Lemma grows_note e : preserves (Env:=Env) grows (note e).
Proof. intros s a s' H. run_inv. by eexists. Qed.

Lemma grows_updCache f : preserves (Env:=Env) grows (updCache f).
Proof. intros s a s' H. run_inv. exists []. simpl. by rewrite app_nil_r. Qed.

Hint Resolve grows_call grows_note grows_updCache : walk.

(** Putting the pieces of a log together. *)
Ltac chain :=
  repeat match goal with
    | Hl : log ?x = _ |- context [log ?x] => rewrite Hl; clear Hl
    end;
  rewrite <- ?app_assoc; simpl; try reflexivity.

(** What a run that returned logged, whatever the code run was. *)
Ltac have_grows H :=
  match type of H with
  | ?m ?s = Ret ?a ?s' =>
      let Hg := fresh "Hgrows" in
      assert (Hg : grows s s');
      [ let Hp := fresh in
        assert (Hp : preserves grows m)
          by (unfold IncrementTotal, IncrementSuccess, IncrementFailures, mapStore;
              pres_with grows_refl grows_trans);
        exact (Hp s a s' H)
      | ]
  end.

Lemma getModPathAndUnzipDependency_log pwd p s r s' :
  getModPathAndUnzipDependency W pwd p s = Ret r s' ->
  exists evs, log s' = log s ++ evs /\
    (is_nil (snd r) = false -> forall zip tempDir, EvUnzip zip tempDir ErrNil ∉ evs).
Proof.
  unfold getModPathAndUnzipDependency, getModPathInTemp. intros H. run_all.
  all: eexists; split; [rewrite <- ?app_assoc; simpl; reflexivity |].
  all: repeat match goal with x : (_ * _)%type |- _ => destruct x end; simpl in *.
  all: intros Hnil zip tempDir Hin; try congruence.
  all: repeat (apply elem_of_cons in Hin as [Hin|Hin];
               [try discriminate Hin; simplify_eq; simpl in *; congruence|]).
  all: by apply elem_of_nil in Hin.
Qed.

(** Once the archive is unpacked, a manifest that is not empty and a
    package that is not published both lead into the workspace. *)
Lemma createDependencyAndPrepareMod_chdir pwd s r s' :
  createDependencyAndPrepareMod W pwd s = Ret r s' ->
  exists evs, log s' = log s ++ evs /\
    (forall zip tempDir, EvUnzip zip tempDir ErrNil ∈ evs ->
       PatternMatched pwd (GetNotEmptyModRegex (regExp pwd)) = true \/
       flagOf (depMap (cache s)) (GetId (Dependency pwd)) = false ->
       exists e, EvChdir (filepath_Dir W (snd (fst (fst r)))) e ∈ evs).
Proof.
  unfold createDependencyAndPrepareMod. intros H.
  apply bind_inv in H as ([path err] & s1 & H1 & H). simpl in H.
  assert (Hc1 : cache s1 = cache s) by by eapply same_cache_getModPathAndUnzipDependency.
  apply getModPathAndUnzipDependency_log in H1 as (evs1 & Hl1 & Hunzip). simpl in Hunzip.
  destruct (is_nil err) eqn:Enil.
  2:{ run_inv. exists evs1. split; [done|]. intros zip tempDir Hin. by destruct (Hunzip eq_refl zip tempDir). }
  assert (Hpm : forall re, PatternMatched (withRevert pwd false) re = PatternMatched pwd re)
    by reflexivity.
  rewrite Hpm in H.
  destruct (PatternMatched pwd _) eqn:Epat.
  - apply bind_inv in H as (err2 & s2 & H2 & H).
    apply useCachedMod_chdir in H2 as (evs2 & e & Hl2 & Hin2).
    assert (Hpath : snd (fst (fst r)) = path)
      by (destruct (is_nil err2); unfold graphOf in H; run_all; done).
    have_grows H. destruct Hgrows as [evs3 Hl3].
    exists (evs1 ++ evs2 ++ evs3). split; [chain|].
    intros _ _ _ _. exists e. rewrite Hpath, !elem_of_app. auto.
  - apply bind_inv in H as (m & s2 & H2 & H). apply GetMap_inv in H2 as [-> ->].
    rewrite Hc1 in H. simpl in H.
    destruct (flagOf (depMap (cache s)) (GetId (Dependency pwd))) eqn:Eflag.
    + have_grows H. destruct Hgrows as [evs3 Hl3].
      exists (evs1 ++ evs3). split; [chain|].
      intros _ _ _ [?|Hf]; congruence.
    + simpl in H.
      apply bind_inv in H as ([pwd2 orig] & s3 & H3 & H).
      unfold prepareUnpublishedDependency in H3.
      apply bind_inv in H3 as (err3 & s4 & H4 & H3).
      apply prepareAndRunInit_chdir in H4 as (e & rest & Hl4).
      have_grows H3. destruct Hgrows as [evs5 Hl5].
      assert (Hpath : snd (fst (fst r)) = path).
      { simpl in H. destruct (negb _); unfold graphOf in H; run_all; done. }
      have_grows H. destruct Hgrows as [evs6 Hl6].
      exists (evs1 ++ (EvChdir (filepath_Dir W path) e :: rest) ++ evs5 ++ evs6).
      split; [chain|].
      intros _ _ _ _. exists e. rewrite Hpath, !elem_of_app, elem_of_cons. auto.
Qed.

(** ** The claims *)

(** C1 (amended).  The cache entry of the package is set to true after
    the publish call has returned, whatever it returned: [err] is the
    result of the one call to the repository that the step logs, and the
    entry is true in the state the step ends in. *)
Theorem prepareAndPublish_marks_after_publish pwd targetRepo s err s' :
  prepareAndPublish W pwd targetRepo s = Ret err s' ->
  (exists e', Publish W (Dependency pwd) targetRepo (env s) = (e', err)) /\
  log s' = log s ++ [EvPublish (Dependency pwd) targetRepo err] /\
  depMap (cache s') = <[GetId (Dependency pwd) := true]> (depMap (cache s)) /\
  depMap (cache s') !! GetId (Dependency pwd) = Some true.
Proof.
  unfold prepareAndPublish, Package_prepareAndPublish. intros H. run_all.
  - apply is_nil_true in E as ->. repeat split; eauto. apply lookup_insert_eq.
  - repeat split; eauto. apply lookup_insert_eq.
Qed.

(** C4.  Every child the expansion of a graph appends is recorded in the
    shared map in the same turn of the loop, under its own ID, with the
    answer the probe of Artifactory gave for its edge; no
    populate-and-publish starts during the expansion, which
    [publishAndPopulate] runs to its end before it walks the children.
    The child shares the cache path, the matcher, the tidy selector and
    the edit message of its parent.  Package IDs are [name:version]:
    the constructors of packages are not in this file, and that they
    follow this convention is the hypothesis. *)
Theorem children_recorded_when_appended pwd targetRepo graph s pwd' s' :
  (forall cachePath name version d,
     materialisedAs cachePath name version d -> GetId d = name +:+ ":" +:+ version) ->
  setTransitiveDependencies W pwd targetRepo graph s = Ret pwd' s' ->
  exists evs, log s' = log s ++ evs /\ countEv isStart evs = 0 /\
    Forall (fun child =>
              (exists m0 m1 found,
                 GetId (Dependency child) = edgeKey m0 m1 /\
                 depMap (cache s') !! GetId (Dependency child) = Some found /\
                 EvProbe m0 m1 targetRepo found ErrNil ∈ evs) /\
              cachePath child = cachePath pwd /\ regExp child = regExp pwd /\
              TidyEnum child = TidyEnum pwd /\
              GoModEditMessage child = GoModEditMessage pwd)
      (transitiveDependencies pwd').
Proof.
  intros Hid H.
  apply expansion_setTransitiveDependencies in H as [_ (evs & Hl & Hst & Hch)].
  exists evs. repeat split; [done..|].
  eapply Forall_impl; [exact Hch|].
  intros child (m0 & m1 & found & d & -> & Hmat & Hk & Hev). simpl.
  apply Hid in Hmat. fold (edgeKey m0 m1) in Hmat. rewrite Hmat.
  split; [by exists m0, m1, found | done].
Qed.


(** C6.  A whole call, with all the calls it makes on children, changes
    the map only by the two writes of [write]: a flag set to true, or a
    flag given to a key that had none.  So a key that is true stays
    true, and no key leaves the map. *)
Theorem published_flag_monotone fuel targetRepo pwd s r s' :
  PopulateModAndPublish W fuel targetRepo pwd s = Ret r s' ->
  rtc write (depMap (cache s)) (depMap (cache s')) /\
  (forall k, depMap (cache s) !! k = Some true -> depMap (cache s') !! k = Some true) /\
  (forall k, is_Some (depMap (cache s) !! k) -> is_Some (depMap (cache s') !! k)).
Proof.
  intros H. apply walk_PopulateModAndPublish in H as [Hm _ _ _].
  split; [done|]. split; intros k.
  - by apply writes_keep_true.
  - by apply writes_keep_key.
Qed.

(** C10.  A call that returns has unset [GOPROXY] before it unpacked
    anything ([pre] holds no unpacking), and of the calls that change the
    process it made only these: unsetting [GOPROXY], and entering the
    directory of a workspace's mod file; nothing sets the variable again
    or goes back to the directory the process was in.  Both the path of a
    manifest that is not empty and the path through init enter the
    workspace, once it is unpacked. *)
Theorem process_state_changed_not_restored fuel targetRepo pwd s r s' :
  PopulateModAndPublish W fuel targetRepo pwd s = Ret r s' ->
  exists pre err post,
    log s' = log s ++ pre ++ EvUnsetenv GOPROXY err :: post /\
    countEv isUnzip pre = 0 /\
    Forall processOk (pre ++ EvUnsetenv GOPROXY err :: post) /\
    (forall node s1 r1 s2,
       createDependencyAndPrepareMod W node s1 = Ret r1 s2 ->
       exists evs, log s2 = log s1 ++ evs /\
         (forall zip tempDir, EvUnzip zip tempDir ErrNil ∈ evs ->
            PatternMatched node (GetNotEmptyModRegex (regExp node)) = true \/
            flagOf (depMap (cache s1)) (GetId (Dependency node)) = false ->
            exists e, EvChdir (filepath_Dir W (snd (fst (fst r1)))) e ∈ evs)).
Proof.
  intros H.
  pose proof (walk_PopulateModAndPublish _ _ _ _ _ _ H) as [_ _ _ (evs & Hl & Hok & _)].
  destruct fuel as [|fuel]; [discriminate|]. simpl in H.
  unfold PopulateModAndPublish_body in H.
  apply bind_inv in H as (u & s0 & H0 & H). apply note_inv in H0.
  apply bind_inv in H as (pwd1 & s1 & H1 & H).
  apply refreshPublished_log in H1 as (pre & Hl1 & Hpre).
  apply bind_inv in H as ([[[pwd2 path] output] err2] & s2 & H2 & H).
  apply createDependencyAndPrepareMod_log in H2 as (err & rest & Hl2).
  apply bind_inv in H as (r3 & s3 & H3 & H). run_inv.
  apply walk_publishDependencyAndPopulateTransitive in H3;
    [|apply walk_PopulateModAndPublish].
  apply walk_log_of in H3 as (evs3 & Hl3 & _).
  assert (Hevs : evs = (EvStart (GetId (Dependency pwd)) :: pre)
                       ++ EvUnsetenv GOPROXY err :: rest ++ evs3).
  { apply (app_inv_head (log s)). rewrite <- Hl, Hl3, Hl2, Hl1. simpl.
    by rewrite <- !app_assoc. }
  exists (EvStart (GetId (Dependency pwd)) :: pre), err, (rest ++ evs3).
  rewrite <- Hevs. repeat split; [done.. |].
  intros node sa ra sb. apply createDependencyAndPrepareMod_chdir.
Qed.

(** What [expandGraph] changes of the resolver: the children. *)
Lemma expandGraph_fields pwd path targetRepo graph s pwd' s' :
  expandGraph W pwd path targetRepo graph s = Ret pwd' s' ->
  pwd' = withTransitive pwd (transitiveDependencies pwd').
Proof.
  unfold expandGraph. destruct graph as [|edge graph]; intros H.
  - run_inv. by destruct pwd'.
  - apply bind_inv in H as (r & s1 & _ & H).
    apply bind_inv in H as (pwd1 & s2 & H1 & H).
    apply expansion_setTransitiveDependencies in H1 as [H1 _].
    run_all; done.
Qed.

(** What the walk changes of the resolver: the children. *)
Lemma populateTransitive_fields rec pwd targetRepo (s : State Env) pwd' s' :
  populateTransitive rec pwd targetRepo s = Ret pwd' s' ->
  pwd' = withTransitive pwd (transitiveDependencies pwd').
Proof. unfold populateTransitive. intros H. run_inv. done. Qed.

(** When tidy is run, the flag is set and the snapshot is the manifest
    the package had when the call began; after tidy only the graph is
    asked for, so nothing that tidy wrote is read back. *)
Lemma createDependencyAndPrepareMod_snapshot pwd s r s' :
  createDependencyAndPrepareMod W pwd s = Ret r s' ->
  exists evs, log s' = log s ++ evs /\
    (countEv isTidy evs <> 0 ->
     shouldRevertToEmptyMod (fst (fst (fst r))) = true /\
     originalModContent (fst (fst (fst r))) = modContent (Dependency pwd) /\
     exists pre e, evs = pre ++ [EvTidy (snd (fst (fst r))) e; EvGraph (snd (fst r)) (snd r)]).
Proof.
  unfold createDependencyAndPrepareMod, getModPathAndUnzipDependency, getModPathInTemp,
    useCachedMod, prepareUnpublishedDependency, prepareAndRunInit, graphOf,
    writeModContentToModFile.
  intros H. run_all.
  all: eexists; split; [rewrite <- ?app_assoc; simpl; reflexivity |].
  all: simpl; try done.
  all: intros _; split; [done|]; split; [done|].
  all: match goal with
       | |- exists pre e, ?evs = pre ++ _ => exists (take (length evs - 2) evs)
       end; eexists; simpl; reflexivity.
Qed.

Lemma revertedContent_withTransitive pwd l :
  revertedContent (withTransitive pwd l) = revertedContent pwd.
Proof. reflexivity. Qed.

(** C2.  A package whose revert flag is set and that is not marked
    published when the flag is read (line 235, after the expansion of the
    graph): the last things the call does are to write the reverted
    manifest to the workspace mod file and to the local module cache, to
    publish the package with that manifest, and to remove the workspace.
    The reverted manifest is the recorded snapshot, with the edit message
    and an empty line put before it exactly when the snapshot does not
    match the edit marker; the package is left with it.  The snapshot is
    recorded whenever tidy is run, and is the manifest the package had
    before; once tidy has run the preparation only asks for the graph,
    so what tidy wrote is never read into the package. *)
Theorem manifest_of_record fuel pwd path targetRepo graph s pwd1 s1 r s' :
  shouldRevertToEmptyMod pwd = true ->
  expandGraph W pwd path targetRepo graph s = Ret pwd1 s1 ->
  flagOf (depMap (cache s1)) (GetId (Dependency pwd)) = false ->
  publishDependencyAndPopulateTransitive W (PopulateModAndPublish W fuel)
    pwd path targetRepo graph s = Ret r s' ->
  let manifest :=
    if GetGeneratedBy (regExp pwd) (originalModContent pwd)
    then originalModContent pwd
    else GoModEditMessage pwd +:+ String newline (String newline "") +:+ originalModContent pwd in
  (exists before cacheFile e1 e2 e3 e4,
     log s' = log s ++ before ++
       [EvWriteFile path manifest e1;
        EvWriteFile cacheFile manifest e2;
        EvPublish (SetModContent (Dependency pwd) manifest) targetRepo e3;
        EvRemoveAll (filepath_Dir W path) e4]) /\
  modContent (Dependency (fst r)) = manifest /\
  originalModContent (fst r) = manifest /\
  snd r = ErrNil /\
  (forall node sa ra sb,
     createDependencyAndPrepareMod W node sa = Ret ra sb ->
     exists evs, log sb = log sa ++ evs /\
       (countEv isTidy evs <> 0 ->
        shouldRevertToEmptyMod (fst (fst (fst ra))) = true /\
        originalModContent (fst (fst (fst ra))) = modContent (Dependency node) /\
        exists pre e,
          evs = pre ++ [EvTidy (snd (fst (fst ra))) e; EvGraph (snd (fst ra)) (snd ra)])).
Proof.
  intros Hrevert Hexpand Hflag H manifest.
  fold (revertedContent pwd) in manifest.
  unfold publishDependencyAndPopulateTransitive, publishAndPopulate in H.
  apply bind_inv in H as (pwd4 & s4 & H & Hrm).
  rewrite (bind_Ret _ _ _ _ _ Hexpand) in H.
  pose proof (expandGraph_fields _ _ _ _ _ _ _ Hexpand) as Hpwd1.
  assert (Hid : GetId (Dependency pwd1) = GetId (Dependency pwd)) by by rewrite Hpwd1.
  assert (Hdep : Dependency pwd1 = Dependency pwd) by by rewrite Hpwd1.
  assert (Hrev1 : shouldRevertToEmptyMod pwd1 = true) by by rewrite Hpwd1.
  assert (Hman : revertedContent pwd1 = manifest) by by rewrite Hpwd1.
  apply walk_expandGraph, walk_log_of in Hexpand as (evs1 & Hl1 & _).
  apply bind_inv in H as (m & s1' & Hm & H); apply GetMap_inv in Hm as [-> ->].
  rewrite Hid, Hflag in H.
  apply bind_inv in H as (u & s2 & Hpersist & H).
  apply walk_persistIfPopulated, walk_log_of in Hpersist as (evs2 & Hl2 & _).
  apply bind_inv in H as (pwd3 & s3 & Hchildren & H).
  assert (Hpwd3 : pwd3 = withTransitive pwd1 (transitiveDependencies pwd3)).
  { destruct (transitiveDependencies pwd1) eqn:Hch.
    - apply ret_inv in Hchildren as [<- _]. clear. by destruct pwd1.
    - by eapply populateTransitive_fields. }
  assert (Hg3 : exists evs3, log s3 = log s2 ++ evs3 /\ Forall processOk evs3).
  { apply walk_log_of. destruct (transitiveDependencies pwd1).
    - run_inv. apply walk_refl.
    - eapply walk_populateTransitive; [apply walk_PopulateModAndPublish | exact Hchildren]. }
  destruct Hg3 as (evs3 & Hl3 & _).
  assert (Hdep3 : Dependency pwd3 = Dependency pwd) by by rewrite Hpwd3.
  assert (Hrev3 : shouldRevertToEmptyMod pwd3 = true) by by rewrite Hpwd3.
  assert (Hman3 : revertedContent pwd3 = manifest) by by rewrite Hpwd3.
  unfold revertToOriginalMod in H. rewrite Hrev3 in H. simpl in H. rewrite Hman3 in H.
  clear Hpwd1 Hrev1 Hman Hchildren Hid Hflag Hpwd3 Hrev3 Hman3 Hdep.
  unfold writeModContentToModFile, writeModContentToGoCache,
    prepareAndPublish, Package_prepareAndPublish, removeWorkspace in *.
  split_and!; [| | | |intros node sa ra sb; apply createDependencyAndPrepareMod_snapshot].
  all: run_all; simpl; rewrite ?Hdep3; try done.
  all: exists (evs1 ++ evs2 ++ evs3); eexists _, _, _, _, _.
  all: rewrite Hl3, Hl2, Hl1, <- !app_assoc; simpl; reflexivity.
Qed.

(** *** The counters *)

(** Between [s] and [s'], successes and failures together grew by [k]
    more than totals did. *)
Definition bal (k : nat) (s s' : State Env) : Prop :=
  successes (cache s') + failures (cache s') + totals (cache s)
  = successes (cache s) + failures (cache s) + totals (cache s') + k.

Lemma bal_same s s' : cache s' = cache s -> bal 0 s s'.
Proof. unfold bal. intros ->. lia. Qed.

Lemma bal_trans k1 k2 s1 s2 s3 : bal k1 s1 s2 -> bal k2 s2 s3 -> bal (k1 + k2) s1 s3.
Proof. unfold bal. lia. Qed.

Lemma bal_extends s s' : extends s s' -> bal 0 s s'.
Proof. intros [_ Ht Hs Hf]. unfold bal. lia. Qed.

(** The fields the preparation of the manifest leaves alone. *)
Lemma createDependencyAndPrepareMod_fields pwd s r s' :
  createDependencyAndPrepareMod W pwd s = Ret r s' ->
  GetId (Dependency (fst (fst (fst r)))) = GetId (Dependency pwd) /\
  transitiveDependencies (fst (fst (fst r))) = transitiveDependencies pwd.
Proof.
  unfold createDependencyAndPrepareMod, getModPathAndUnzipDependency, getModPathInTemp,
    useCachedMod, prepareUnpublishedDependency, prepareAndRunInit, graphOf,
    writeModContentToModFile.
  intros H. run_all. all: done.
Qed.

(** Lines 48-55 and the counters. *)
Lemma refreshPublished_bal pwd targetRepo s pwd' s' :
  refreshPublished W pwd targetRepo s = Ret pwd' s' ->
  GetId (Dependency pwd') = GetId (Dependency pwd) /\
  transitiveDependencies pwd' = transitiveDependencies pwd /\
  depMap (cache s') = depMap (cache s) /\
  (if flagOf (depMap (cache s)) (GetId (Dependency pwd))
   then bal 0 s s' \/ bal 1 s s'
   else cache s' = cache s).
Proof.
  unfold refreshPublished, updateModContent. intros H.
  apply bind_inv in H as (m & s1 & Hm & H). apply GetMap_inv in Hm as [-> ->].
  destruct (flagOf _ _); [|by run_inv].
  run_all; simpl; repeat split; try done.
  all: unfold bal; simpl; first [left; lia | right; lia].
Qed.

Lemma prepareAndPublish_bal pwd targetRepo s err s' :
  prepareAndPublish W pwd targetRepo s = Ret err s' -> bal 1 s s'.
Proof.
  unfold prepareAndPublish, Package_prepareAndPublish. intros H.
  run_all; unfold bal; simpl; lia.
Qed.

(** A child the walk can take: it has no children of its own yet, and its
    ID is a key of the map. *)
Definition ready (s : State Env) (child : PackageWithDeps) : Prop :=
  transitiveDependencies child = [] /\
  is_Some (depMap (cache s) !! GetId (Dependency child)).

Lemma ready_walk s s' child : walk s s' -> ready s child -> ready s' child.
Proof. intros [Hm _ _ _] [? ?]. split; [done|]. by eapply writes_keep_key. Qed.

Lemma flagOf_false_Some (m : gmap string bool) k :
  is_Some (m !! k) -> flagOf m k = false -> m !! k = Some false.
Proof. unfold flagOf. intros [b ->]. simpl. by intros ->. Qed.

(** The IDs of a list of resolvers. *)
Definition idsOf (l : list PackageWithDeps) : list string :=
  map (fun child => GetId (Dependency child)) l.

Lemma setTransitiveDependencies_events pwd targetRepo graph (s : State Env) pwd' s' :
  setTransitiveDependencies W pwd targetRepo graph s = Ret pwd' s' ->
  exists evs, log s' = log s ++ evs /\ Forall (expansionEvent) evs.
Proof.
  unfold setTransitiveDependencies. intros H.
  apply bind_inv in H as (deps & s1 & Hfold & H). apply ret_inv in H as [_ <-].
  revert Hfold.
  apply (foldM_invariant _
           (fun _ s1 => exists evs, log s1 = log s ++ evs /\ Forall expansionEvent evs)).
  - intros b x s2 b' s2' _ (evs & Hl & Hev) Hstep.
    apply setTransitiveDependency_spec in Hstep as (evs' & Hl' & Hev' & _).
    exists (evs ++ evs'). rewrite Hl', Hl, app_assoc. split; [done | by apply Forall_app].
  - exists []. by rewrite app_nil_r.
Qed.

(** *** A package that is marked published *)

(** The outside calls of lines 226-233: the two on [go.sum], and those
    of the expansion between them. *)
Definition expandEvent (e : Event) : Prop :=
  match e with
  | EvGetSumContentAndRemove _ _ _ _ | EvRestoreSumFile _ _ _ _ => True
  | _ => expansionEvent e
  end.

Lemma expandGraph_events pwd path targetRepo graph s pwd' s' :
  expandGraph W pwd path targetRepo graph s = Ret pwd' s' ->
  exists evs, log s' = log s ++ evs /\ Forall expandEvent evs.
Proof.
  unfold expandGraph. destruct graph as [|edge graph]; intros H.
  - run_inv. exists []. by rewrite app_nil_r.
  - apply bind_inv in H as ([[content stat] e] & s1 & H1 & H).
    apply call_inv in H1 as (x1 & _ & ->).
    apply bind_inv in H as (pwd1 & s2 & H2 & H).
    apply setTransitiveDependencies_events in H2 as (evs & Hl2 & Hev). simpl in *.
    assert (Hev' : Forall expandEvent evs).
    { eapply Forall_impl; [exact Hev|]. by intros []. }
    destruct stat as [st|]; [destruct (String.eqb content "")|]; simpl in H; run_inv.
    + exists (EvGetSumContentAndRemove (filepath_Dir W path) content (Some st) e :: evs).
      rewrite Hl2, <- app_assoc. split; [done | by constructor].
    + exists (EvGetSumContentAndRemove (filepath_Dir W path) content (Some st) e
              :: evs ++ [EvRestoreSumFile (filepath_Dir W path) content st a]).
      rewrite Hl2, <- !app_assoc. split; [done|].
      constructor; [done|]. apply Forall_app. split; [done | by repeat constructor].
    + exists (EvGetSumContentAndRemove (filepath_Dir W path) content None e :: evs).
      rewrite Hl2, <- app_assoc. split; [done | by constructor].
Qed.

(** The calls the preparation makes for a package that is marked
    published: it unsets [GOPROXY], unpacks the archive, writes the mod
    file of the workspace, enters the workspace, removes [go.sum], runs
    tidy and asks for the graph.  It runs no init, it reads, removes and
    publishes nothing, and it writes no other file. *)
Definition publishedPrepEvent (path : string) (e : Event) : Prop :=
  match e with
  | EvUnsetenv _ _ | EvUnzip _ _ _ | EvChdir _ _ | EvRemoveGoSum _ _
  | EvTidy _ _ | EvGraph _ _ => True
  | EvWriteFile file _ _ => file = path
  | _ => False
  end.

(** Lines 104-142 for a package that is marked published: the manifest
    the package holds is written to the mod file of the workspace as it
    is; tidy is run exactly when that manifest is empty, and then only
    the graph is asked for. *)
Lemma createDependencyAndPrepareMod_published pwd s r s' :
  flagOf (depMap (cache s)) (GetId (Dependency pwd)) = true ->
  createDependencyAndPrepareMod W pwd s = Ret r s' ->
  exists evs, log s' = log s ++ evs /\
    Forall (publishedPrepEvent (snd (fst (fst r)))) evs /\
    Dependency (fst (fst (fst r))) = Dependency pwd /\
    (forall zip tempDir, EvUnzip zip tempDir ErrNil ∈ evs ->
       exists e1 rest,
         evs = [EvUnsetenv GOPROXY ErrNil; EvUnzip zip tempDir ErrNil;
                EvWriteFile (snd (fst (fst r))) (modContent (Dependency pwd)) e1] ++ rest /\
         if PatternMatched pwd (GetNotEmptyModRegex (regExp pwd))
         then countEv isTidy rest = 0
         else exists e2, rest = [EvTidy (snd (fst (fst r))) e2;
                                 EvGraph (snd (fst r)) (snd r)]).
Proof.
  intros Hflag.
  assert (Hpm : forall b re, PatternMatched (withRevert pwd b) re = PatternMatched pwd re)
    by reflexivity.
  unfold createDependencyAndPrepareMod, getModPathAndUnzipDependency, getModPathInTemp,
    useCachedMod, graphOf, writeModContentToModFile.
  intros H. apply bind_inv in H as ([path err] & s1 & H1 & H).
  simpl in H. change (regExp (withRevert pwd false)) with (regExp pwd) in H.
  rewrite !Hpm in H.
  assert (Hc : cache s1 = cache s).
  { assert (Hs : preserves same_cache (getModPathAndUnzipDependency W pwd ""))
      by auto with walk.
    exact (Hs _ _ _ H1). }
  unfold getModPathAndUnzipDependency, getModPathInTemp in H1.
  destruct (PatternMatched pwd (GetNotEmptyModRegex (regExp pwd))) eqn:Epat.
  - run_all; simplify_eq; simpl in *; try discriminate.
    all: eexists; split; [rewrite <- ?app_assoc; simpl; reflexivity |].
    all: split; [by repeat constructor|]; split; [done|].
    all: intros zip tempDir Hin.
    all: repeat match goal with x : (_ * _)%type |- _ => destruct x end; simpl in *.
    all: repeat match goal with E : is_nil _ = true |- _ => apply is_nil_true in E; subst end.
    all: try (apply elem_of_cons in Hin as [Hin|Hin]; [discriminate|];
              apply elem_of_cons in Hin as [Hin|Hin];
                [simplify_eq; eexists _, _; split; reflexivity|]).
    all: repeat (apply elem_of_cons in Hin as [Hin|Hin];
                 [try discriminate Hin; simplify_eq; simpl in *; congruence|]).
    all: by apply elem_of_nil in Hin.
  - destruct (is_nil err) eqn:Enil.
    + apply bind_inv in H as (m & s2 & Hm & H). apply GetMap_inv in Hm as [-> ->].
      rewrite Hc in H. change (Dependency (withRevert pwd false)) with (Dependency pwd) in H.
      rewrite Hflag in H. cbn [negb] in H.
      apply bind_inv in H as (po & s3 & Hpo & H).
      apply bind_inv in Hpo as (ew & s4 & Hw & Hpo).
      apply call_inv in Hw as (e' & Hw & ->). apply ret_inv in Hpo as [<- <-].
      cbn [fst snd] in H.
      change (regExp (withRevert pwd false)) with (regExp pwd) in H.
      rewrite !Hpm, Epat in H. cbn [negb] in H.
      run_all; simplify_eq; simpl in *; try discriminate.
      all: eexists; split; [rewrite <- ?app_assoc; simpl; reflexivity |].
      all: split; [by repeat constructor|]; split; [done|].
      all: intros zip tempDir Hin.
      all: repeat match goal with x : (_ * _)%type |- _ => destruct x end; simpl in *.
      all: repeat match goal with E : is_nil _ = true |- _ => apply is_nil_true in E; subst end.
      all: apply elem_of_cons in Hin as [Hin|Hin]; [discriminate|].
      all: apply elem_of_cons in Hin as [Hin|Hin];
        [simplify_eq; eexists _, _; split; first [reflexivity | by eexists]|].
      all: repeat (apply elem_of_cons in Hin as [Hin|Hin]; [discriminate|]).
      all: by apply elem_of_nil in Hin.
    + run_all; simplify_eq; simpl in *; try discriminate.
      all: eexists; split; [rewrite <- ?app_assoc; simpl; reflexivity |].
      all: split; [by repeat constructor|]; split; [done|].
      all: intros zip tempDir Hin.
      all: repeat match goal with x : (_ * _)%type |- _ => destruct x end; simpl in *.
      all: repeat (apply elem_of_cons in Hin as [Hin|Hin];
                   [try discriminate Hin; simplify_eq; simpl in *; congruence|]).
      all: by apply elem_of_nil in Hin.
Qed.

(** Lines 48-55 for a package that is marked published: the manifest is
    fetched from Artifactory into the local cache, and read from there
    into the package when a path came back. *)
Lemma refreshPublished_published pwd targetRepo s pwd' s' :
  flagOf (depMap (cache s)) (GetId (Dependency pwd)) = true ->
  refreshPublished W pwd targetRepo s = Ret pwd' s' ->
  exists m0 m1 cached refresh,
    strings.Split (GetId (Dependency pwd)) colon !! 0 = Some m0 /\
    strings.Split (GetId (Dependency pwd)) colon !! 1 = Some m1 /\
    log s' = log s ++ EvDownloadModFile (cachePath pwd) targetRepo m0 m1 cached :: refresh /\
    ((refresh = [] /\ cached = "" /\ pwd' = pwd) \/
     (exists content, refresh = [EvReadFile cached content ErrNil] /\
                      pwd' = setMod pwd content) \/
     (exists content msg, refresh = [EvReadFile cached content (Err msg)] /\ pwd' = pwd)).
Proof.
  intros Hflag. unfold refreshPublished, updateModContent. intros H.
  apply bind_inv in H as (m & s1 & Hm & H). apply GetMap_inv in Hm as [-> ->].
  rewrite Hflag in H.
  apply bind_inv in H as (m0 & s1 & H0 & H). apply index_inv in H0 as [H0 ->].
  apply bind_inv in H as (m1 & s1 & H1 & H). apply index_inv in H1 as [H1 ->].
  apply bind_inv in H as (cached & s1 & Hd & H). apply call_inv in Hd as (x1 & _ & ->).
  exists m0, m1, cached.
  destruct (decide (cached = "")) as [->|Hne].
  - run_inv. exists []. split_and!; [done..|]. by left.
  - apply bind_inv in H as ([pwd2 err2] & s2 & H2 & H). apply ret_inv in H as [<- <-].
    apply bind_inv in H2 as ([content err] & s3 & Hr & H2).
    apply call_inv in Hr as (x2 & _ & ->). simpl in H2.
    destruct err as [|msg]; run_inv; simplify_eq; simpl.
    + exists [EvReadFile cached content ErrNil]. rewrite <- app_assoc.
      split_and!; [done..|]. right. left. by exists content.
    + exists [EvReadFile cached content (Err msg)]. rewrite <- app_assoc.
      split_and!; [done..|]. right. right. by exists content, msg.
Qed.

(** A package that is marked published when the call reaches line 235
    is neither persisted, nor reverted, nor published: what is left of
    lines 226-261 is the expansion of the graph and the walk over the
    children. *)
Lemma publishAndPopulate_published rec pwd path targetRepo graph s :
  flagOf (depMap (cache s)) (GetId (Dependency pwd)) = true ->
  publishAndPopulate W rec pwd path targetRepo graph s
  = (let* pwd := expandGraph W pwd path targetRepo graph in
     match transitiveDependencies pwd with
     | [] => ret pwd
     | _ :: _ => populateTransitive rec pwd targetRepo
     end) s.
Proof.
  intros Hflag. unfold publishAndPopulate.
  apply bind_ext_on. intros pwd1 s1 Hexpand.
  pose proof (expandGraph_fields _ _ _ _ _ _ _ Hexpand) as Hpwd1.
  assert (Hid : GetId (Dependency pwd1) = GetId (Dependency pwd)) by by rewrite Hpwd1.
  apply extends_expandGraph in Hexpand.
  assert (Hflag1 : flagOf (depMap (cache s1)) (GetId (Dependency pwd1)) = true).
  { rewrite Hid. unfold flagOf in *.
    destruct (depMap (cache s) !! GetId (Dependency pwd)) as [b|] eqn:Hk; [|done].
    simpl in Hflag. subst b. by rewrite (extends_flag _ _ _ _ Hexpand Hk). }
  rewrite (bind_Ret GetMap _ s1 _ s1 eq_refl), Hflag1.
  rewrite (bind_Ret (persistIfPopulated W pwd1 true) _ s1 tt s1 eq_refl).
  unfold bind.
  destruct (match transitiveDependencies pwd1 with
            | [] => ret pwd1
            | _ :: _ => populateTransitive rec pwd1 targetRepo
            end s1) as [pwd2 s2| |]; reflexivity.
Qed.

(** Code that publishes nothing. *)
Definition unpublishing (s s' : State Env) : Prop :=
  exists evs, log s' = log s ++ evs /\ countEv isPublish evs = 0.

Lemma unpublishing_refl s : unpublishing s s.
Proof. exists []. by rewrite app_nil_r. Qed.

Lemma unpublishing_trans s1 s2 s3 :
  unpublishing s1 s2 -> unpublishing s2 s3 -> unpublishing s1 s3.
Proof.
  intros (evs1 & Hl1 & H1) (evs2 & Hl2 & H2). exists (evs1 ++ evs2).
  rewrite Hl2, Hl1, app_assoc, countEv_app. split; [done | lia].
Qed.

Lemma unpublishing_call {A} (f : Env -> Env * A) ev :
  (forall a, isPublish (ev a) = false) -> preserves unpublishing (call f ev).
Proof.
  intros Hev s a s' H. run_inv. exists [ev a]. split; [done|]. simpl. by rewrite Hev.
Qed.

Lemma unpublishing_note e : isPublish e = false -> preserves (Env:=Env) unpublishing (note e).
Proof. intros He s a s' H. run_inv. exists [e]. split; [done|]. simpl. by rewrite He. Qed.

Lemma unpublishing_updCache f : preserves (Env:=Env) unpublishing (updCache f).
Proof. intros s a s' H. run_inv. exists []. simpl. by rewrite app_nil_r. Qed.

Hint Extern 1 (preserves unpublishing (call _ _)) =>
  (apply unpublishing_call; intros; reflexivity) : walk.
Hint Extern 1 (preserves unpublishing (note _)) =>
  (apply unpublishing_note; reflexivity) : walk.
Hint Resolve unpublishing_updCache : walk.

Ltac unpubs :=
  unfold IncrementTotal, IncrementSuccess, IncrementFailures, mapStore;
  pres_with unpublishing_refl unpublishing_trans.

Lemma unpublishing_refreshPublished pwd targetRepo :
  preserves unpublishing (refreshPublished W pwd targetRepo).
Proof. unfold refreshPublished, updateModContent. unpubs. Qed.

Lemma unpublishing_createDependencyAndPrepareMod pwd :
  preserves unpublishing (createDependencyAndPrepareMod W pwd).
Proof.
  unfold createDependencyAndPrepareMod, getModPathAndUnzipDependency, getModPathInTemp,
    useCachedMod, prepareUnpublishedDependency, prepareAndRunInit, graphOf,
    writeModContentToModFile.
  unpubs.
Qed.

Lemma unpublishing_expandGraph pwd path targetRepo graph :
  preserves unpublishing (expandGraph W pwd path targetRepo graph).
Proof.
  intros s pwd' s' H. apply expandGraph_events in H as (evs & Hl & Hev).
  exists evs. split; [done|].
  clear Hl. induction Hev as [|e evs He _ IH]; simpl; [done|].
  rewrite IH. by destruct e.
Qed.

Lemma unpublishing_persistIfPopulated pwd published :
  preserves unpublishing (persistIfPopulated W pwd published).
Proof. unfold persistIfPopulated, writeModContentToGoCache. unpubs. Qed.

Lemma unpublishing_revertToOriginalMod pwd path published :
  preserves unpublishing (revertToOriginalMod W pwd path published).
Proof.
  unfold revertToOriginalMod, writeModContentToGoCache, writeModContentToModFile. unpubs.
Qed.

Lemma unpublishing_removeWorkspace path : preserves unpublishing (removeWorkspace W path).
Proof. unfold removeWorkspace. unpubs. Qed.

Lemma unpublishing_not_in evs pkg repo err :
  countEv isPublish evs = 0 -> EvPublish pkg repo err ∉ evs.
Proof.
  induction evs as [|e evs IH]; simpl; intros H Hin; [by apply elem_of_nil in Hin|].
  apply elem_of_cons in Hin as [<-|Hin]; [simpl in H; lia|].
  apply IH; [lia | done].
Qed.

(** Between [s] and [s'] no package was published that the map of [s]
    marks published. *)
Definition spares (s s' : State Env) : Prop :=
  walk s s' /\
  exists evs, log s' = log s ++ evs /\
    forall pkg repo err, EvPublish pkg repo err ∈ evs ->
      depMap (cache s) !! GetId pkg <> Some true.

Lemma spares_refl s : spares s s.
Proof.
  split; [apply walk_refl|]. exists []. rewrite app_nil_r. split; [done|].
  intros pkg repo err Hin. by apply elem_of_nil in Hin.
Qed.

Lemma spares_trans s1 s2 s3 : spares s1 s2 -> spares s2 s3 -> spares s1 s3.
Proof.
  intros [Hw1 (evs1 & Hl1 & H1)] [Hw2 (evs2 & Hl2 & H2)].
  split; [by eapply walk_trans|]. exists (evs1 ++ evs2).
  rewrite Hl2, Hl1, app_assoc. split; [done|].
  intros pkg repo err [Hin|Hin]%elem_of_app; [by eapply H1|].
  intros Htrue. apply (H2 _ _ _ Hin).
  destruct Hw1 as [Hm _ _ _]. by apply (writes_keep_true _ _ _ Hm).
Qed.

Lemma spares_of {A} (m : M Env A) :
  preserves walk m -> preserves unpublishing m -> preserves spares m.
Proof.
  intros Hw Hu s a s' H. split; [by eapply Hw|].
  destruct (Hu s a s' H) as (evs & Hl & Hz). exists evs. split; [done|].
  intros pkg repo err Hin. by apply unpublishing_not_in in Hin.
Qed.

Section Spared.
Variable rec : string -> PackageWithDeps -> M Env (PackageWithDeps * error).
Hypothesis rec_spares : forall targetRepo pwd, preserves spares (rec targetRepo pwd).

Lemma rec_spares_walk targetRepo pwd : preserves walk (rec targetRepo pwd).
Proof. intros s a s' H. by destruct (rec_spares _ _ _ _ _ H). Qed.

Lemma spares_populateChild targetRepo visited child :
  preserves spares (populateChild rec targetRepo visited child).
Proof.
  assert (Hskip : forall id, preserves (Env:=Env) spares
                               (IncrementSuccess ;; note (EvAlreadyHandled id))).
  { intros id. apply spares_of; [apply walk_skip | unpubs]. }
  unfold populateChild. pres_with spares_refl spares_trans.
Qed.

Lemma spares_populateTransitive pwd targetRepo :
  preserves spares (populateTransitive rec pwd targetRepo).
Proof.
  assert (Ht : forall n, preserves (Env:=Env) spares (IncrementTotal n)).
  { intros n. apply spares_of; [apply walk_IncrementTotal | unpubs]. }
  unfold populateTransitive. pres_with spares_refl spares_trans.
  apply (preserves_foldM _ spares_refl spares_trans). intros. apply spares_populateChild.
Qed.

Lemma spares_publishDependencyAndPopulateTransitive pwd path targetRepo graph :
  preserves spares (publishDependencyAndPopulateTransitive W rec pwd path targetRepo graph).
Proof.
  intros s r s' H.
  unfold publishDependencyAndPopulateTransitive, publishAndPopulate in H.
  apply bind_inv in H as (pwd4 & s4 & H & Hrm).
  apply bind_inv in H as (pwd1 & s1 & Hexpand & H).
  pose proof (expandGraph_fields _ _ _ _ _ _ _ Hexpand) as Hpwd1.
  assert (Hid : GetId (Dependency pwd1) = GetId (Dependency pwd)) by by rewrite Hpwd1.
  apply (spares_of _ (walk_expandGraph _ _ _ _) (unpublishing_expandGraph _ _ _ _))
    in Hexpand.
  apply bind_inv in H as (m & s1' & Hm & H). apply GetMap_inv in Hm as [-> ->].
  apply bind_inv in H as (u & s2 & Hpersist & H).
  apply (spares_of _ (walk_persistIfPopulated _ _) (unpublishing_persistIfPopulated _ _))
    in Hpersist.
  apply bind_inv in H as (pwd3 & s3 & Hchildren & H).
  assert (Hwalk : spares s2 s3 /\ Dependency pwd3 = Dependency pwd1).
  { destruct (transitiveDependencies pwd1).
    - apply ret_inv in Hchildren as [<- <-]. split; [apply spares_refl | done].
    - pose proof (populateTransitive_fields _ _ _ _ _ _ Hchildren) as ->.
      split; [by eapply spares_populateTransitive | done]. }
  destruct Hwalk as [Hwalk Hdep3].
  apply bind_inv in H as (pwd5 & s5 & Hrevert & H).
  assert (Hdep5 : GetId (Dependency pwd5) = GetId (Dependency pwd)).
  { rewrite <- Hid, <- Hdep3. revert Hrevert.
    unfold revertToOriginalMod, writeModContentToGoCache, writeModContentToModFile.
    intros Hrevert. run_all; done. }
  apply (spares_of _ (walk_revertToOriginalMod _ _ _)
           (unpublishing_revertToOriginalMod _ _ _)) in Hrevert.
  apply bind_inv in H as (u5 & s6 & Hpub & H). apply ret_inv in H as [<- <-].
  apply bind_inv in Hrm as (erm & s7 & Hrm & Hret). apply ret_inv in Hret as [_ <-].
  apply (spares_of _ (walk_removeWorkspace _) (unpublishing_removeWorkspace _)) in Hrm.
  assert (Hpre : spares s s5).
  { eapply spares_trans; [exact Hexpand|]. eapply spares_trans; [exact Hpersist|].
    eapply spares_trans; [exact Hwalk | exact Hrevert]. }
  refine (spares_trans _ _ _ _ Hrm).
  rewrite Hid in Hpub.
  destruct (flagOf (depMap (cache s1)) (GetId (Dependency pwd))) eqn:Hflag; simpl in Hpub.
  - by apply ret_inv in Hpub as [_ <-].
  - apply bind_inv in Hpub as (e & s8 & Hpub & Hret). apply ret_inv in Hret as [_ ->].
    pose proof (walk_prepareAndPublish _ _ _ _ _ Hpub) as Hw.
    destruct Hpre as [Hw5 (evs5 & Hl5 & H5)].
    split; [by eapply walk_trans|].
    assert (Hl : log s6 = log s5 ++ [EvPublish (Dependency pwd5) targetRepo e]).
    { unfold prepareAndPublish, Package_prepareAndPublish in Hpub. run_all.
      all: by repeat match goal with
                 | E : is_nil _ = true |- _ => apply is_nil_true in E as ->
                 end. }
    exists (evs5 ++ [EvPublish (Dependency pwd5) targetRepo e]).
    rewrite Hl, Hl5, app_assoc. split; [done|].
    intros pkg repo err [Hin|Hin]%elem_of_app; [by eapply H5|].
    apply list_elem_of_singleton in Hin. injection Hin as -> _ _.
    rewrite Hdep5. intros Htrue.
    destruct Hexpand as [[Hm _ _ _] _].
    apply (writes_keep_true _ _ _ Hm) in Htrue.
    unfold flagOf in Hflag. by rewrite Htrue in Hflag.
Qed.

Lemma spares_PopulateModAndPublish_body pwd targetRepo :
  preserves spares (PopulateModAndPublish_body W rec pwd targetRepo).
Proof.
  assert (Hstart : forall id, preserves (Env:=Env) spares (note (EvStart id))).
  { intros id. apply spares_of; [apply walk_note_start | unpubs]. }
  pose proof (fun pwd targetRepo =>
                spares_of _ (walk_refreshPublished pwd targetRepo)
                  (unpublishing_refreshPublished pwd targetRepo)) as Hrefresh.
  pose proof (fun pwd =>
                spares_of _ (walk_createDependencyAndPrepareMod pwd)
                  (unpublishing_createDependencyAndPrepareMod pwd)) as Hcreate.
  pose proof spares_publishDependencyAndPopulateTransitive.
  unfold PopulateModAndPublish_body. pres_with spares_refl spares_trans.
Qed.

End Spared.

Lemma spares_PopulateModAndPublish fuel targetRepo pwd :
  preserves spares (PopulateModAndPublish W fuel targetRepo pwd).
Proof.
  revert targetRepo pwd. induction fuel as [|fuel IH]; intros targetRepo pwd; simpl.
  - intros s r s' H. discriminate H.
  - by apply spares_PopulateModAndPublish_body.
Qed.

(** C3 (amended).  A child whose ID is marked published when the walk
    reaches it is skipped: the success counter goes up by one, the skip
    is logged, and no call is made, on the child or outside.  A whole
    call on a package that is itself marked published does this, and
    nothing else: it fetches the manifest from Artifactory into the local
    cache and reads it into the package ([refresh]); it prepares the
    workspace ([prep]) without init, writing the manifest the package
    then holds to the mod file of the workspace as it is, and running
    tidy exactly when that manifest is empty; it expands the graph
    ([expand]); it walks the children ([walked]); and it removes the
    workspace.  The resolver itself writes nothing to the local cache
    and reverts nothing: the package is left with the manifest of the
    refresh.  And in the whole call, with the calls on the children, no
    package is published that the map marked published when the call
    began. *)
Theorem published_package_not_republished fuel targetRepo pwd s :
  flagOf (depMap (cache s)) (GetId (Dependency pwd)) = true ->
  (forall rec visited,
     populateChild rec targetRepo visited pwd s
     = Ret (visited ++ [pwd])
         (mkState (addSuccess (cache s)) (env s)
            (log s ++ [EvAlreadyHandled (GetId (Dependency pwd))]))) /\
  (forall rec path graph,
     publishAndPopulate W rec pwd path targetRepo graph s
     = (let* pwd := expandGraph W pwd path targetRepo graph in
        match transitiveDependencies pwd with
        | [] => ret pwd
        | _ :: _ => populateTransitive rec pwd targetRepo
        end) s) /\
  (forall r s',
     PopulateModAndPublish W (S fuel) targetRepo pwd s = Ret r s' ->
     exists m0 m1 cached refresh pwd1 path prep graph err expand pwd3 s3 s4 walked e,
       strings.Split (GetId (Dependency pwd)) colon !! 0 = Some m0 /\
       strings.Split (GetId (Dependency pwd)) colon !! 1 = Some m1 /\
       log s' = log s ++
         [EvStart (GetId (Dependency pwd));
          EvDownloadModFile (cachePath pwd) targetRepo m0 m1 cached] ++
         refresh ++ prep ++ expand ++ walked ++ [EvRemoveAll (filepath_Dir W path) e] /\
       ((refresh = [] /\ cached = "" /\ pwd1 = pwd) \/
        (exists content, refresh = [EvReadFile cached content ErrNil] /\
                         pwd1 = setMod pwd content) \/
        (exists content msg, refresh = [EvReadFile cached content (Err msg)] /\ pwd1 = pwd)) /\
       Forall (publishedPrepEvent path) prep /\
       (forall zip tempDir, EvUnzip zip tempDir ErrNil ∈ prep ->
          exists e1 rest,
            prep = [EvUnsetenv GOPROXY ErrNil; EvUnzip zip tempDir ErrNil;
                    EvWriteFile path (modContent (Dependency pwd1)) e1] ++ rest /\
            if PatternMatched pwd1 (GetNotEmptyModRegex (regExp pwd1))
            then countEv isTidy rest = 0
            else exists e2, rest = [EvTidy path e2; EvGraph graph err]) /\
       Forall expandEvent expand /\
       log s4 = log s3 ++ walked /\
       match transitiveDependencies pwd3 with
       | [] => s4 = s3 /\ fst r = pwd3
       | _ :: _ =>
           populateTransitive (PopulateModAndPublish W fuel) pwd3 targetRepo s3
           = Ret (fst r) s4
       end /\
       Dependency (fst r) = Dependency pwd1 /\
       snd r = ErrNil /\
       (forall pkg repo err',
          EvPublish pkg repo err' ∈
            refresh ++ prep ++ expand ++ walked ++ [EvRemoveAll (filepath_Dir W path) e] ->
          depMap (cache s) !! GetId pkg <> Some true)).
Proof.
  intros Hflag. split_and!.
  - intros rec visited. unfold populateChild, bind, GetMap. by rewrite Hflag.
  - intros rec path graph. by apply publishAndPopulate_published.
  - intros r s' H.
    pose proof (spares_PopulateModAndPublish _ _ _ _ _ _ H) as [_ (evs & Hl & Hspared)].
    simpl in H. unfold PopulateModAndPublish_body in H.
    apply bind_inv in H as (u & s0 & H0 & H). apply note_inv in H0.
    assert (Hflag0 : flagOf (depMap (cache s0)) (GetId (Dependency pwd)) = true)
      by by subst s0.
    apply bind_inv in H as (pwd1 & s1 & H1 & H).
    pose proof (refreshPublished_bal _ _ _ _ _ H1) as (Hid1 & _ & Hm1 & _).
    apply (refreshPublished_published _ _ _ _ _ Hflag0) in H1
      as (m0 & m1 & cached & refresh & Hsplit0 & Hsplit1 & Hl1 & Hrefresh).
    assert (Hflag1 : flagOf (depMap (cache s1)) (GetId (Dependency pwd1)) = true)
      by by rewrite Hid1, Hm1.
    apply bind_inv in H as ([[[pwd2 path] graph] err] & s2 & H2 & H).
    pose proof (createDependencyAndPrepareMod_fields _ _ _ _ H2) as [Hid2 _].
    pose proof (same_cache_createDependencyAndPrepareMod _ _ _ _ H2) as Hc2.
    apply (createDependencyAndPrepareMod_published _ _ _ _ Hflag1) in H2
      as (prep & Hl2 & Hprep & Hdep2 & Hunzip).
    simpl in Hid2, Hprep, Hdep2, Hunzip.
    assert (Hflag2 : flagOf (depMap (cache s2)) (GetId (Dependency pwd2)) = true)
      by by rewrite Hid2, Hc2.
    apply bind_inv in H as (r3 & s5 & H3 & H). apply ret_inv in H as [<- <-].
    unfold publishDependencyAndPopulateTransitive in H3.
    apply bind_inv in H3 as (pwd4 & s4 & H3 & Hrm).
    rewrite (publishAndPopulate_published _ _ _ _ _ _ Hflag2) in H3.
    apply bind_inv in H3 as (pwd3 & s3 & Hexpand & Hwalk).
    pose proof (expandGraph_fields _ _ _ _ _ _ _ Hexpand) as Hpwd3.
    apply expandGraph_events in Hexpand as (expand & Hl3 & Hexpand).
    apply bind_inv in Hrm as (e & s6 & Hrm & Hret). apply ret_inv in Hret as [<- <-].
    unfold removeWorkspace in Hrm. apply call_inv in Hrm as (x6 & _ & ->).
    assert (Hw : exists walked, log s4 = log s3 ++ walked /\
                   Dependency pwd4 = Dependency pwd3).
    { destruct (transitiveDependencies pwd3).
      - apply ret_inv in Hwalk as [<- <-]. exists []. by rewrite app_nil_r.
      - pose proof (populateTransitive_fields _ _ _ _ _ _ Hwalk) as Hpwd4.
        apply walk_populateTransitive, walk_log_of in Hwalk as (walked & Hlw & _);
          [|apply walk_PopulateModAndPublish].
        exists walked. split; [done|]. by rewrite Hpwd4. }
    destruct Hw as (walked & Hl4 & Hdep4).
    assert (Hevs : evs = [EvStart (GetId (Dependency pwd));
                          EvDownloadModFile (cachePath pwd) targetRepo m0 m1 cached] ++
                         refresh ++ prep ++ expand ++ walked ++
                         [EvRemoveAll (filepath_Dir W path) e]).
    { apply (app_inv_head (log s)). rewrite <- Hl. simpl.
      rewrite Hl4, Hl3, Hl2, Hl1. subst s0. simpl. by rewrite <- !app_assoc. }
    exists m0, m1, cached, refresh, pwd1, path, prep, graph, err, expand, pwd3, s3, s4, walked, e.
    simpl. split_and!; try done.
    + rewrite Hevs in Hl. exact Hl.
    + destruct (transitiveDependencies pwd3); [by apply ret_inv in Hwalk as [<- <-]|done].
    + rewrite Hdep4, Hpwd3. simpl. done.
    + intros pkg repo err' Hin. apply (Hspared pkg repo err').
      rewrite Hevs. simpl. by do 2 right.
Qed.

Section Balance.
(** Package IDs are [name:version]. *)
Hypothesis idConvention :
  forall cachePath name version d,
    materialisedAs cachePath name version d -> GetId d = name +:+ ":" +:+ version.

Lemma expansion_ready pwd targetRepo s0 deps s :
  expansion pwd targetRepo s0 deps s -> Forall (ready s) deps.
Proof.
  intros (evs & _ & _ & Hdeps). eapply Forall_impl; [exact Hdeps|].
  intros child (m0 & m1 & found & d & -> & Hmat & Hk & _).
  split; [done|]. simpl. rewrite (idConvention _ _ _ _ Hmat).
  fold (edgeKey m0 m1). by rewrite Hk.
Qed.

Lemma expandGraph_ready pwd path targetRepo graph s pwd' s' :
  transitiveDependencies pwd = [] ->
  expandGraph W pwd path targetRepo graph s = Ret pwd' s' ->
  Forall (ready s') (transitiveDependencies pwd').
Proof.
  unfold expandGraph. intros Hfresh H. destruct graph as [|edge graph].
  - run_inv. rewrite Hfresh. constructor.
  - apply bind_inv in H as (r & s1 & _ & H).
    apply bind_inv in H as (pwd1 & s2 & H1 & H).
    apply expansion_setTransitiveDependencies in H1 as [_ H1].
    apply expansion_ready in H1.
    assert (Hw : cache s' = cache s2 /\ pwd' = pwd1)
      by (destruct (snd (fst r)); [destruct (negb _)|]; run_inv; done).
    destruct Hw as [Hw ->].
    eapply Forall_impl; [exact H1|]. intros child [? ?]. split; [done|]. by rewrite Hw.
Qed.

Section Node.
Variable rec : string -> PackageWithDeps -> M Env (PackageWithDeps * error).
Hypothesis rec_walk : forall targetRepo pwd, preserves walk (rec targetRepo pwd).
Hypothesis rec_child : forall targetRepo child s r s',
  transitiveDependencies child = [] ->
  depMap (cache s) !! GetId (Dependency child) = Some false ->
  rec targetRepo child s = Ret r s' -> bal 1 s s'.

Lemma populateChild_bal targetRepo visited child s u s' :
  ready s child -> populateChild rec targetRepo visited child s = Ret u s' -> bal 1 s s'.
Proof.
  intros [Hfresh Hkey]. unfold populateChild. intros H.
  apply bind_inv in H as (m & s1 & Hm & H). apply GetMap_inv in Hm as [-> ->].
  destruct (flagOf _ _) eqn:Hflag; simpl in H.
  - run_inv. unfold bal. simpl. lia.
  - apply bind_inv in H as (r & s1 & Hrec & H). run_inv.
    eapply rec_child; [done| |exact Hrec]. by apply flagOf_false_Some.
Qed.

Lemma populateChildren_bal targetRepo l visited s u s' :
  Forall (ready s) l ->
  foldM (populateChild rec targetRepo) l visited s = Ret u s' -> bal (length l) s s'.
Proof.
  revert visited s. induction l as [|child l IH]; simpl; intros visited s Hready H.
  - run_inv. by apply bal_same.
  - apply bind_inv in H as (visited1 & s1 & Hchild & H).
    apply Forall_cons in Hready as [Hc Hl].
    apply (bal_trans 1 (length l) s s1 s').
    + by eapply populateChild_bal.
    + apply (IH visited1); [|done]. eapply Forall_impl; [exact Hl|].
      intros c. apply ready_walk. by eapply walk_populateChild.
Qed.

Lemma populateTransitive_bal pwd targetRepo s u s' :
  Forall (ready s) (transitiveDependencies pwd) ->
  populateTransitive rec pwd targetRepo s = Ret u s' -> bal 0 s s'.
Proof.
  unfold populateTransitive. intros Hready H.
  apply bind_inv in H as ([] & s1 & Ht & H). apply updCache_inv in Ht. subst s1.
  apply bind_inv in H as (visited & s2 & H & Hret). apply ret_inv in Hret as [_ <-].
  apply populateChildren_bal in H; [|done]. revert H. unfold bal. simpl. lia.
Qed.

(** Lines 224-270 on a resolver without children of an earlier call. *)
Lemma publishDependencyAndPopulateTransitive_bal pwd path targetRepo graph s r s' :
  transitiveDependencies pwd = [] ->
  publishDependencyAndPopulateTransitive W rec pwd path targetRepo graph s = Ret r s' ->
  match depMap (cache s) !! GetId (Dependency pwd) with
  | Some true => bal 0 s s'
  | Some false => bal 1 s s'
  | None => bal 0 s s' \/ bal 1 s s'
  end.
Proof.
  intros Hfresh H.
  unfold publishDependencyAndPopulateTransitive, publishAndPopulate in H.
  apply bind_inv in H as (pwd4 & s4 & H & Hrm).
  apply bind_inv in H as (pwd1 & s1 & Hexpand & H).
  pose proof (expandGraph_fields _ _ _ _ _ _ _ Hexpand) as Hpwd1.
  assert (Hid : GetId (Dependency pwd1) = GetId (Dependency pwd)) by by rewrite Hpwd1.
  pose proof (expandGraph_ready _ _ _ _ _ _ _ Hfresh Hexpand) as Hready.
  apply extends_expandGraph in Hexpand.
  apply bind_inv in H as (m & s1' & Hm & H). apply GetMap_inv in Hm as [-> ->].
  apply bind_inv in H as (u & s2 & Hpersist & H).
  apply same_cache_persistIfPopulated in Hpersist.
  apply bind_inv in H as (u' & s3 & Hchildren & H).
  assert (Hb3 : bal 0 s2 s3).
  { destruct (transitiveDependencies pwd1) eqn:Hch.
    - run_inv. by apply bal_same.
    - eapply populateTransitive_bal; [|exact Hchildren]. rewrite Hch.
      eapply Forall_impl; [exact Hready|]. intros c [? ?]. split; [done|]. by rewrite Hpersist. }
  apply bind_inv in H as (pwd5 & s5 & Hrevert & H).
  apply same_cache_revertToOriginalMod in Hrevert.
  apply bind_inv in H as (u5 & s6 & Hpub & H). apply ret_inv in H as [_ <-].
  apply bind_inv in Hrm as (erm & s7 & Hrm & Hret). apply ret_inv in Hret as [_ ->].
  apply same_cache_removeWorkspace in Hrm.
  assert (Hpre : bal 0 s s5).
  { apply (bal_trans 0 0 s s1 s5); [by apply bal_extends|].
    apply (bal_trans 0 0 s1 s2 s5); [by apply bal_same|].
    apply (bal_trans 0 0 s2 s3 s5); [done | by apply bal_same]. }
  assert (Hpost : forall k, bal k s5 s6 -> bal k s s').
  { intros k Hk. apply (bal_trans 0 k s s5 s') in Hpre; [done|].
    revert Hk. unfold bal. by rewrite Hrm. }
  rewrite Hid in Hpub.
  destruct (depMap (cache s) !! GetId (Dependency pwd)) as [[|]|] eqn:Hk.
  - unfold flagOf in Hpub. rewrite (extends_flag _ _ _ _ Hexpand Hk) in Hpub.
    simpl in Hpub. run_inv. apply Hpost. by apply bal_same.
  - unfold flagOf in Hpub. rewrite (extends_flag _ _ _ _ Hexpand Hk) in Hpub.
    simpl in Hpub. apply bind_inv in Hpub as (e & s7 & Hpub & Hret). run_inv.
    apply Hpost. by eapply prepareAndPublish_bal.
  - destruct (flagOf _ _); simpl in Hpub.
    + run_inv. left. apply Hpost. by apply bal_same.
    + apply bind_inv in Hpub as (e & s7 & Hpub & Hret). run_inv.
      right. apply Hpost. by eapply prepareAndPublish_bal.
Qed.

Lemma PopulateModAndPublish_body_bal pwd targetRepo s r s' :
  transitiveDependencies pwd = [] ->
  PopulateModAndPublish_body W rec pwd targetRepo s = Ret r s' ->
  (bal 0 s s' \/ bal 1 s s') /\
  (depMap (cache s) !! GetId (Dependency pwd) = Some false -> bal 1 s s').
Proof.
  intros Hfresh H. unfold PopulateModAndPublish_body in H.
  apply bind_inv in H as (u & s0 & H0 & H). apply note_inv in H0.
  apply bind_inv in H as (pwd1 & s1 & H1 & H).
  apply refreshPublished_bal in H1 as (Hid1 & Hch1 & Hm1 & Hb1).
  apply bind_inv in H as ([[[pwd2 path] output] err2] & s2 & H2 & H).
  pose proof (createDependencyAndPrepareMod_fields _ _ _ _ H2) as [Hid2 Hch2].
  apply same_cache_createDependencyAndPrepareMod in H2.
  apply bind_inv in H as (r3 & s3 & H3 & H). apply ret_inv in H as [_ <-].
  apply publishDependencyAndPopulateTransitive_bal in H3; [|simpl in *; congruence].
  simpl in Hid2. rewrite Hid2, Hid1, H2, Hm1 in H3.
  subst s0. simpl in *.
  assert (Hb2 : forall k, bal k s2 s3 -> forall j, bal j s s1 -> bal (j + k) s s3).
  { intros k Hk j Hj. apply (bal_trans j k s s1 s3); [done|].
    revert Hk. unfold bal. by rewrite H2. }
  unfold flagOf in Hb1.
  destruct (depMap (cache s) !! GetId (Dependency pwd)) as [[|]|] eqn:Hk; simpl in Hb1.
  - split; [|done]. destruct Hb1 as [Hb1|Hb1].
    + left. apply (Hb2 0 H3 0). revert Hb1. unfold bal. simpl. lia.
    + right. apply (Hb2 0 H3 1). revert Hb1. unfold bal. simpl. lia.
  - assert (bal 1 s s3); [|auto].
    apply (Hb2 1 H3 0). unfold bal. rewrite Hb1. simpl. lia.
  - split; [|done]. destruct H3 as [H3|H3].
    + left. apply (Hb2 0 H3 0). unfold bal. rewrite Hb1. simpl. lia.
    + right. apply (Hb2 1 H3 0). unfold bal. rewrite Hb1. simpl. lia.
Qed.

End Node.

Lemma PopulateModAndPublish_bal fuel targetRepo pwd s r s' :
  transitiveDependencies pwd = [] ->
  PopulateModAndPublish W fuel targetRepo pwd s = Ret r s' ->
  (bal 0 s s' \/ bal 1 s s') /\
  (depMap (cache s) !! GetId (Dependency pwd) = Some false -> bal 1 s s').
Proof.
  revert targetRepo pwd s r s'.
  induction fuel as [|fuel IH]; intros targetRepo pwd s r s' Hfresh H; [discriminate|].
  simpl in H. eapply PopulateModAndPublish_body_bal; [| |done|exact H].
  - intros. apply walk_PopulateModAndPublish.
  - intros repo child s0 r0 s0' Hch Hk Hrun.
    by apply (IH repo child s0 r0 s0' Hch Hrun).
Qed.

End Balance.

(** *** What totals counts *)

(** Between [s] and [s'], totals grew by the number of children that were
    skipped or started, less [k]. *)
Definition visits (k : nat) (s s' : State Env) : Prop :=
  exists evs, log s' = log s ++ evs /\
    totals (cache s') + k = totals (cache s) + handled evs + countEv isStart evs.

Lemma visits_trans k1 k2 s1 s2 s3 :
  visits k1 s1 s2 -> visits k2 s2 s3 -> visits (k1 + k2) s1 s3.
Proof.
  intros (evs1 & Hl1 & H1) (evs2 & Hl2 & H2). exists (evs1 ++ evs2).
  rewrite Hl2, Hl1, app_assoc, handled_app, countEv_app. split; [done | lia].
Qed.

(** Code that neither starts nor skips a child, and leaves totals alone. *)
Definition quiet (s s' : State Env) : Prop := visits 0 s s'.

Lemma quiet_refl s : quiet s s.
Proof. exists []. rewrite app_nil_r. split; [done|]. unfold handled. simpl. lia. Qed.

Lemma quiet_trans s1 s2 s3 : quiet s1 s2 -> quiet s2 s3 -> quiet s1 s3.
Proof. apply (visits_trans 0 0). Qed.

Lemma quiet_call {A} (f : Env -> Env * A) ev :
  (forall a, isStart (ev a) = false /\ isAlreadyHandled (ev a) = false) ->
  preserves quiet (call f ev).
Proof.
  intros Hev s a s' H. run_inv. destruct (Hev a) as [Hs Hh].
  exists [ev a]. split; [done|]. unfold handled. simpl. rewrite Hs, Hh. lia.
Qed.

Lemma quiet_cache f :
  (forall c, totals (f c) = totals c) -> preserves (Env:=Env) quiet (updCache f).
Proof.
  intros Hf s a s' H. run_inv. exists []. simpl. rewrite app_nil_r, Hf.
  split; [done|]. unfold handled. simpl. lia.
Qed.

Hint Extern 1 (preserves quiet (call _ _)) =>
  (apply quiet_call; intros; split; reflexivity) : walk.
Hint Extern 1 (preserves quiet (updCache _)) =>
  (apply quiet_cache; intros; reflexivity) : walk.

Ltac quiets :=
  unfold IncrementSuccess, IncrementFailures, mapStore;
  pres_with quiet_refl quiet_trans.

Lemma quiet_refreshPublished pwd targetRepo : preserves quiet (refreshPublished W pwd targetRepo).
Proof. unfold refreshPublished, updateModContent. quiets. Qed.

Lemma quiet_createDependencyAndPrepareMod pwd :
  preserves quiet (createDependencyAndPrepareMod W pwd).
Proof.
  unfold createDependencyAndPrepareMod, getModPathAndUnzipDependency, getModPathInTemp,
    useCachedMod, prepareUnpublishedDependency, prepareAndRunInit, graphOf,
    writeModContentToModFile.
  quiets.
Qed.

Lemma quiet_setTransitiveDependency pwd targetRepo deps edge :
  preserves quiet (setTransitiveDependency W pwd targetRepo deps edge).
Proof.
  intros s deps' s' H.
  pose proof (extends_setTransitiveDependency _ _ _ _ _ _ _ H) as [_ Ht _ _].
  apply setTransitiveDependency_spec in H as (evs & Hl & Hev & _).
  exists evs. split; [done|].
  rewrite (expansionEvent_handled _ Hev), (expansionEvent_count isStart evs), Ht; [lia| |done].
  by intros [].
Qed.
Hint Resolve quiet_setTransitiveDependency : walk.

Lemma quiet_expandGraph pwd path targetRepo graph :
  preserves quiet (expandGraph W pwd path targetRepo graph).
Proof.
  assert (Hset : forall node, preserves quiet (setTransitiveDependencies W node targetRepo graph)).
  { intros node. unfold setTransitiveDependencies. quiets.
    apply (preserves_foldM _ quiet_refl quiet_trans). quiets. }
  unfold expandGraph. quiets.
Qed.

Lemma quiet_persistIfPopulated pwd published :
  preserves quiet (persistIfPopulated W pwd published).
Proof. unfold persistIfPopulated, writeModContentToGoCache. quiets. Qed.

Lemma quiet_revertToOriginalMod pwd path published :
  preserves quiet (revertToOriginalMod W pwd path published).
Proof.
  unfold revertToOriginalMod, writeModContentToGoCache, writeModContentToModFile. quiets.
Qed.

Lemma quiet_prepareAndPublish pwd targetRepo :
  preserves quiet (prepareAndPublish W pwd targetRepo).
Proof. unfold prepareAndPublish, Package_prepareAndPublish. quiets. Qed.

Lemma quiet_removeWorkspace path : preserves quiet (removeWorkspace W path).
Proof. unfold removeWorkspace. quiets. Qed.

Hint Resolve quiet_refreshPublished quiet_createDependencyAndPrepareMod quiet_expandGraph
  quiet_persistIfPopulated quiet_revertToOriginalMod quiet_prepareAndPublish
  quiet_removeWorkspace : walk.

Section Visits.
Variable rec : string -> PackageWithDeps -> M Env (PackageWithDeps * error).
Hypothesis rec_visits : forall targetRepo child, preserves (visits 1) (rec targetRepo child).

Lemma populateChild_visits targetRepo u child :
  preserves (visits 1) (populateChild rec targetRepo u child).
Proof.
  intros s a s' H. unfold populateChild in H.
  apply bind_inv in H as (m & s1 & Hm & H). apply GetMap_inv in Hm as [-> ->].
  destruct (negb _).
  - apply bind_inv in H as (r & s1 & Hrec & H). run_inv. by eapply rec_visits.
  - run_inv. eexists. split; [done|]. unfold handled. simpl. lia.
Qed.

Lemma populateChildren_visits targetRepo l visited s u s' :
  foldM (populateChild rec targetRepo) l visited s = Ret u s' -> visits (length l) s s'.
Proof.
  revert visited s. induction l as [|child l IH]; simpl; intros visited s H.
  - run_inv. apply quiet_refl.
  - apply bind_inv in H as (visited1 & s1 & Hchild & H).
    apply (visits_trans 1 (length l) s s1 s');
      [by eapply populateChild_visits | by apply (IH visited1)].
Qed.

Lemma populateTransitive_visits pwd targetRepo : preserves quiet (populateTransitive rec pwd targetRepo).
Proof.
  intros s u s' H. unfold populateTransitive in H.
  apply bind_inv in H as ([] & s1 & Ht & H). apply updCache_inv in Ht. subst s1.
  apply bind_inv in H as (visited & s2 & H & Hret). apply ret_inv in Hret as [_ <-].
  apply populateChildren_visits in H as (evs & Hl & H). exists evs. simpl in *.
  split; [done | lia].
Qed.

Lemma PopulateModAndPublish_body_visits pwd targetRepo :
  preserves (visits 1) (PopulateModAndPublish_body W rec pwd targetRepo).
Proof.
  intros s r s' H. unfold PopulateModAndPublish_body in H.
  apply bind_inv in H as (u & s0 & H0 & H). apply note_inv in H0. subst s0.
  assert (Hrest : quiet (mkState (cache s) (env s) (log s ++ [EvStart (GetId (Dependency pwd))])) s').
  { revert H. generalize (mkState (cache s) (env s) (log s ++ [EvStart (GetId (Dependency pwd))])).
    intros s0 H. revert s0 r s' H.
    change (preserves quiet
              (let* pwd0 := refreshPublished W pwd targetRepo in
               let* r := createDependencyAndPrepareMod W pwd0 in
               let '(pwd1, path, output, _) := r in
               let* r0 := publishDependencyAndPopulateTransitive W rec pwd1 path targetRepo output in
               ret (fst r0, ErrNil))).
    pose proof populateTransitive_visits.
    unfold publishDependencyAndPopulateTransitive, publishAndPopulate. quiets. }
  destruct Hrest as (evs & Hl & Hv). simpl in *.
  exists (EvStart (GetId (Dependency pwd)) :: evs). rewrite Hl, <- app_assoc. split; [done|].
  unfold handled in *. simpl. lia.
Qed.

End Visits.

Lemma PopulateModAndPublish_visits fuel targetRepo pwd :
  preserves (visits 1) (PopulateModAndPublish W fuel targetRepo pwd).
Proof.
  revert targetRepo pwd. induction fuel as [|fuel IH]; intros targetRepo pwd; simpl.
  - intros s r s' H. discriminate H.
  - by apply PopulateModAndPublish_body_visits.
Qed.

(** C8 (amended).  Over a run, totals grows by the number of children
    the walk reached: those it skipped and those it started (the root is
    started too, and is no child).  On a resolver that has no children
    yet, with package IDs of the form [name:version], successes and
    failures together grow by as much as totals, plus the root's own
    outcome [own] (its publish, or a refresh that could not be read),
    which is 0 or 1 and which totals never counts.  Every child that was
    skipped added one to successes: the skipped nodes are inside
    successes and are not added to the sum a second time. *)
Theorem counters_after_run fuel targetRepo pwd s r s' :
  (forall cachePath name version d,
     materialisedAs cachePath name version d -> GetId d = name +:+ ":" +:+ version) ->
  transitiveDependencies pwd = [] ->
  PopulateModAndPublish W fuel targetRepo pwd s = Ret r s' ->
  exists own evs,
    log s' = log s ++ evs /\
    totals (cache s') + 1 = totals (cache s) + handled evs + countEv isStart evs /\
    own <= 1 /\
    successes (cache s') + failures (cache s') + totals (cache s)
    = successes (cache s) + failures (cache s) + totals (cache s') + own /\
    successes (cache s) + handled evs <= successes (cache s').
Proof.
  intros Hid Hfresh H.
  pose proof (walk_PopulateModAndPublish _ _ _ _ _ _ H) as [_ _ _ (evs & Hl & _ & Hs)].
  pose proof (PopulateModAndPublish_visits _ _ _ _ _ _ H) as (evs' & Hl' & Hv).
  assert (evs' = evs) as -> by (apply (app_inv_head (log s)); congruence).
  destruct (PopulateModAndPublish_bal Hid _ _ _ _ _ _ Hfresh H) as [[Hb|Hb] _].
  - exists 0, evs. split_and!; [done | done | lia | exact Hb | done].
  - exists 1, evs. split_and!; [done | done | lia | exact Hb | done].
Qed.

(** *** Runs that return *)

Definition returns {A} (m : M Env A) (s : State Env) : Prop := exists a s', m s = Ret a s'.

(** A computation that returns from every state: no index can be out of
    range and nothing in it recurses. *)
Definition always {A} (m : M Env A) : Prop := forall s, returns m s.

Lemma returns_bind {A B} (m : M Env A) (k : A -> M Env B) s :
  returns m s -> (forall a s1, m s = Ret a s1 -> returns (k a) s1) -> returns (bind m k) s.
Proof.
  intros (a & s1 & Hm) Hk. unfold returns. rewrite (bind_Ret _ _ _ _ _ Hm).
  by apply Hk.
Qed.

Lemma always_ret {A} (a : A) : always (ret a).
Proof. intros s. by eexists _, _. Qed.

Lemma always_bind {A B} (m : M Env A) (k : A -> M Env B) :
  always m -> (forall a, always (k a)) -> always (bind m k).
Proof. intros Hm Hk s. apply returns_bind; [apply Hm | intros; apply Hk]. Qed.

Lemma always_call {A} (f : Env -> Env * A) ev : always (call f ev).
Proof. intros s. by eexists _, _. Qed.

Lemma always_note e : always (note e).
Proof. intros s. by eexists _, _. Qed.

Lemma always_updCache f : always (updCache f).
Proof. intros s. by eexists _, _. Qed.

Lemma always_GetMap : always GetMap.
Proof. intros s. by eexists _, _. Qed.

Lemma always_index {A} (l : list A) i : is_Some (l !! i) -> always (index l i).
Proof. intros [x Hx] s. unfold index. rewrite Hx. by eexists _, _. Qed.

Lemma always_foldM {A B} (f : B -> A -> M Env B) l :
  (forall b x, always (f b x)) -> forall b, always (foldM f l b).
Proof.
  intros Hf. induction l as [|x l IH]; intros b; simpl.
  - apply always_ret.
  - apply always_bind; auto.
Qed.

Hint Resolve always_ret always_call always_note always_updCache always_GetMap : walk.

Ltac tot :=
  unfold IncrementTotal, IncrementSuccess, IncrementFailures, mapStore;
  repeat first
    [ match goal with |- forall _, _ => intro end
    | solve [auto with walk]
    | apply always_bind
    | apply always_index
    | match goal with
      | |- always (if ?b then _ else _) => destruct b
      | |- always (match ?x with _ => _ end) => destruct x
      | |- always (let _ := _ in _) => cbv zeta
      end ].

(** [strings.Split] never yields an empty slice, and yields two pieces
    at least when the separator occurs. *)
Lemma Split_first s c : is_Some (strings.Split s c !! 0).
Proof.
  destruct s as [|d s]; simpl; [eauto|].
  destruct (Ascii.eqb d c); [eauto|]. destruct (strings.Split s c); eauto.
Qed.

Lemma Split_second a b c : is_Some (strings.Split (a +:+ String c b) c !! 1).
Proof.
  induction a as [|d a IH]; simpl.
  - rewrite Ascii.eqb_refl. simpl. apply Split_first.
  - destruct (Ascii.eqb d c).
    + simpl. apply Split_first.
    + destruct (strings.Split (a +:+ String c b) c) as [|x l]; [by destruct IH|done].
Qed.

Lemma Split_length s c : length (strings.Split s c) = S (strings.Count s c).
Proof.
  induction s as [|d s IH]; simpl; [done|].
  destruct (Ascii.eqb d c); simpl; [by rewrite IH|].
  destruct (strings.Split s c); simpl in *; lia.
Qed.

(** An ID with a version: [strings.Split(id, ":")[1]] is in range. *)
Definition hasVersion (id : string) : Prop := is_Some (strings.Split id colon !! 1).

Hint Resolve Split_first : walk.

Lemma always_writeModContentToModFile path content :
  always (writeModContentToModFile W path content).
Proof. unfold writeModContentToModFile. tot. Qed.
Hint Resolve always_writeModContentToModFile : walk.

Lemma always_createDependencyAndPrepareMod pwd : always (createDependencyAndPrepareMod W pwd).
Proof.
  unfold createDependencyAndPrepareMod, getModPathAndUnzipDependency, getModPathInTemp,
    useCachedMod, prepareUnpublishedDependency, prepareAndRunInit, graphOf.
  tot.
Qed.

Lemma always_writeModContentToGoCache pwd :
  hasVersion (GetId (Dependency pwd)) -> always (writeModContentToGoCache W pwd).
Proof. intros Hv. unfold writeModContentToGoCache. tot. Qed.
Hint Resolve always_writeModContentToGoCache : walk.

Lemma always_persistIfPopulated pwd published :
  hasVersion (GetId (Dependency pwd)) -> always (persistIfPopulated W pwd published).
Proof. intros Hv. unfold persistIfPopulated. tot. Qed.

Lemma always_revertToOriginalMod pwd path published :
  hasVersion (GetId (Dependency pwd)) -> always (revertToOriginalMod W pwd path published).
Proof. intros Hv. unfold revertToOriginalMod. tot. Qed.

Lemma always_prepareAndPublish pwd targetRepo : always (prepareAndPublish W pwd targetRepo).
Proof. unfold prepareAndPublish, Package_prepareAndPublish. tot. Qed.

Lemma always_refreshPublished pwd targetRepo :
  hasVersion (GetId (Dependency pwd)) -> always (refreshPublished W pwd targetRepo).
Proof. intros Hv. unfold refreshPublished, updateModContent. tot. Qed.

Lemma always_setTransitiveDependencies pwd targetRepo graph :
  always (setTransitiveDependencies W pwd targetRepo graph).
Proof.
  unfold setTransitiveDependencies. apply always_bind; [|tot].
  apply always_foldM. intros deps edge. unfold setTransitiveDependency, appendChild. tot.
Qed.
Hint Resolve always_setTransitiveDependencies : walk.

Lemma always_expandGraph pwd path targetRepo graph :
  always (expandGraph W pwd path targetRepo graph).
Proof. unfold expandGraph. tot. Qed.

Lemma always_removeWorkspace path : always (removeWorkspace W path).
Proof. unfold removeWorkspace. tot. Qed.

(** *** Well-formed resolvers and the depth of the walk *)

(** Every package of the tree has an ID with a version. *)
Fixpoint wellFormed (pwd : PackageWithDeps) : Prop :=
  match pwd with
  | mkPackageWithDeps d children _ _ _ _ _ _ _ =>
      hasVersion (GetId d) /\ foldr (fun child rest => wellFormed child /\ rest) True children
  end.

(** Height of the tree of children a resolver comes with. *)
Fixpoint depth (pwd : PackageWithDeps) : nat :=
  match pwd with
  | mkPackageWithDeps _ children _ _ _ _ _ _ _ =>
      S (foldr (fun child rest => Nat.max (depth child) rest) 0 children)
  end.

Lemma wellFormed_unfold pwd :
  wellFormed pwd <->
  hasVersion (GetId (Dependency pwd)) /\ Forall wellFormed (transitiveDependencies pwd).
Proof.
  destruct pwd as [d children ? ? ? ? ? ? ?]. simpl.
  assert (Hl : foldr (fun child rest => wellFormed child /\ rest) True children
               <-> Forall wellFormed children).
  { induction children as [|c l IH]; simpl.
    - split; [constructor | done].
    - rewrite Forall_cons. by rewrite IH. }
  by rewrite Hl.
Qed.

Lemma depth_child pwd child :
  child ∈ transitiveDependencies pwd -> depth child < depth pwd.
Proof.
  destruct pwd as [d children ? ? ? ? ? ? ?]. simpl.
  induction children as [|c l IH]; simpl; intros Hin.
  - by apply elem_of_nil in Hin.
  - apply elem_of_cons in Hin as [->|Hin]; [lia|]. specialize (IH Hin). lia.
Qed.

Lemma depth_pos pwd : 1 <= depth pwd.
Proof. destruct pwd. simpl. lia. Qed.

Lemma depth_children pwd pwd' :
  transitiveDependencies pwd' = transitiveDependencies pwd -> depth pwd' = depth pwd.
Proof. destruct pwd, pwd'. simpl. by intros ->. Qed.

(** *** Enough fuel *)

Section Termination.
(** Every edge [go mod graph] can print is one of [universe]. *)
Variable universe : list string.
Hypothesis graph_bounded : forall e e' graph err,
  runGoModGraph W e = (e', (graph, err)) -> forall edge, edge ∈ graph -> edge ∈ universe.
Hypothesis idConvention :
  forall cachePath name version d,
    materialisedAs cachePath name version d -> GetId d = name +:+ ":" +:+ version.

Definition edgeKeyOf (edge : string) : option string :=
  match strings.Split edge at_sign with
  | [m0; m1] => Some (edgeKey m0 m1)
  | _ => None
  end.

(** The keys the edges of [universe] can put into the map, and how many
    of them the map does not hold yet. *)
Definition keysOf (graph : list string) : gset string := list_to_set (omap edgeKeyOf graph).
Definition unseen (s : State Env) : nat := size (keysOf universe ∖ dom (depMap (cache s))).

Lemma unseen_walk s s' : walk s s' -> unseen s' <= unseen s.
Proof.
  intros [Hm _ _ _]. apply writes_dom in Hm. unfold unseen.
  apply subseteq_size. intros k. rewrite !elem_of_difference.
  intros [Hk Hnew]. split; [done|]. intros Hold. apply Hnew. by apply Hm.
Qed.

Lemma unseen_same s s' : cache s' = cache s -> unseen s' = unseen s.
Proof. unfold unseen. by intros ->. Qed.

Lemma unseen_fresh s s' edge m0 m1 found :
  edge ∈ universe -> strings.Split edge at_sign = [m0; m1] ->
  depMap (cache s) !! edgeKey m0 m1 = None ->
  cache s' = setFlag (edgeKey m0 m1) found (cache s) ->
  unseen s' < unseen s.
Proof.
  intros Hin Hsplit Hk Hc. unfold unseen. rewrite Hc. simpl.
  assert (Hkey : edgeKey m0 m1 ∈ keysOf universe).
  { unfold keysOf. apply elem_of_list_to_set, list_elem_of_omap.
    exists edge. split; [done|]. unfold edgeKeyOf. by rewrite Hsplit. }
  apply subset_size. rewrite dom_insert_L.
  apply not_elem_of_dom in Hk. split.
  - intros k. rewrite !elem_of_difference, elem_of_union. intros [? Hn]. split; [done|].
    intros ?. apply Hn. by right.
  - intros Hsub. specialize (Hsub (edgeKey m0 m1)).
    rewrite !elem_of_difference, elem_of_union, elem_of_singleton in Hsub.
    destruct Hsub as [_ Hn]; [done|]. apply Hn. by left.
Qed.

Lemma setTransitiveDependency_unseen pwd targetRepo deps edge s deps' s' :
  edge ∈ universe ->
  setTransitiveDependency W pwd targetRepo deps edge s = Ret deps' s' ->
  unseen s' + length deps' <= unseen s + length deps.
Proof.
  intros Hin H.
  apply setTransitiveDependency_spec in H as (evs & _ & _ & [[-> Hc]|Hnew]).
  - by rewrite (unseen_same _ _ Hc).
  - destruct Hnew as (m0 & m1 & found & d & Hsplit & Hk & -> & Hc & _).
    pose proof (unseen_fresh _ _ _ _ _ _ Hin Hsplit Hk Hc). rewrite length_app. simpl. lia.
Qed.

Lemma setTransitiveDependencies_unseen pwd targetRepo graph s pwd' s' :
  (forall edge, edge ∈ graph -> edge ∈ universe) ->
  setTransitiveDependencies W pwd targetRepo graph s = Ret pwd' s' ->
  unseen s' + length (transitiveDependencies pwd') <= unseen s.
Proof.
  unfold setTransitiveDependencies. intros Hin H.
  apply bind_inv in H as (deps & s1 & Hfold & H). run_inv. simpl.
  revert Hfold.
  apply (foldM_invariant _ (fun deps1 s1 => unseen s1 + length deps1 <= unseen s)).
  - intros b x s0 b' s0' Hx Hb Hstep.
    apply setTransitiveDependency_unseen in Hstep; [lia | auto].
  - simpl. lia.
Qed.

Lemma createDependencyAndPrepareMod_graph pwd s r s' :
  createDependencyAndPrepareMod W pwd s = Ret r s' ->
  forall edge, edge ∈ snd (fst r) -> edge ∈ universe.
Proof.
  unfold createDependencyAndPrepareMod. intros H.
  assert (Hg : forall node path sa ra sb,
             graphOf W node path sa = Ret ra sb ->
             forall edge, edge ∈ snd (fst ra) -> edge ∈ universe).
  { unfold graphOf. intros node path sa ra sb Hr. run_inv.
    repeat match goal with x : (_ * _)%type |- _ => destruct x end.
    simpl. by eapply graph_bounded. }
  apply bind_inv in H as (r1 & s1 & _ & H).
  destruct (is_nil (snd r1)).
  2:{ run_inv. simpl. intros edge Hin. by apply elem_of_nil in Hin. }
  cbv zeta in H. destruct (PatternMatched _ _).
  - apply bind_inv in H as (err & s2 & _ & H). destruct (is_nil err); [by eapply Hg|].
    run_inv. simpl. intros edge Hin. by apply elem_of_nil in Hin.
  - apply bind_inv in H as (m & s2 & _ & H).
    apply bind_inv in H as (po & s3 & _ & H).
    apply bind_inv in H as (pwd2 & s4 & _ & H). by eapply Hg.
Qed.

(** The children of a well-formed resolver after the expansion: well
    formed, and strictly closer to the end of the walk. *)
Lemma expandGraph_children pwd path targetRepo graph s pwd' s' :
  wellFormed pwd ->
  (forall edge, edge ∈ graph -> edge ∈ universe) ->
  expandGraph W pwd path targetRepo graph s = Ret pwd' s' ->
  forall child, child ∈ transitiveDependencies pwd' ->
    wellFormed child /\ depth child + unseen s' < depth pwd + unseen s.
Proof.
  intros Hwf Hin H child Hchild. unfold expandGraph in H.
  destruct graph as [|edge graph].
  - run_inv. apply wellFormed_unfold in Hwf as [_ Hwf].
    split; [by eapply Forall_forall in Hwf|]. apply depth_child in Hchild. lia.
  - apply bind_inv in H as (r & s1 & H1 & H). apply same_cache_call in H1.
    apply bind_inv in H as (pwd1 & s2 & H2 & H).
    assert (Hw : cache s' = cache s2 /\ pwd' = pwd1)
      by (destruct (snd (fst r)); [destruct (negb _)|]; run_inv; done).
    destruct Hw as [Hw ->].
    pose proof (setTransitiveDependencies_unseen _ _ _ _ _ _ Hin H2) as Hun.
    apply expansion_setTransitiveDependencies in H2 as [_ (evs & _ & _ & Hdeps)].
    rewrite (unseen_same _ _ Hw). rewrite (unseen_same _ _ H1) in Hun.
    assert (Hlen : 1 <= length (transitiveDependencies pwd1)).
    { destruct (transitiveDependencies pwd1); [by apply elem_of_nil in Hchild | simpl; lia]. }
    rewrite Forall_forall in Hdeps.
    destruct (Hdeps child Hchild) as (m0 & m1 & found & d & -> & Hmat & _).
    split.
    + simpl. split; [|done]. rewrite (idConvention _ _ _ _ Hmat). apply Split_second.
    + pose proof (depth_pos pwd). simpl. lia.
Qed.

Section Node.
Variable fuel : nat.
Variable rec : string -> PackageWithDeps -> M Env (PackageWithDeps * error).
Hypothesis rec_walk : forall targetRepo pwd, preserves walk (rec targetRepo pwd).
Hypothesis rec_returns : forall targetRepo child s,
  wellFormed child -> depth child + unseen s <= fuel -> returns (rec targetRepo child) s.

Lemma populateChildren_returns targetRepo l visited s :
  (forall child, child ∈ l -> wellFormed child /\ depth child + unseen s <= fuel) ->
  returns (foldM (populateChild rec targetRepo) l visited) s.
Proof.
  revert visited s. induction l as [|child l IH]; simpl; intros visited s Hl.
  - apply always_ret.
  - apply returns_bind.
    + unfold populateChild. apply returns_bind; [apply always_GetMap|].
      intros m s1 [-> ->]%GetMap_inv. destruct (negb _).
      * destruct (Hl child) as [Hwf Hd]; [by left|].
        destruct (rec_returns targetRepo child s Hwf Hd) as (r & s2 & Hr).
        eexists _, s2. by rewrite (bind_Ret _ _ _ _ _ Hr).
      * by eexists _, _.
    + intros visited1 s1 Hstep. apply IH. intros c Hc.
      destruct (Hl c) as [Hwf Hd]; [by right|]. split; [done|].
      apply walk_populateChild, unseen_walk in Hstep; [lia | done].
Qed.

Lemma PopulateModAndPublish_body_returns pwd targetRepo s :
  wellFormed pwd -> depth pwd + unseen s <= S fuel ->
  returns (PopulateModAndPublish_body W rec pwd targetRepo) s.
Proof.
  intros Hwf Hfuel. unfold PopulateModAndPublish_body.
  pose proof Hwf as [Hv Hch]%wellFormed_unfold.
  apply returns_bind; [apply always_note|]. intros u s0 H0. apply note_inv in H0.
  assert (Hc0 : cache s0 = cache s) by by subst s0.
  apply returns_bind; [by apply always_refreshPublished|]. intros pwd1 s1 H1.
  apply refreshPublished_bal in H1 as (Hid1 & Hch1 & Hm1 & _).
  apply returns_bind; [apply always_createDependencyAndPrepareMod|].
  intros [[[pwd2 path] output] err2] s2 H2.
  pose proof (createDependencyAndPrepareMod_fields _ _ _ _ H2) as [Hid2 Hch2].
  pose proof (createDependencyAndPrepareMod_graph _ _ _ _ H2) as Hgraph.
  apply same_cache_createDependencyAndPrepareMod in H2. simpl in Hid2, Hch2, Hgraph.
  assert (Hv2 : hasVersion (GetId (Dependency pwd2))) by by rewrite Hid2, Hid1.
  assert (Hwf2 : wellFormed pwd2).
  { apply wellFormed_unfold. split; [done|]. by rewrite Hch2, Hch1. }
  assert (Hfuel2 : depth pwd2 + unseen s2 <= S fuel).
  { rewrite (depth_children pwd pwd2) by by rewrite Hch2, Hch1.
    unfold unseen in *. by rewrite H2, Hm1, Hc0. }
  apply returns_bind; [|intros; apply always_ret].
  unfold publishDependencyAndPopulateTransitive.
  apply returns_bind;
    [|intros; apply always_bind; [apply always_removeWorkspace | intros; apply always_ret]].
  unfold publishAndPopulate.
  apply returns_bind; [apply always_expandGraph|]. intros pwd3 s3 H3.
  pose proof (expandGraph_children _ _ _ _ _ _ _ Hwf2 Hgraph H3) as Hchildren.
  pose proof (expandGraph_fields _ _ _ _ _ _ _ H3) as Hpwd3.
  assert (Hv3 : hasVersion (GetId (Dependency pwd3))) by by rewrite Hpwd3.
  apply returns_bind; [apply always_GetMap|]. intros m s3' [-> ->]%GetMap_inv.
  apply returns_bind; [by apply always_persistIfPopulated|]. intros u4 s4 H4.
  apply same_cache_persistIfPopulated in H4.
  apply returns_bind.
  - destruct (transitiveDependencies pwd3) as [|c l] eqn:Hl; [apply always_ret|].
    unfold populateTransitive. rewrite Hl.
    apply returns_bind; [apply always_updCache|]. intros u5 s5 H5.
    apply updCache_inv in H5.
    apply returns_bind; [|intros; apply always_ret].
    apply populateChildren_returns. intros child Hchild.
    destruct (Hchildren child Hchild) as [Hwfc Hdc]. split; [done|].
    assert (Hun : unseen s5 = unseen s3) by (subst s5; unfold unseen; simpl; by rewrite H4).
    lia.
  - intros pwd6 s6 H6.
    assert (Hv6 : hasVersion (GetId (Dependency pwd6))).
    { destruct (transitiveDependencies pwd3).
      - by apply ret_inv in H6 as [<- _].
      - by rewrite (populateTransitive_fields _ _ _ _ _ _ H6). }
    apply always_bind; [by apply always_revertToOriginalMod|]. intros pwd7.
    apply always_bind; [|intros; apply always_ret].
    destruct (negb _); [|apply always_ret].
    apply always_bind; [apply always_prepareAndPublish | intros; apply always_ret].
Qed.

End Node.

Lemma PopulateModAndPublish_returns fuel targetRepo pwd s :
  wellFormed pwd -> depth pwd + unseen s <= fuel ->
  returns (PopulateModAndPublish W fuel targetRepo pwd) s.
Proof.
  revert targetRepo pwd s.
  induction fuel as [|fuel IH]; intros targetRepo pwd s Hwf Hfuel.
  - pose proof (depth_pos pwd). lia.
  - simpl. apply PopulateModAndPublish_body_returns with (fuel := fuel); auto.
    intros. apply walk_PopulateModAndPublish.
Qed.

(** C7.  A call on a well-formed resolver returns, with a nil error,
    as soon as the fuel covers the depth of the walk: the height of the
    children the resolver comes with, plus the number of keys that the
    edges of the graphs can still add to the map.  No run, with any
    fuel, returns another error.  Removing the workspace comes last, and
    whatever it returns, the result is the resolver with a nil error, and
    the cache is the one [publishAndPopulate] left. *)
Theorem PopulateModAndPublish_returns_nil targetRepo pwd s :
  wellFormed pwd ->
  (forall fuel, depth pwd + unseen s <= fuel ->
     exists pwd' s', PopulateModAndPublish W fuel targetRepo pwd s = Ret (pwd', ErrNil) s') /\
  (forall fuel r s', PopulateModAndPublish W fuel targetRepo pwd s = Ret r s' -> snd r = ErrNil) /\
  (forall rec node path graph s0 r s1,
     publishDependencyAndPopulateTransitive W rec node path targetRepo graph s0 = Ret r s1 ->
     exists node' before e,
       publishAndPopulate W rec node path targetRepo graph s0 = Ret node' before /\
       r = (node', ErrNil) /\
       cache s1 = cache before /\
       log s1 = log before ++ [EvRemoveAll (filepath_Dir W path) e]).
Proof.
  intros Hwf.
  assert (Hnil : forall fuel r s',
             PopulateModAndPublish W fuel targetRepo pwd s = Ret r s' -> snd r = ErrNil).
  { intros [|fuel] r s' H; [discriminate|]. simpl in H.
    unfold PopulateModAndPublish_body in H.
    apply bind_inv in H as (u & s0 & _ & H).
    apply bind_inv in H as (pwd1 & s1 & _ & H).
    apply bind_inv in H as ([[[pwd2 path] output] err2] & s2 & _ & H).
    apply bind_inv in H as (r3 & s3 & _ & H). by apply ret_inv in H as [<- _]. }
  split_and!; [|done|].
  - intros fuel Hfuel.
    destruct (PopulateModAndPublish_returns fuel targetRepo pwd s Hwf Hfuel) as ([pwd' err] & s' & H).
    pose proof (Hnil _ _ _ H) as Herr. simpl in Herr. subst err. eauto.
  - intros rec node path graph s0 r s1 H.
    unfold publishDependencyAndPopulateTransitive, removeWorkspace in H.
    apply bind_inv in H as (node' & before & Hbody & H).
    apply bind_inv in H as (e & s2 & Hrm & H).
    apply call_inv in Hrm as (e' & _ & ->). apply ret_inv in H as [<- <-].
    by exists node', before, e.
Qed.

End Termination.

(** *** A refresh that cannot be read *)

Lemma PopulateModAndPublish_starts fuel targetRepo pwd s r s' :
  PopulateModAndPublish W fuel targetRepo pwd s = Ret r s' ->
  exists rest, log s' = log s ++ EvStart (GetId (Dependency pwd)) :: rest.
Proof.
  intros H. destruct fuel as [|fuel]; [discriminate|]. simpl in H.
  unfold PopulateModAndPublish_body in H.
  apply bind_inv in H as (u & s0 & H0 & H). apply note_inv in H0.
  assert (Hp : preserves walk
                 (let* pwd0 := refreshPublished W pwd targetRepo in
                  let* r := createDependencyAndPrepareMod W pwd0 in
                  let '(pwd1, path, output, _) := r in
                  let* r0 := publishDependencyAndPopulateTransitive W
                               (PopulateModAndPublish W fuel) pwd1 path targetRepo output in
                  ret (fst r0, ErrNil))).
  { pose proof (walk_publishDependencyAndPopulateTransitive _
                  (walk_PopulateModAndPublish fuel)).
    walks. }
  pose proof (Hp s0 r s' H) as Hw.
  apply walk_log_of in Hw as (rest & Hl & _). exists rest.
  rewrite Hl. subst s0. simpl. by rewrite <- app_assoc.
Qed.

Lemma PopulateModAndPublish_id fuel targetRepo pwd s r s' :
  PopulateModAndPublish W fuel targetRepo pwd s = Ret r s' ->
  GetId (Dependency (fst r)) = GetId (Dependency pwd).
Proof.
  intros H. destruct fuel as [|fuel]; [discriminate|]. simpl in H.
  unfold PopulateModAndPublish_body in H.
  apply bind_inv in H as (u & s0 & _ & H).
  apply bind_inv in H as (pwd1 & s1 & H1 & H).
  apply refreshPublished_bal in H1 as (Hid1 & _).
  apply bind_inv in H as ([[[pwd2 path] output] err2] & s2 & H2 & H).
  apply createDependencyAndPrepareMod_fields in H2 as [Hid2 _]. simpl in Hid2.
  apply bind_inv in H as (r3 & s3 & H3 & H). apply ret_inv in H as [<- _]. simpl.
  rewrite <- Hid1, <- Hid2.
  unfold publishDependencyAndPopulateTransitive, publishAndPopulate in H3.
  apply bind_inv in H3 as (pwd4 & s4 & H3 & Hrm).
  apply bind_inv in Hrm as (e & s5 & _ & Hret). apply ret_inv in Hret as [<- _]. simpl.
  apply bind_inv in H3 as (pwd5 & s5' & Hexpand & H3).
  apply expandGraph_fields in Hexpand.
  apply bind_inv in H3 as (m & s6 & _ & H3).
  apply bind_inv in H3 as (u6 & s7 & _ & H3).
  apply bind_inv in H3 as (pwd7 & s8 & Hwalked & H3).
  assert (Hid7 : GetId (Dependency pwd7) = GetId (Dependency pwd2)).
  { destruct (transitiveDependencies pwd5).
    - apply ret_inv in Hwalked as [<- _]. by rewrite Hexpand.
    - rewrite (populateTransitive_fields _ _ _ _ _ _ Hwalked). simpl. by rewrite Hexpand. }
  apply bind_inv in H3 as (pwd9 & s9 & Hrevert & H3).
  apply bind_inv in H3 as (u9 & s10 & _ & H3). apply ret_inv in H3 as [<- _].
  rewrite <- Hid7. revert Hrevert.
  unfold revertToOriginalMod, writeModContentToGoCache, writeModContentToModFile.
  intros Hrevert. run_all; done.
Qed.

(** The walk has been at [child]: it started a call on it, or skipped
    it as already handled. *)
Definition visitedIn (evs : list Event) (child : PackageWithDeps) : Prop :=
  EvStart (GetId (Dependency child)) ∈ evs \/
  EvAlreadyHandled (GetId (Dependency child)) ∈ evs.

Lemma populateChildren_visited fuel targetRepo l :
  forall visited s visited' s',
    foldM (populateChild (PopulateModAndPublish W fuel) targetRepo) l visited s
    = Ret visited' s' ->
    exists evs, log s' = log s ++ evs /\ Forall (visitedIn evs) l /\
      idsOf visited' = idsOf visited ++ idsOf l.
Proof.
  induction l as [|child l IH]; simpl; intros visited s visited' s' H.
  - run_inv. exists []. rewrite !app_nil_r. by split_and!.
  - apply bind_inv in H as (visited1 & s1 & Hchild & H).
    apply IH in H as (evs2 & Hl2 & Hall & Hids).
    assert (Hstep : exists evs1, log s1 = log s ++ evs1 /\ visitedIn evs1 child /\
                      idsOf visited1 = idsOf visited ++ [GetId (Dependency child)]).
    { unfold populateChild in Hchild.
      apply bind_inv in Hchild as (m & s0 & Hm & Hchild). apply GetMap_inv in Hm as [-> ->].
      destruct (negb _).
      - apply bind_inv in Hchild as (r & s2 & Hrec & Hret). apply ret_inv in Hret as [<- <-].
        pose proof (PopulateModAndPublish_id _ _ _ _ _ _ Hrec) as Hid.
        apply PopulateModAndPublish_starts in Hrec as (rest & Hl).
        eexists. split; [exact Hl|]. split; [left; by left|].
        unfold idsOf. rewrite map_app. simpl. by rewrite Hid.
      - run_inv. eexists. split; [reflexivity|]. split; [right; by left|].
        unfold idsOf. by rewrite map_app. }
    destruct Hstep as (evs1 & Hl1 & Hv & Hids1).
    exists (evs1 ++ evs2). rewrite Hl2, Hl1, app_assoc. split; [done|]. split.
    + constructor.
      * destruct Hv as [Hv|Hv]; [left | right]; apply elem_of_app; by left.
      * eapply Forall_impl; [exact Hall|].
        intros c [Hc|Hc]; [left | right]; apply elem_of_app; by right.
    + rewrite Hids, Hids1, <- app_assoc. done.
Qed.

(** Lines 338-350: every child is visited, in turn, and totals counts
    them all before the first is. *)
Lemma populateTransitive_visited fuel pwd targetRepo s pwd' s' :
  populateTransitive (PopulateModAndPublish W fuel) pwd targetRepo s = Ret pwd' s' ->
  exists evs, log s' = log s ++ evs /\
    Forall (visitedIn evs) (transitiveDependencies pwd) /\
    idsOf (transitiveDependencies pwd') = idsOf (transitiveDependencies pwd) /\
    totals (cache s) + length (transitiveDependencies pwd) <= totals (cache s').
Proof.
  unfold populateTransitive. intros H.
  apply bind_inv in H as ([] & s1 & Ht & H). apply updCache_inv in Ht.
  apply bind_inv in H as (visited & s2 & H & Hret). apply ret_inv in Hret as [<- <-].
  assert (Hw : walk s1 s2).
  { revert H. apply (preserves_foldM _ walk_refl walk_trans).
    intros. apply walk_populateChild. apply walk_PopulateModAndPublish. }
  destruct Hw as [_ Ht1 _ _].
  apply populateChildren_visited in H as (evs & Hl & Hall & Hids).
  exists evs. subst s1. simpl in *. split_and!; [done | done | done | lia].
Qed.

(** C9.  A package that is marked published, whose refreshed manifest
    cannot be read: the failure counter goes up by one, the package keeps
    the content it had, and the call goes on from there as any other.
    When it returns, it returns nil; the failure is still counted; it has
    run the preparation (unsetting [GOPROXY], unpacking, the graph) from
    the state the failed read left, has expanded the graph that came
    back, and has walked the children: every one of them was started or
    was skipped as already handled, after totals had counted them, and
    the removal of the workspace came last.  And it does return, with
    nil, on a well-formed resolver, once the fuel covers the depth of
    the walk. *)
Theorem unreadable_refresh_counts_and_continues
    fuel targetRepo pwd s m0 m1 e1 path e2 content msg :
  flagOf (depMap (cache s)) (GetId (Dependency pwd)) = true ->
  strings.Split (GetId (Dependency pwd)) colon !! 0 = Some m0 ->
  strings.Split (GetId (Dependency pwd)) colon !! 1 = Some m1 ->
  downloadModFileFromArtifactoryToLocalCache W (cachePath pwd) targetRepo m0 m1 (env s)
  = (e1, path) ->
  path <> "" ->
  ReadFile W path e1 = (e2, (content, Err msg)) ->
  let s1 := mkState (addFailure (cache s)) e2
              (log s ++ [EvStart (GetId (Dependency pwd));
                         EvDownloadModFile (cachePath pwd) targetRepo m0 m1 path;
                         EvReadFile path content (Err msg)]) in
  PopulateModAndPublish W (S fuel) targetRepo pwd s
  = (let* r := createDependencyAndPrepareMod W pwd in
     let '(pwd, path, output, _) := r in
     let* r := publishDependencyAndPopulateTransitive W (PopulateModAndPublish W fuel)
                 pwd path targetRepo output in
     ret (fst r, ErrNil)) s1 /\
  (forall r s',
     PopulateModAndPublish W (S fuel) targetRepo pwd s = Ret r s' ->
     snd r = ErrNil /\
     failures (cache s) + 1 <= failures (cache s') /\
     exists r1 s2 err rest pwd3 s3 walked e,
       createDependencyAndPrepareMod W pwd s1 = Ret r1 s2 /\
       log s2 = log s1 ++ EvUnsetenv GOPROXY err :: rest /\
       expandGraph W (fst (fst (fst r1))) (snd (fst (fst r1))) targetRepo (snd (fst r1)) s2
       = Ret pwd3 s3 /\
       log s' = log s3 ++ walked ++ [EvRemoveAll (filepath_Dir W (snd (fst (fst r1)))) e] /\
       Forall (visitedIn walked) (transitiveDependencies pwd3) /\
       idsOf (transitiveDependencies (fst r)) = idsOf (transitiveDependencies pwd3) /\
       totals (cache s) + length (transitiveDependencies pwd3) <= totals (cache s')) /\
  (forall universe,
     (forall e e' graph err,
        runGoModGraph W e = (e', (graph, err)) ->
        forall edge, edge ∈ graph -> edge ∈ universe) ->
     (forall cachePath name version d,
        materialisedAs cachePath name version d -> GetId d = name +:+ ":" +:+ version) ->
     wellFormed pwd ->
     depth pwd + unseen universe s <= S fuel ->
     exists pwd' s', PopulateModAndPublish W (S fuel) targetRepo pwd s = Ret (pwd', ErrNil) s').
Proof.
  intros Hflag H0 H1 Hdl Hpath Hread s1.
  assert (Hnil : forall r s',
             PopulateModAndPublish W (S fuel) targetRepo pwd s = Ret r s' -> snd r = ErrNil).
  { intros r s' H. simpl in H. unfold PopulateModAndPublish_body in H.
    apply bind_inv in H as (u & sa & _ & H).
    apply bind_inv in H as (pwda & sb & _ & H).
    apply bind_inv in H as ([[[pwdb pathb] output] errb] & sc & _ & H).
    apply bind_inv in H as (r3 & sd & _ & H). by apply ret_inv in H as [<- _]. }
  assert (Heq : PopulateModAndPublish W (S fuel) targetRepo pwd s
                = (let* r := createDependencyAndPrepareMod W pwd in
                   let '(pwd, path, output, _) := r in
                   let* r := publishDependencyAndPopulateTransitive W
                               (PopulateModAndPublish W fuel) pwd path targetRepo output in
                   ret (fst r, ErrNil)) s1).
  { simpl. unfold PopulateModAndPublish_body.
    unfold bind at 1. unfold note.
    assert (Hrefresh :
      refreshPublished W pwd targetRepo
        (mkState (cache s) (env s) (log s ++ [EvStart (GetId (Dependency pwd))]))
      = Ret pwd s1).
    { unfold refreshPublished, updateModContent, bind, GetMap, index, call, ret,
        IncrementFailures, updCache. simpl.
      rewrite Hflag, H0. simpl. rewrite H1. simpl. rewrite Hdl. simpl.
      destruct (decide (path = "")) as [?|_]; [done|].
      cbn [env cache log]. rewrite Hread. simpl. unfold s1. by rewrite <- !app_assoc. }
    by rewrite (bind_Ret _ _ _ _ _ Hrefresh). }
  split_and!; [exact Heq | |].
  - intros r s' H. split; [by eapply Hnil|].
    rewrite Heq in H.
    apply bind_inv in H as ([[[pwd2 path2] output] err2] & s2 & H2 & H).
    pose proof (createDependencyAndPrepareMod_fields _ _ _ _ H2) as [Hid2 _].
    pose proof (same_cache_createDependencyAndPrepareMod _ _ _ _ H2) as Hc2.
    pose proof (createDependencyAndPrepareMod_log _ _ _ _ H2) as (err & rest & Hl2).
    simpl in Hid2.
    assert (Hflag2 : flagOf (depMap (cache s2)) (GetId (Dependency pwd2)) = true)
      by by rewrite Hid2, Hc2.
    apply bind_inv in H as (r3 & s5 & H3 & H). apply ret_inv in H as [<- <-].
    unfold publishDependencyAndPopulateTransitive in H3.
    apply bind_inv in H3 as (pwd4 & s4 & H3 & Hrm).
    rewrite (publishAndPopulate_published _ _ _ _ _ _ Hflag2) in H3.
    apply bind_inv in H3 as (pwd3 & s3 & Hexpand & Hwalk).
    pose proof (walk_expandGraph _ _ _ _ _ _ _ Hexpand) as [_ Ht3 Hf3 _].
    apply bind_inv in Hrm as (e & s6 & Hrm & Hret). apply ret_inv in Hret as [<- <-].
    unfold removeWorkspace in Hrm. apply call_inv in Hrm as (x6 & _ & ->).
    assert (Hw : exists walked, log s4 = log s3 ++ walked /\
                   Forall (visitedIn walked) (transitiveDependencies pwd3) /\
                   idsOf (transitiveDependencies pwd4) = idsOf (transitiveDependencies pwd3) /\
                   totals (cache s3) + length (transitiveDependencies pwd3)
                   <= totals (cache s4) /\
                   failures (cache s3) <= failures (cache s4)).
    { destruct (transitiveDependencies pwd3) eqn:Hch.
      - apply ret_inv in Hwalk as [<- <-]. exists []. rewrite app_nil_r, Hch. simpl.
        split_and!; [done | constructor | done | lia | lia].
      - pose proof (walk_populateTransitive _ (walk_PopulateModAndPublish fuel)
                      _ _ _ _ _ Hwalk) as [_ _ Hf4 _].
        apply populateTransitive_visited in Hwalk as (walked & Hlw & Hall & Hids & Ht).
        rewrite Hch in Hall, Hids, Ht. exists walked. by split_and!. }
    destruct Hw as (walked & Hl4 & Hall & Hids & Ht4 & Hf4).
    simpl. split.
    { rewrite Hc2 in Hf3. simpl in Hf3. lia. }
    exists (pwd2, path2, output, err2), s2, err, rest, pwd3, s3, walked, e. simpl.
    split_and!; try done.
    + by rewrite Hl4, <- app_assoc.
    + rewrite Hc2 in Ht3. simpl in Ht3. lia.
  - intros universe Hgraph Hconv Hwf Hfuel.
    destruct (PopulateModAndPublish_returns universe Hgraph Hconv (S fuel) targetRepo pwd s
                Hwf Hfuel) as ([pwd' err] & s' & H).
    pose proof (Hnil _ _ H) as Herr. simpl in Herr. subst err. eauto.
Qed.

End Walk.

(** ** The claims on the sample world *)

Import Sample.

Definition fooId : string := "example.com/foo:v1.0.0".
Definition barEdge : string := "example.com/bar@v2.0.0".
Definition populated : string := "require example.com/bar v2.0.0".
Definition modPath : string := "/tmp/ws/example.com/foo@v1.0.0/go.mod".
Definition resolverDefault : PackageWithDeps * error := (foo "", ErrNil).

Lemma sample_graph_bounded refreshed publishErr graph found :
  forall (e e' : unit) g err,
    runGoModGraph (worldWith refreshed publishErr graph found) e = (e', (g, err)) ->
    forall edge, edge ∈ g -> edge ∈ graph.
Proof. intros e e' g err [= _ <- _] edge Hin. exact Hin. Defined.

Lemma sample_idConvention refreshed publishErr graph found :
  forall cachePath name version d,
    materialisedAs (worldWith refreshed publishErr graph found) cachePath name version d ->
    GetId d = name +:+ ":" +:+ version.
Proof.
  intros cachePath name version d [(e & e' & H)|(edge & repo & b & e & e' & H)].
  - injection H as _ <-. reflexivity.
  - discriminate H.
Defined.

(** C1, counterexample: the repository refuses the package, and its
    entry is true all the same. *)
Lemma publish_error_still_marked :
  let run := prepareAndPublish (world (Err "503") [] false) (foo populated) "repo" (start ∅) in
  valueOf ErrNil run = Err "503" /\
  log (stateOf run) = [EvPublish (Dependency (foo populated)) "repo" (Err "503")] /\
  depMap (cache (stateOf run)) !! fooId = Some true.
Proof. vm_compute. repeat split. Qed.

Lemma prepareAndPublish_marks_after_publish_witness :
  let W := world (Err "503") [] false in
  let run := prepareAndPublish W (foo populated) "repo" (start ∅) in
  run = Ret (valueOf ErrNil run) (stateOf run) /\
  depMap (cache (stateOf run)) !! fooId = Some true.
Proof.
  intros W run.
  assert (H : run = Ret (valueOf ErrNil run) (stateOf run)) by (vm_compute; reflexivity).
  split; [exact H|].
  exact (proj2 (proj2 (proj2 (prepareAndPublish_marks_after_publish W _ _ _ _ _ H)))).
Defined.

(** C2 on a resolver that was reverted to an empty manifest. *)
Lemma manifest_of_record_witness :
  let W := world ErrNil [] false in
  let pwd := withOriginal (withRevert (foo "") true) "module example.com/foo" in
  let run := publishDependencyAndPopulateTransitive W (PopulateModAndPublish W 0)
               pwd modPath "repo" [] (start ∅) in
  shouldRevertToEmptyMod pwd = true /\
  expandGraph W pwd modPath "repo" [] (start ∅) = Ret pwd (start ∅) /\
  flagOf (depMap (cache (start ∅))) (GetId (Dependency pwd)) = false /\
  run = Ret (valueOf resolverDefault run) (stateOf run) /\
  modContent (Dependency (fst (valueOf resolverDefault run)))
  = "// Generated by JFrog" +:+ String newline (String newline "module example.com/foo").
Proof.
  intros W pwd run.
  assert (H : run = Ret (valueOf resolverDefault run) (stateOf run)) by (vm_compute; reflexivity).
  split; [reflexivity|]. split; [reflexivity|]. split; [reflexivity|]. split; [exact H|].
  exact (proj1 (proj2 (manifest_of_record W 0 pwd modPath "repo" [] (start ∅) pwd (start ∅)
                         _ _ eq_refl eq_refl eq_refl H))).
Defined.

(** C3, counterexample: a call on a package that is marked published and
    whose manifest is empty runs tidy. *)
Lemma published_empty_manifest_runs_tidy :
  let s := start {[ fooId := true ]} in
  let run := PopulateModAndPublish (world ErrNil [] false) 1 "repo" (foo "module example.com/foo") s in
  flagOf (depMap (cache s)) fooId = true /\
  PatternMatched (foo "module example.com/foo") (GetNotEmptyModRegex regexps) = false /\
  countEv isTidy (log (stateOf run)) = 1.
Proof. vm_compute. repeat split. Qed.

Lemma published_package_not_republished_witness :
  let W := world ErrNil [barEdge] false in
  let s := start {[ fooId := true ]} in
  let pwd := foo "module example.com/foo" in
  let run := PopulateModAndPublish W 2 "repo" pwd s in
  flagOf (depMap (cache s)) (GetId (Dependency pwd)) = true /\
  populateChild (PopulateModAndPublish W 0) "repo" [] pwd s
  = Ret [pwd] (mkState (addSuccess (cache s)) (env s) (log s ++ [EvAlreadyHandled fooId])) /\
  run = Ret (valueOf resolverDefault run) (stateOf run) /\
  countEv isPublish (log (stateOf run)) = 1 /\
  exists m0 m1 cached rest,
    log (stateOf run)
    = [] ++ [EvStart fooId; EvDownloadModFile "/gocache" "repo" m0 m1 cached] ++ rest /\
    forall pkg repo err,
      EvPublish pkg repo err ∈ rest -> depMap (cache s) !! GetId pkg <> Some true.
Proof.
  intros W s pwd run.
  assert (Hflag : flagOf (depMap (cache s)) (GetId (Dependency pwd)) = true)
    by (vm_compute; reflexivity).
  assert (H : run = Ret (valueOf resolverDefault run) (stateOf run)) by (vm_compute; reflexivity).
  destruct (published_package_not_republished W 1 "repo" pwd s Hflag) as (Hskip & _ & Hcall).
  split; [exact Hflag|]. split; [exact (Hskip (PopulateModAndPublish W 0) [])|].
  split; [exact H|]. split; [vm_compute; reflexivity|].
  destruct (Hcall _ _ H)
    as (m0 & m1 & cached & refresh & pwd1 & path & prep & graph & err & expand & pwd3 & s3 & s4
        & walked & e & _ & _ & Hl & _ & _ & _ & _ & _ & _ & _ & _ & Hspared).
  exists m0, m1, cached, (refresh ++ prep ++ expand ++ walked ++ [EvRemoveAll (filepath_Dir W path) e]).
  split; [exact Hl | exact Hspared].
Defined.

Lemma children_recorded_when_appended_witness :
  let W := world ErrNil [barEdge] false in
  let run := setTransitiveDependencies W (foo "") "repo" [barEdge] (start ∅) in
  run = Ret (valueOf (foo "") run) (stateOf run) /\
  exists evs, log (stateOf run) = [] ++ evs /\ countEv isStart evs = 0 /\
    Forall (fun child =>
              exists m0 m1 found,
                GetId (Dependency child) = edgeKey W m0 m1 /\
                depMap (cache (stateOf run)) !! GetId (Dependency child) = Some found /\
                EvProbe m0 m1 "repo" found ErrNil ∈ evs)
      (transitiveDependencies (valueOf (foo "") run)).
Proof.
  intros W run.
  assert (H : run = Ret (valueOf (foo "") run) (stateOf run)) by (vm_compute; reflexivity).
  split; [exact H|].
  destruct (children_recorded_when_appended W (foo "") "repo" [barEdge] (start ∅) _ _
              (sample_idConvention _ _ _ _) H) as (evs & Hl & Hs & Hch).
  exists evs. repeat split; [exact Hl | exact Hs |].
  eapply Forall_impl; [exact Hch|]. intros child [Hc _]. exact Hc.
Defined.


Lemma published_flag_monotone_witness :
  let W := world ErrNil [barEdge; "badedge"] false in
  let s := start {[ fooId := true ]} in
  let run := PopulateModAndPublish W 2 "repo" (foo populated) s in
  run = Ret (valueOf resolverDefault run) (stateOf run) /\
  (forall k, depMap (cache s) !! k = Some true -> depMap (cache (stateOf run)) !! k = Some true).
Proof.
  intros W s run.
  assert (H : run = Ret (valueOf resolverDefault run) (stateOf run)) by (vm_compute; reflexivity).
  split; [exact H|].
  exact (proj1 (proj2 (published_flag_monotone W 2 "repo" (foo populated) s _ _ H))).
Defined.

Lemma PopulateModAndPublish_returns_nil_witness :
  let W := world ErrNil [barEdge; "badedge"] false in
  wellFormed (foo "") /\
  exists pwd' s', PopulateModAndPublish W 2 "repo" (foo "") (start ∅) = Ret (pwd', ErrNil) s'.
Proof.
  intros W.
  assert (Hwf : wellFormed (foo "")) by (split; [eexists; reflexivity | exact I]).
  split; [exact Hwf|].
  apply (proj1 (PopulateModAndPublish_returns_nil W [barEdge; "badedge"]
                  (sample_graph_bounded _ _ _ _) (sample_idConvention _ _ _ _)
                  "repo" (foo "") (start ∅) Hwf)).
  vm_compute. lia.
Defined.

(** C8, counterexample: the root is marked published and its one child is
    found in Artifactory, so the child is skipped.  Totals is 1, successes
    is 1, failures is 0, one node was skipped: 1 is not 1 + 0 + 1. *)
Lemma skipped_child_counted_once :
  let s := start {[ fooId := true ]} in
  let run := PopulateModAndPublish (world ErrNil [barEdge] true) 2 "repo" (foo populated) s in
  let c := cache (stateOf run) in
  run = Ret (valueOf resolverDefault run) (stateOf run) /\
  totals c = 1 /\ successes c = 1 /\ failures c = 0 /\
  handled (log (stateOf run)) = 1 /\
  Nat.eqb (totals c) (successes c + failures c + handled (log (stateOf run))) = false.
Proof. vm_compute. repeat split. Qed.

Lemma counters_after_run_witness :
  let W := world ErrNil [barEdge] false in
  let run := PopulateModAndPublish W 2 "repo" (foo populated) (start ∅) in
  let c := cache (stateOf run) in
  transitiveDependencies (foo populated) = [] /\
  run = Ret (valueOf resolverDefault run) (stateOf run) /\
  exists own evs,
    log (stateOf run) = [] ++ evs /\
    totals c + 1 = 0 + handled evs + countEv isStart evs /\
    own <= 1 /\ successes c + failures c + 0 = 0 + 0 + totals c + own.
Proof.
  intros W run c.
  assert (H : run = Ret (valueOf resolverDefault run) (stateOf run)) by (vm_compute; reflexivity).
  split; [reflexivity|]. split; [exact H|].
  destruct (counters_after_run W 2 "repo" (foo populated) (start ∅) _ _
              (sample_idConvention _ _ _ _) eq_refl H) as (own & evs & Hl & Hv & Hown & Hbal & _).
  exists own, evs. split; [exact Hl|]. split; [exact Hv|]. split; [exact Hown | exact Hbal].
Defined.

Lemma unreadable_refresh_counts_and_continues_witness :
  let W := worldWith "/gocache/foo.mod" ErrNil [barEdge] false in
  let s := start {[ fooId := true ]} in
  let run := PopulateModAndPublish W 2 "repo" (foo populated) s in
  flagOf (depMap (cache s)) fooId = true /\
  run = Ret (valueOf resolverDefault run) (stateOf run) /\
  length (transitiveDependencies (fst (valueOf resolverDefault run))) = 1 /\
  countEv isStart (log (stateOf run)) = 2 /\
  snd (valueOf resolverDefault run) = ErrNil /\
  failures (cache s) + 1 <= failures (cache (stateOf run)) /\
  exists pwd3 walked,
    Forall (visitedIn walked) (transitiveDependencies pwd3) /\
    idsOf (transitiveDependencies (fst (valueOf resolverDefault run)))
    = idsOf (transitiveDependencies pwd3).
Proof.
  intros W s run.
  assert (H : run = Ret (valueOf resolverDefault run) (stateOf run)) by (vm_compute; reflexivity).
  assert (Hne : "/gocache/foo.mod" <> "") by discriminate.
  split; [reflexivity|]. split; [exact H|].
  split; [vm_compute; reflexivity|]. split; [vm_compute; reflexivity|].
  destruct (proj1 (proj2 (unreadable_refresh_counts_and_continues W 1 "repo" (foo populated) s
                            "example.com/foo" "v1.0.0" tt "/gocache/foo.mod" tt "" "no such file"
                            eq_refl eq_refl eq_refl eq_refl Hne eq_refl)) _ _ H)
    as (Hnil & Hfail & r1 & s2 & err & rest & pwd3 & s3 & walked & e
        & _ & _ & _ & _ & Hall & Hids & _).
  split; [exact Hnil|]. split; [exact Hfail|].
  exists pwd3, walked. split; [exact Hall | exact Hids].
Defined.

Lemma process_state_changed_not_restored_witness :
  let W := world ErrNil [] false in
  let run := PopulateModAndPublish W 1 "repo" (foo populated) (start ∅) in
  run = Ret (valueOf resolverDefault run) (stateOf run) /\
  exists pre err post,
    log (stateOf run) = [] ++ pre ++ EvUnsetenv GOPROXY err :: post /\
    countEv isUnzip pre = 0.
Proof.
  intros W run.
  assert (H : run = Ret (valueOf resolverDefault run) (stateOf run)) by (vm_compute; reflexivity).
  split; [exact H|].
  destruct (process_state_changed_not_restored W 1 "repo" (foo populated) (start ∅) _ _ H)
    as (pre & err & post & Hl & Hpre & _).
  exists pre, err, post. split; [exact Hl | exact Hpre].
Defined.

(** * More of the resolver

    The constructor [New], the paths computed from a package ID, the
    error paths of the preparation, and what the expansion and the walk
    over the children keep. *)

(** ** IDs, paths and the string functions they go through *)

Lemma Split_cons_sep a b c :
  strings.Count a c = 0 -> strings.Split (a +:+ String c b) c = a :: strings.Split b c.
Proof.
  induction a as [|d a IH]; simpl.
  - intros _. by rewrite Ascii.eqb_refl.
  - destruct (Ascii.eqb d c); [discriminate|]. simpl. intros Ha. by rewrite (IH Ha).
Qed.

Lemma Split_no_sep a c : strings.Count a c = 0 -> strings.Split a c = [a].
Proof.
  induction a as [|d a IH]; simpl; [done|].
  destruct (Ascii.eqb d c); [discriminate|]. simpl. intros Ha. by rewrite (IH Ha).
Qed.

Lemma Replace1_first a b old new :
  strings.Count a old = 0 ->
  strings.Replace1 (a +:+ String old b) old new = a +:+ String new b.
Proof.
  induction a as [|d a IH]; simpl.
  - intros _. by rewrite Ascii.eqb_refl.
  - destruct (Ascii.eqb d old); [discriminate|]. simpl. intros Ha. by rewrite (IH Ha).
Qed.

(** Joining the pieces of a split with the separator gives the string
    back: [strings.Join(strings.Split(s, sep), sep) == s]. *)
Lemma Join_Split s c : strings.Join (strings.Split s c) (String c "") = s.
Proof.
  unfold strings.Join. induction s as [|d s IH]; simpl; [done|].
  destruct (Ascii.eqb d c) eqn:E.
  - apply Ascii.eqb_eq in E as ->.
    destruct (strings.Split s c) as [|x l] eqn:Hs.
    + pose proof (Split_length s c) as Hl. rewrite Hs in Hl. discriminate Hl.
    + simpl. simpl in IH. by rewrite IH.
  - destruct (strings.Split s c) as [|x l] eqn:Hs; simpl in *.
    + pose proof (Split_length s c) as Hl. rewrite Hs in Hl. discriminate Hl.
    + destruct l; simpl in *; by rewrite <- IH.
Qed.

Section Paths.
Context {Env : Type} (W : World Env).

Lemma Split_second_iff id c : is_Some (strings.Split id c !! 1) <-> strings.Count id c <> 0.
Proof.
  pose proof (Split_length id c) as Hl.
  destruct (strings.Split id c) as [|x [|y l]]; simpl in *.
  - discriminate Hl.
  - split; [by intros [? ?] | intros; lia].
  - split; [intros; lia | eauto].
Qed.

(** X1.  The workspace of a package is keyed by [path@version]: for an
    ID [name:version] whose name, also once its [!x] escapes are decoded,
    holds no colon, the mod file is [tempDir/<decoded name>@version/go.mod]
    (lines 214-222), whatever colons the version holds. *)
Theorem getModPathInTemp_versioned pwd tempDir name version s :
  GetId (Dependency pwd) = name +:+ ":" +:+ version ->
  strings.Count name colon = 0 ->
  strings.Count (replaceExclamationMarkWithUpperCase W name) colon = 0 ->
  getModPathInTemp W pwd tempDir s
  = Ret (filepath_Join W
           [tempDir; replaceExclamationMarkWithUpperCase W name +:+ "@" +:+ version; "go.mod"]) s.
Proof.
  intros Hid Hname Hdec. unfold getModPathInTemp. rewrite Hid.
  change (name +:+ ":" +:+ version) with (name +:+ String colon version).
  rewrite (Split_cons_sep _ _ _ Hname). unfold bind, index, ret. simpl.
  pose proof (Join_Split version colon) as Hj. unfold strings.Join in *.
  destruct (strings.Split version colon) as [|x l] eqn:Hs.
  { pose proof (Split_length version colon) as Hl. rewrite Hs in Hl. discriminate Hl. }
  change (String.concat ":" (x :: l)) with (String.concat (String colon "") (x :: l)).
  rewrite Hj.
  change (replaceExclamationMarkWithUpperCase W name +:+ ":" +:+ version)
    with (replaceExclamationMarkWithUpperCase W name +:+ String colon version).
  by rewrite (Replace1_first _ _ _ _ Hdec).
Qed.

(** X2.  The local module cache is laid out as
    [cachePath/<name>/@v/<version>.mod] (lines 329-335): for an ID
    [name:version] without another colon, and "/" as the file separator,
    the current manifest of the package is written to that file, and the
    error of the write is what is returned. *)
Theorem writeModContentToGoCache_layout pwd name version s :
  GetId (Dependency pwd) = name +:+ ":" +:+ version ->
  strings.Count name colon = 0 ->
  strings.Count version colon = 0 ->
  GetFileSeparator W = "/" ->
  let file := filepath_Join W [cachePath pwd; name; "@v"; version +:+ ".mod"] in
  let written := WriteFile W file (modContent (Dependency pwd)) (env s) in
  writeModContentToGoCache W pwd s
  = Ret (snd written)
      (mkState (cache s) (fst written)
         (log s ++ [EvWriteFile file (modContent (Dependency pwd)) (snd written)])).
Proof.
  intros Hid Hname Hversion Hsep file written. unfold writeModContentToGoCache.
  rewrite Hid. change (name +:+ ":" +:+ version) with (name +:+ String colon version).
  rewrite (Split_cons_sep _ _ _ Hname), (Split_no_sep _ _ Hversion), Hsep.
  unfold bind, index, ret, call. simpl.
  change "/" with (String slash ""). by rewrite Join_Split.
Qed.

(** X3.  An ID without a colon is out of range for
    [moduleAndVersion[1]]: persisting to the local module cache
    (line 332) panics exactly for such an ID, and so does the refresh of
    a package that is marked published (line 52); with a colon in the ID
    neither panics. *)
Theorem index_out_of_range_without_colon pwd targetRepo s :
  (writeModContentToGoCache W pwd s = Panic <->
   strings.Count (GetId (Dependency pwd)) colon = 0) /\
  (refreshPublished W pwd targetRepo s = Panic <->
   flagOf (depMap (cache s)) (GetId (Dependency pwd)) = true /\
   strings.Count (GetId (Dependency pwd)) colon = 0).
Proof.
  pose proof (Split_second_iff (GetId (Dependency pwd)) colon) as Hiff.
  destruct (Split_first (GetId (Dependency pwd)) colon) as [m0 H0].
  split.
  - unfold writeModContentToGoCache, bind, index, ret, call. rewrite H0. simpl.
    destruct (strings.Split (GetId (Dependency pwd)) colon !! 1) as [m1|] eqn:H1; simpl.
    + split; [discriminate|]. intros Hc. destruct (proj1 Hiff); eauto.
    + split; [|done]. intros _.
      destruct (strings.Count (GetId (Dependency pwd)) colon) eqn:Hc; [done|].
      destruct (proj2 Hiff) as [? ?]; [lia | discriminate].
  - unfold refreshPublished, bind, GetMap, index, ret. simpl.
    destruct (flagOf _ _); [|split; [discriminate | by intros [? _]]].
    rewrite H0. simpl.
    destruct (strings.Split (GetId (Dependency pwd)) colon !! 1) as [m1|] eqn:H1; simpl.
    + split.
      * unfold call, updateModContent, bind. simpl.
        destruct (decide _); [discriminate|]. unfold call. simpl.
        destruct (snd (snd (ReadFile W _ _))); discriminate.
      * intros [_ Hc]. destruct (proj1 Hiff); eauto.
    + split; [|done]. intros _. split; [done|].
      destruct (strings.Count (GetId (Dependency pwd)) colon) eqn:Hc; [done|].
      destruct (proj2 Hiff) as [? ?]; [lia | discriminate].
Qed.

End Paths.

(** ** The preparation of the manifest (lines 104-175) *)

Section Preparation.
Context {Env : Type} (W : World Env).

(** What lines 178-186 return as error: that of [os.Unsetenv], or else
    that of unpacking the archive. *)
Definition unpackError (pwd : PackageWithDeps) (e : Env) : error :=
  let r := Unsetenv W GOPROXY e in
  if is_nil (snd r)
  then snd (snd (createDependencyInTemp W (GetZipPath (Dependency pwd)) (fst r)))
  else snd r.

Lemma Split_app_sep a b c :
  strings.Split (a +:+ String c b) c = strings.Split a c ++ strings.Split b c.
Proof.
  induction a as [|d a IH]; simpl.
  - by rewrite Ascii.eqb_refl.
  - destruct (Ascii.eqb d c); simpl; [by rewrite IH|].
    rewrite IH. pose proof (Split_length a c) as Hl.
    destruct (strings.Split a c); [discriminate Hl | done].
Qed.

(** X4.  [PatternMatched] (lines 92-100) looks at one line at a time: a
    manifest matches exactly when the text before one of its newlines, or
    the text after it, does.  No match spans a newline. *)
Theorem PatternMatched_per_line pwd a b re :
  PatternMatched (setMod pwd (a +:+ String newline b)) re
  = PatternMatched (setMod pwd a) re || PatternMatched (setMod pwd b) re.
Proof.
  unfold PatternMatched. destruct pwd as [[id content zip] ? ? ? ? ? ? ? ?]. simpl.
  by rewrite Split_app_sep, existsb_app.
Qed.

(** X5.  When [GOPROXY] cannot be unset or the archive cannot be
    unpacked, lines 105-108 return at once: the resolver is as it was
    (the revert flag of an earlier call is not reset), the path is empty,
    there is no graph, the cache is untouched, and nothing but the two
    calls was made. *)
Theorem createDependencyAndPrepareMod_unpack_failure pwd s :
  is_nil (unpackError pwd (env s)) = false ->
  exists s',
    createDependencyAndPrepareMod W pwd s = Ret (pwd, "", [], unpackError pwd (env s)) s' /\
    cache s' = cache s /\
    exists tempDir,
      log s' = log s ++ [EvUnsetenv GOPROXY (unpackError pwd (env s))] \/
      log s' = log s ++ [EvUnsetenv GOPROXY ErrNil;
                         EvUnzip (GetZipPath (Dependency pwd)) tempDir (unpackError pwd (env s))].
Proof.
  unfold unpackError, createDependencyAndPrepareMod, getModPathAndUnzipDependency, bind, call, ret.
  simpl. destruct (Unsetenv W GOPROXY (env s)) as [e1 err1]. simpl.
  destruct (is_nil err1) eqn:E1; simpl.
  - destruct (createDependencyInTemp W _ e1) as [e2 [tempDir err2]]. simpl.
    destruct err2 as [|msg]; [discriminate|]. intros _. simpl.
    eexists. split; [reflexivity|]. split; [done|].
    exists tempDir. right. simpl. apply is_nil_true in E1 as ->. by rewrite <- app_assoc.
  - destruct err1 as [|msg]; [discriminate|]. intros _. simpl.
    eexists. split; [reflexivity|]. split; [done|].
    exists "". by left.
Qed.

(** X6.  Once the archive is unpacked, the revert flag the preparation
    leaves says whether tidy was run by this call: it is reset at line
    109, and set again only at line 134, beside the one call of tidy. *)
Theorem revert_flag_iff_tidy pwd s r s' :
  is_nil (unpackError pwd (env s)) = true ->
  createDependencyAndPrepareMod W pwd s = Ret r s' ->
  exists evs, log s' = log s ++ evs /\
    countEv isTidy evs = (if shouldRevertToEmptyMod (fst (fst (fst r))) then 1 else 0).
Proof.
  unfold unpackError, createDependencyAndPrepareMod, getModPathAndUnzipDependency, getModPathInTemp,
    useCachedMod, prepareUnpublishedDependency, prepareAndRunInit, graphOf,
    writeModContentToModFile.
  intros Hok H. run_all.
  all: repeat match goal with
         | Hc : _ = (_, _) |- _ => rewrite Hc in Hok; cbn [fst snd] in Hok
         end.
  all: repeat match goal with
         | E : is_nil _ = _ |- _ => rewrite E in Hok; cbn [fst snd] in Hok
         end.
  all: try discriminate Hok.
  all: eexists; split; [rewrite <- ?app_assoc; simpl; reflexivity |].
  all: reflexivity.
Qed.

(** X7.  A manifest that is not empty (lines 111-115) is used as it is:
    the preparation runs neither init nor tidy, reads no file, and leaves
    the package and the recorded snapshot as they were; the only thing it
    may change of the resolver is to reset the revert flag. *)
Theorem nonempty_manifest_used_as_is pwd s r s' :
  PatternMatched pwd (GetNotEmptyModRegex (regExp pwd)) = true ->
  createDependencyAndPrepareMod W pwd s = Ret r s' ->
  (fst (fst (fst r)) = pwd \/ fst (fst (fst r)) = withRevert pwd false) /\
  exists evs, log s' = log s ++ evs /\
    countEv isInit evs = 0 /\ countEv isTidy evs = 0 /\
    Forall (fun e => match e with EvReadFile _ _ _ => False | _ => True end) evs.
Proof.
  intros Hne.
  assert (Hpm : forall b re, PatternMatched (withRevert pwd b) re = PatternMatched pwd re)
    by reflexivity.
  unfold createDependencyAndPrepareMod, getModPathAndUnzipDependency, getModPathInTemp,
    useCachedMod, graphOf, writeModContentToModFile.
  intros H. apply bind_inv in H as ([path err] & s1 & H1 & H). simpl in H.
  change (regExp (withRevert pwd false)) with (regExp pwd) in H.
  rewrite !Hpm, Hne in H.
  run_all.
  all: split; [auto|].
  all: eexists; split; [rewrite <- ?app_assoc; simpl; reflexivity |].
  all: repeat split; try done; repeat constructor.
Qed.

(** X8.  [useCachedMod] (lines 164-175) writes the manifest to the
    workspace and then enters it.  Only the error of [os.Chdir] comes
    back: when the directory cannot be entered, [go.sum] is left alone;
    when it can, the result is nil whatever writing the mod file and
    removing [go.sum] returned. *)
Theorem useCachedMod_reports_chdir_only pwd path s :
  exists e1 e2 s',
    useCachedMod W pwd path s = Ret e2 s' /\
    cache s' = cache s /\
    ((e2 <> ErrNil /\
      log s' = log s ++ [EvWriteFile path (modContent (Dependency pwd)) e1;
                         EvChdir (filepath_Dir W path) e2]) \/
     (e2 = ErrNil /\ exists e3,
      log s' = log s ++ [EvWriteFile path (modContent (Dependency pwd)) e1;
                         EvChdir (filepath_Dir W path) ErrNil;
                         EvRemoveGoSum path e3])).
Proof.
  unfold useCachedMod, writeModContentToModFile, bind, call, ret. simpl.
  destruct (WriteFile W path _ (env s)) as [x1 e1]. simpl.
  destruct (Chdir W (filepath_Dir W path) x1) as [x2 e2]. simpl.
  destruct e2 as [|msg]; simpl.
  - destruct (removeGoSum W path x2) as [x3 e3]. simpl.
    eexists e1, ErrNil, _. split; [reflexivity|]. split; [done|].
    right. split; [done|]. exists e3. simpl. by rewrite <- !app_assoc.
  - eexists e1, (Err msg), _. split; [reflexivity|]. split; [done|].
    left. split; [done|]. simpl. by rewrite <- !app_assoc.
Qed.

(** X9.  The manifest to go back to (lines 248-251) gets the edit message
    put before it once: when the message is itself matched by the
    "generated by" expression, computing the reverted manifest from an
    already reverted snapshot changes nothing. *)
Theorem revertedContent_idempotent pwd :
  (forall rest, GetGeneratedBy (regExp pwd) (GoModEditMessage pwd +:+ rest) = true) ->
  revertedContent (withOriginal pwd (revertedContent pwd)) = revertedContent pwd.
Proof.
  intros Hmsg. unfold revertedContent.
  destruct pwd as [d ch re run rv tidy cp msg orig]. simpl in *.
  destruct (GetGeneratedBy re orig) eqn:E; simpl.
  - by rewrite E.
  - by rewrite Hmsg.
Qed.

End Preparation.

(** ** A whole call (lines 43-66 and 224-278) *)

(** [New] (lines 35-40): the resolver is pointed at another package and
    another cache; its children are dropped.  Every other field stays:
    the matcher and the edit message, but also the revert flag and the
    snapshot of the package it worked on before. *)
Definition New (pwd : PackageWithDeps) (cachePath : string) (dependency : Package)
  : PackageWithDeps :=
  mkPackageWithDeps dependency [] (regExp pwd) (runGoModCommand pwd)
    (shouldRevertToEmptyMod pwd) (TidyEnum pwd) cachePath (GoModEditMessage pwd)
    (originalModContent pwd).

Section Calls.
Context {Env : Type} (W : World Env).

Lemma flagOf_true (m : gmap string bool) k : flagOf m k = true -> m !! k = Some true.
Proof. unfold flagOf. destruct (m !! k) as [[|]|]; simpl; congruence. Qed.

Lemma revertToOriginalMod_id pwd path published s pwd' s' :
  revertToOriginalMod W pwd path published s = Ret pwd' s' ->
  GetId (Dependency pwd') = GetId (Dependency pwd).
Proof.
  unfold revertToOriginalMod, writeModContentToGoCache, writeModContentToModFile.
  intros H. run_all; done.
Qed.

(** Lines 224-270, step by step, for any way the children are walked. *)
Lemma publishDependencyAndPopulateTransitive_steps rec pwd path targetRepo graph s r s' :
  publishDependencyAndPopulateTransitive W rec pwd path targetRepo graph s = Ret r s' ->
  exists pwd1 s1 s2 s3 s5 s6 e,
    expandGraph W pwd path targetRepo graph s = Ret pwd1 s1 /\
    GetId (Dependency pwd1) = GetId (Dependency pwd) /\
    cache s2 = cache s1 /\
    match transitiveDependencies pwd1 with
    | [] => s3 = s2
    | _ :: _ => exists pwd3, populateTransitive rec pwd1 targetRepo s2 = Ret pwd3 s3
    end /\
    cache s5 = cache s3 /\
    GetId (Dependency (fst r)) = GetId (Dependency pwd) /\
    (if flagOf (depMap (cache s1)) (GetId (Dependency pwd))
     then s6 = s5
     else prepareAndPublish W (fst r) targetRepo s5 = Ret e s6) /\
    cache s' = cache s6 /\
    exists e', log s' = log s6 ++ [EvRemoveAll (filepath_Dir W path) e'].
Proof.
  intros H.
  unfold publishDependencyAndPopulateTransitive, publishAndPopulate in H.
  apply bind_inv in H as (pwd4 & s4 & H & Hrm).
  apply bind_inv in H as (pwd1 & s1 & Hexpand & H).
  pose proof (expandGraph_fields _ _ _ _ _ _ _ _ Hexpand) as Hpwd1.
  assert (Hid : GetId (Dependency pwd1) = GetId (Dependency pwd)) by by rewrite Hpwd1.
  apply bind_inv in H as (m & s1' & Hm & H). apply GetMap_inv in Hm as [-> ->].
  apply bind_inv in H as (u & s2 & Hpersist & H).
  apply same_cache_persistIfPopulated in Hpersist.
  apply bind_inv in H as (pwd3 & s3 & Hchildren & H).
  assert (Hid3 : GetId (Dependency pwd3) = GetId (Dependency pwd1)).
  { destruct (transitiveDependencies pwd1).
    - by apply ret_inv in Hchildren as [<- _].
    - by rewrite (populateTransitive_fields _ _ _ _ _ _ Hchildren). }
  apply bind_inv in H as (pwd5 & s5 & Hrevert & H).
  pose proof (revertToOriginalMod_id _ _ _ _ _ _ Hrevert) as Hid5.
  apply same_cache_revertToOriginalMod in Hrevert.
  apply bind_inv in H as (u5 & s6 & Hpub & H). apply ret_inv in H as [<- <-].
  apply bind_inv in Hrm as (erm & s7 & Hrm & Hret). apply ret_inv in Hret as [<- <-].
  unfold removeWorkspace in Hrm. apply call_inv in Hrm as (e' & _ & ->).
  rewrite Hid in Hpub.
  assert (Hpub' : exists e,
            if flagOf (depMap (cache s1)) (GetId (Dependency pwd))
            then s6 = s5
            else prepareAndPublish W pwd5 targetRepo s5 = Ret e s6).
  { destruct (flagOf _ _); simpl in Hpub.
    - exists ErrNil. by apply ret_inv in Hpub as [_ <-].
    - apply bind_inv in Hpub as (e & s7 & Hpub & Hret). apply ret_inv in Hret as [_ <-].
      by exists e. }
  destruct Hpub' as [e Hpub'].
  exists pwd1, s1, s2, s3, s5, s6, e. simpl.
  split_and!; try done; [|congruence|by eexists].
  destruct (transitiveDependencies pwd1); [by apply ret_inv in Hchildren as [_ <-]|].
  by exists pwd3.
Qed.

(** X10.  The decision to publish is taken from the flag as it is read at
    line 235, before the children are walked, and is not looked at
    again: a package that was not marked then is published as the last
    thing but the removal of its workspace, whatever the walk over the
    children did in between, also when that walk has published the very
    same ID. *)
Theorem publish_decided_before_walk rec pwd path targetRepo graph s pwd1 s1 r s' :
  expandGraph W pwd path targetRepo graph s = Ret pwd1 s1 ->
  flagOf (depMap (cache s1)) (GetId (Dependency pwd)) = false ->
  publishDependencyAndPopulateTransitive W rec pwd path targetRepo graph s = Ret r s' ->
  exists before err e,
    log s' = before ++ [EvPublish (Dependency (fst r)) targetRepo err;
                        EvRemoveAll (filepath_Dir W path) e] /\
    depMap (cache s') !! GetId (Dependency pwd) = Some true.
Proof.
  intros Hexpand Hflag H.
  apply publishDependencyAndPopulateTransitive_steps in H
    as (pwd1' & s1' & s2 & s3 & s5 & s6 & e & Hexpand' & _ & _ & _ & _ & Hid & Hpub & Hc & e' & Hl).
  rewrite Hexpand in Hexpand'. injection Hexpand' as <- <-.
  rewrite Hflag in Hpub.
  unfold prepareAndPublish, Package_prepareAndPublish in Hpub.
  rewrite Hl, Hc, <- Hid.
  run_all; simpl; exists (log s5); eexists _, e';
    (split; [by rewrite <- app_assoc | apply lookup_insert_eq]).
Qed.

(** X11.  After a call that returns, the package it was called on is
    marked published in the map, whatever failed on the way: either it was
    marked when line 235 read the flag, and nothing unmarks it, or it is
    marked by line 276. *)
Theorem own_entry_true_after_call fuel targetRepo pwd s r s' :
  PopulateModAndPublish W fuel targetRepo pwd s = Ret r s' ->
  depMap (cache s') !! GetId (Dependency pwd) = Some true /\
  GetId (Dependency (fst r)) = GetId (Dependency pwd).
Proof.
  destruct fuel as [|fuel]; [discriminate|]. simpl. intros H.
  unfold PopulateModAndPublish_body in H.
  apply bind_inv in H as (u & s0 & H0 & H). apply note_inv in H0.
  apply bind_inv in H as (pwd1 & s1 & H1 & H).
  apply refreshPublished_bal in H1 as (Hid1 & _ & _ & _).
  apply bind_inv in H as ([[[pwd2 path] output] err2] & s2 & H2 & H).
  pose proof (createDependencyAndPrepareMod_fields _ _ _ _ _ H2) as [Hid2 _]. simpl in Hid2.
  apply bind_inv in H as (r3 & s3 & H3 & H). apply ret_inv in H as [<- <-].
  apply publishDependencyAndPopulateTransitive_steps in H3
    as (pwd3 & s4 & s5 & s6 & s7 & s8 & e & Hexpand & Hid3 & Hc5 & Hwalk & Hc7 & Hid & Hpub & Hc & _).
  simpl. rewrite <- Hid1, <- Hid2. split; [|done]. rewrite Hc.
  destruct (flagOf _ _) eqn:Hflag.
  - subst s8. rewrite Hc7. apply flagOf_true in Hflag. rewrite <- Hc5 in Hflag.
    destruct (transitiveDependencies pwd3); [by subst s6|].
    destruct Hwalk as [pwd4 Hwalk].
    apply (walk_populateTransitive W _
             (fun repo child => walk_PopulateModAndPublish W fuel repo child))
      in Hwalk as [Hm _ _ _].
    by apply (writes_keep_true _ _ _ Hm).
  - unfold prepareAndPublish, Package_prepareAndPublish in Hpub. rewrite <- Hid.
    run_all; simpl; apply lookup_insert_eq.
Qed.

(** X12.  Over a call that returns, with all the calls on children, no
    counter of the cache goes down. *)
Theorem counters_never_decrease fuel targetRepo pwd s r s' :
  PopulateModAndPublish W fuel targetRepo pwd s = Ret r s' ->
  totals (cache s) <= totals (cache s') /\
  successes (cache s) <= successes (cache s') /\
  failures (cache s) <= failures (cache s').
Proof.
  intros H. apply walk_PopulateModAndPublish in H as [_ Ht Hf (evs & _ & _ & Hs)].
  split_and!; [done | lia | done].
Qed.

Lemma populateChildren_published
    (rec : string -> PackageWithDeps -> M Env (PackageWithDeps * error)) targetRepo l :
  forall (visited : list PackageWithDeps) (s : State Env),
    Forall (fun child => flagOf (depMap (cache s)) (GetId (Dependency child)) = true) l ->
    foldM (populateChild rec targetRepo) l visited s
    = Ret (visited ++ l)
        (mkState
           (mkCache (depMap (cache s)) (totals (cache s))
              (successes (cache s) + length l) (failures (cache s)))
           (env s)
           (log s ++ map (fun child => EvAlreadyHandled (GetId (Dependency child))) l)).
Proof.
  induction l as [|child l IH]; intros visited s Hall; simpl.
  - destruct s as [[m t sc f] e lg]. simpl. by rewrite Nat.add_0_r, !app_nil_r.
  - apply Forall_cons in Hall as [Hchild Hall].
    assert (Hstep : populateChild rec targetRepo visited child s
                    = Ret (visited ++ [child])
                        (mkState (addSuccess (cache s)) (env s)
                           (log s ++ [EvAlreadyHandled (GetId (Dependency child))]))).
    { unfold populateChild, bind, GetMap. by rewrite Hchild. }
    rewrite (bind_Ret _ _ _ _ _ Hstep), IH; [|done]. simpl.
    rewrite <- !app_assoc. simpl.
    by replace (successes (cache s) + 1 + length l) with (successes (cache s) + S (length l))
      by lia.
Qed.

(** X13.  A walk over children that are all marked published (lines
    338-350) makes no call at all, neither on a child nor outside: it adds
    their number to totals and to successes, and logs one skip for each,
    in their order.  The resolver comes back as it was. *)
Theorem populateTransitive_all_published
    (rec : string -> PackageWithDeps -> M Env (PackageWithDeps * error)) pwd targetRepo s :
  Forall (fun child => flagOf (depMap (cache s)) (GetId (Dependency child)) = true)
    (transitiveDependencies pwd) ->
  populateTransitive rec pwd targetRepo s
  = Ret pwd (mkState
               (mkCache (depMap (cache s))
                  (totals (cache s) + length (transitiveDependencies pwd))
                  (successes (cache s) + length (transitiveDependencies pwd))
                  (failures (cache s)))
               (env s)
               (log s ++ map (fun child => EvAlreadyHandled (GetId (Dependency child)))
                           (transitiveDependencies pwd))).
Proof.
  intros Hall. unfold populateTransitive, IncrementTotal.
  rewrite (bind_Ret (updCache _) _ s tt
             (mkState (addTotal (length (transitiveDependencies pwd)) (cache s)) (env s) (log s))
             eq_refl).
  rewrite (bind_Ret _ _ _ _ _
             (populateChildren_published rec targetRepo _ []
                (mkState (addTotal (length (transitiveDependencies pwd)) (cache s))
                   (env s) (log s)) Hall)).
  unfold ret. simpl. by destruct pwd.
Qed.

End Calls.

(** ** A package that cannot be unpacked *)

Section Failure.
Context {Env : Type} (W : World Env).

Lemma unpack_failure_early pwd (s : State Env) :
  is_nil (unpackError W pwd (env s)) = false ->
  exists s',
    createDependencyAndPrepareMod W pwd s = Ret (pwd, "", [], unpackError W pwd (env s)) s' /\
    cache s' = cache s /\ grows s s'.
Proof.
  unfold unpackError, createDependencyAndPrepareMod, getModPathAndUnzipDependency, bind, call, ret.
  simpl. destruct (Unsetenv W GOPROXY (env s)) as [e1 err1]. simpl.
  destruct (is_nil err1) eqn:E1; simpl.
  - destruct (createDependencyInTemp W _ e1) as [e2 [tempDir err2]]. simpl.
    destruct err2 as [|msg]; [discriminate|]. intros _. simpl.
    eexists. split; [reflexivity|]. split; [done|]. simpl.
    eexists. by rewrite <- app_assoc.
  - destruct err1 as [|msg]; [discriminate|]. intros _. simpl.
    eexists. split; [reflexivity|]. split; [done|]. by eexists.
Qed.

(** The manifest a package is published with when nothing was prepared
    for it: the reverted snapshot when the revert flag is set, its own
    manifest otherwise. *)
Definition unpreparedManifest (pwd : PackageWithDeps) : string :=
  if shouldRevertToEmptyMod pwd then revertedContent pwd else modContent (Dependency pwd).

(** Lines 224-261 after an early return of the preparation: no graph, no
    children, the package not marked. *)
Lemma publishAndPopulate_unprepared rec pwd path targetRepo (s : State Env) :
  flagOf (depMap (cache s)) (GetId (Dependency pwd)) = false ->
  transitiveDependencies pwd = [] ->
  hasVersion (GetId (Dependency pwd)) ->
  exists pwd' s' before err,
    publishAndPopulate W rec pwd path targetRepo [] s = Ret pwd' s' /\
    log s' = log s ++ before ++ [EvPublish (Dependency pwd') targetRepo err] /\
    countEv isUnzip before = 0 /\
    Dependency pwd' = SetModContent (Dependency pwd) (unpreparedManifest pwd) /\
    depMap (cache s') !! GetId (Dependency pwd) = Some true.
Proof.
  intros Hflag Hch Hv. unfold publishAndPopulate, expandGraph.
  rewrite (bind_Ret (ret pwd) _ s pwd s eq_refl).
  rewrite (bind_Ret GetMap _ s _ s eq_refl), Hflag.
  destruct (always_persistIfPopulated W pwd false Hv s) as (u & s2 & H2).
  rewrite (bind_Ret _ _ _ _ _ H2), Hch.
  rewrite (bind_Ret (ret pwd) _ s2 pwd s2 eq_refl).
  destruct (always_revertToOriginalMod W pwd path false Hv s2) as (pwd5 & s5 & H5).
  rewrite (bind_Ret _ _ _ _ _ H5). cbv beta. cbn [negb].
  destruct (always_prepareAndPublish W pwd5 targetRepo s5) as (e & s6 & H6).
  erewrite bind_Ret; [|erewrite bind_Ret; [reflexivity | exact H6]].
  assert (Hl2 : exists evs, log s2 = log s ++ evs /\ countEv isUnzip evs = 0).
  { unfold persistIfPopulated, writeModContentToGoCache in H2. run_all.
    all: eexists; split;
      [rewrite <- ?app_assoc; simpl; first [reflexivity | symmetry; apply app_nil_r] | done]. }
  destruct Hl2 as (evs2 & Hl2 & Hz2).
  assert (Hl5 : (exists evs, log s5 = log s2 ++ evs /\ countEv isUnzip evs = 0) /\
                Dependency pwd5 = SetModContent (Dependency pwd) (unpreparedManifest pwd)).
  { unfold revertToOriginalMod, writeModContentToGoCache, writeModContentToModFile,
      unpreparedManifest in *.
    cbn [negb andb] in H5. destruct (shouldRevertToEmptyMod pwd); run_all.
    all: split;
      [|by repeat match goal with
              | p : PackageWithDeps |- _ => destruct p as [[? ? ?] ? ? ? ? ? ? ? ?]
              end].
    all: eexists; split;
      [rewrite <- ?app_assoc; simpl; first [reflexivity | symmetry; apply app_nil_r] | done]. }
  destruct Hl5 as [(evs5 & Hl5 & Hz5) Hdep].
  assert (Hid : GetId (Dependency pwd5) = GetId (Dependency pwd)) by by rewrite Hdep.
  unfold prepareAndPublish, Package_prepareAndPublish in H6.
  exists pwd5, s6, (evs2 ++ evs5). rewrite <- Hid.
  run_all; simpl; eexists; rewrite Hl5, Hl2, <- ?app_assoc, countEv_app, Hz2, Hz5;
    (split_and!; [done..|apply lookup_insert_eq]).
Qed.

(** The whole call on a package that cannot be unpacked. *)
Lemma unpack_failure_run fuel targetRepo pwd (s : State Env) :
  is_nil (unpackError W pwd (env s)) = false ->
  flagOf (depMap (cache s)) (GetId (Dependency pwd)) = false ->
  transitiveDependencies pwd = [] ->
  hasVersion (GetId (Dependency pwd)) ->
  exists pwd' s' before err e,
    PopulateModAndPublish W (S fuel) targetRepo pwd s = Ret (pwd', ErrNil) s' /\
    log s' = log s ++ before ++ [EvPublish (Dependency pwd') targetRepo err;
                                 EvRemoveAll (filepath_Dir W "") e] /\
    Dependency pwd' = SetModContent (Dependency pwd) (unpreparedManifest pwd) /\
    depMap (cache s') !! GetId (Dependency pwd) = Some true.
Proof.
  intros Hfail Hflag Hch Hv. simpl. unfold PopulateModAndPublish_body.
  set (s0 := mkState (cache s) (env s) (log s ++ [EvStart (GetId (Dependency pwd))])).
  rewrite (bind_Ret (note _) _ s tt s0 eq_refl).
  assert (Hr : refreshPublished W pwd targetRepo s0 = Ret pwd s0).
  { unfold refreshPublished, bind, GetMap. simpl. by rewrite Hflag. }
  rewrite (bind_Ret _ _ _ _ _ Hr).
  destruct (unpack_failure_early pwd s0 Hfail) as (s1 & H1 & Hc1 & [evs1 Hl1]).
  rewrite (bind_Ret _ _ _ _ _ H1).
  assert (Hflag1 : flagOf (depMap (cache s1)) (GetId (Dependency pwd)) = false)
    by by rewrite Hc1.
  destruct (publishAndPopulate_unprepared (PopulateModAndPublish W fuel) pwd "" targetRepo s1
              Hflag1 Hch Hv) as (pwd' & s2 & before & err & H2 & Hl2 & _ & Hdep & Hmap).
  unfold publishDependencyAndPopulateTransitive, removeWorkspace.
  rewrite (bind_Ret _ _ s1 (pwd', ErrNil)
             (mkState (cache s2) (fst (RemoveAll W (filepath_Dir W "") (env s2)))
                (log s2 ++ [EvRemoveAll (filepath_Dir W "")
                              (snd (RemoveAll W (filepath_Dir W "") (env s2)))]))).
  2:{ by rewrite (bind_Ret _ _ _ _ _ H2). }
  exists pwd'. eexists. exists (EvStart (GetId (Dependency pwd)) :: evs1 ++ before), err. eexists.
  split; [reflexivity|]. simpl. split_and!; [|done..].
  rewrite Hl2, Hl1. subst s0. simpl. by rewrite <- !app_assoc.
Qed.

(** X14.  A package that is not marked published and cannot be unpacked
    is published all the same, with nothing prepared for it, and the
    removal of the workspace is then run on [filepath.Dir] of the empty
    path, the last call of all.  The package ends up marked published. *)
Theorem unpack_failure_still_publishes fuel targetRepo pwd s :
  is_nil (unpackError W pwd (env s)) = false ->
  flagOf (depMap (cache s)) (GetId (Dependency pwd)) = false ->
  transitiveDependencies pwd = [] ->
  hasVersion (GetId (Dependency pwd)) ->
  exists pwd' s' before err e,
    PopulateModAndPublish W (S fuel) targetRepo pwd s = Ret (pwd', ErrNil) s' /\
    log s' = log s ++ before ++ [EvPublish (Dependency pwd') targetRepo err;
                                 EvRemoveAll (filepath_Dir W "") e] /\
    depMap (cache s') !! GetId (Dependency pwd) = Some true.
Proof.
  intros Hfail Hflag Hch Hv.
  destruct (unpack_failure_run fuel targetRepo pwd s Hfail Hflag Hch Hv)
    as (pwd' & s' & before & err & e & H & Hl & _ & Hmap).
  by exists pwd', s', before, err, e.
Qed.

(** X15.  [New] keeps the revert flag and the snapshot.  So when a
    resolver that reverted one package is pointed at another one that
    cannot be unpacked, the flag is never reset (line 109 is not
    reached), and the new package is published with the manifest the
    earlier package was reverted to. *)
Theorem New_keeps_revert_of_earlier_package fuel targetRepo earlier cachePath dependency s :
  shouldRevertToEmptyMod earlier = true ->
  is_nil (unpackError W (New earlier cachePath dependency) (env s)) = false ->
  flagOf (depMap (cache s)) (GetId dependency) = false ->
  hasVersion (GetId dependency) ->
  exists pwd' s',
    PopulateModAndPublish W (S fuel) targetRepo (New earlier cachePath dependency) s
    = Ret (pwd', ErrNil) s' /\
    Dependency pwd' = SetModContent dependency (revertedContent earlier) /\
    exists err, EvPublish (SetModContent dependency (revertedContent earlier)) targetRepo err
                ∈ log s'.
Proof.
  intros Hrev Hfail Hflag Hv.
  destruct (unpack_failure_run fuel targetRepo (New earlier cachePath dependency) s
              Hfail Hflag eq_refl Hv)
    as (pwd' & s' & before & err & e & H & Hl & Hdep & _).
  assert (Hman : unpreparedManifest (New earlier cachePath dependency) = revertedContent earlier).
  { unfold unpreparedManifest. simpl. by rewrite Hrev. }
  rewrite Hman in Hdep. simpl in Hdep.
  exists pwd', s'. split; [done|]. split; [done|].
  exists err. rewrite Hl, <- Hdep, !elem_of_app, elem_of_cons. auto.
Qed.

End Failure.

(** ** The expansion of a graph (lines 226-233 and 280-327) *)

Section Expansion.
Context {Env : Type} (W : World Env).

(** An edge that line 287 finds in the map, or that line 284 drops. *)
Definition edgeKnown (m : gmap string bool) (edge : string) : Prop :=
  match strings.Split edge at_sign with
  | [m0; m1] => is_Some (m !! edgeKey W m0 m1)
  | _ => True
  end.

Lemma setTransitiveDependency_known pwd targetRepo deps edge (s : State Env) :
  edgeKnown (depMap (cache s)) edge ->
  setTransitiveDependency W pwd targetRepo deps edge s = Ret deps s.
Proof.
  unfold edgeKnown, setTransitiveDependency.
  destruct (strings.Split edge at_sign) as [|m0 [|m1 [|? ?]]]; try done.
  intros [b Hb]. unfold bind, GetMap. fold (edgeKey W m0 m1). by rewrite Hb.
Qed.

(** X16.  A graph that only names packages that are in the map already,
    marked or not, expands to nothing: no child, no outside call, no
    write to the cache.  The children the resolver had are dropped.  This
    is what closes a cycle of the graph. *)
Theorem known_edges_expand_to_nothing pwd targetRepo graph s :
  Forall (edgeKnown (depMap (cache s))) graph ->
  setTransitiveDependencies W pwd targetRepo graph s = Ret (withTransitive pwd []) s.
Proof.
  intros Hall. unfold setTransitiveDependencies.
  assert (Hfold : forall deps,
             foldM (setTransitiveDependency W pwd targetRepo) graph deps s = Ret deps s).
  { induction Hall as [|edge graph Hedge _ IH]; intros deps; simpl; [done|].
    by rewrite (bind_Ret _ _ _ _ _ (setTransitiveDependency_known _ _ deps _ _ Hedge)). }
  by rewrite (bind_Ret _ _ _ _ _ (Hfold [])).
Qed.

Section Convention.
(** Package IDs are [name:version]. *)
Hypothesis idConvention :
  forall cachePath name version d,
    materialisedAs W cachePath name version d -> GetId d = name +:+ ":" +:+ version.

(** What the loop of lines 282-325 keeps, from the state [s0] it began
    in: the children have distinct IDs, none of which was a key of the
    map, and the keys of the map are those it had and these IDs. *)
Definition distinctNew (s0 : State Env) (deps : list PackageWithDeps) (s : State Env) : Prop :=
  NoDup (idsOf deps) /\
  (forall id, id ∈ idsOf deps -> depMap (cache s0) !! id = None) /\
  (forall k, is_Some (depMap (cache s) !! k) <->
             is_Some (depMap (cache s0) !! k) \/ k ∈ idsOf deps).

Lemma distinctNew_step pwd targetRepo s0 deps edge s deps' s' :
  setTransitiveDependency W pwd targetRepo deps edge s = Ret deps' s' ->
  distinctNew s0 deps s -> distinctNew s0 deps' s'.
Proof.
  intros H (Hnd & Hnew & Hdom).
  apply setTransitiveDependency_spec in H as (evs & _ & _ & Hcase).
  destruct Hcase as [[-> Hc]|(m0 & m1 & found & d & _ & Hk & -> & Hc & _ & Hmat)].
  - split_and!; [done..|]. by rewrite Hc.
  - apply idConvention in Hmat. fold (edgeKey W m0 m1) in Hmat.
    assert (Hfresh : ~ (is_Some (depMap (cache s0) !! edgeKey W m0 m1) \/
                        edgeKey W m0 m1 ∈ idsOf deps)).
    { rewrite <- Hdom, Hk. by intros [? ?]. }
    unfold distinctNew, idsOf in *. rewrite map_app. simpl. rewrite Hmat.
    split_and!.
    + apply NoDup_app. split_and!; [done | | apply NoDup_singleton].
      intros id Hin ->%list_elem_of_singleton. apply Hfresh. by right.
    + intros id [Hin| ->%list_elem_of_singleton]%elem_of_app; [by apply Hnew|].
      destruct (depMap (cache s0) !! edgeKey W m0 m1) eqn:E; [|done].
      destruct Hfresh. left. eauto.
    + intros k. rewrite Hc. simpl. rewrite elem_of_app, list_elem_of_singleton.
      destruct (decide (k = edgeKey W m0 m1)) as [->|Hne].
      * rewrite lookup_insert_eq. split; [auto | eauto].
      * rewrite lookup_insert_ne by done. rewrite Hdom. tauto.
Qed.

(** X17.  Under the ID convention, the children an expansion leaves are
    pairwise distinct packages, none of which was in the map before, and
    the map gains their IDs as keys and no other key: a package is made a
    child at most once over a whole run. *)
Theorem expansion_children_distinct pwd targetRepo graph s pwd' s' :
  setTransitiveDependencies W pwd targetRepo graph s = Ret pwd' s' ->
  NoDup (idsOf (transitiveDependencies pwd')) /\
  (forall id, id ∈ idsOf (transitiveDependencies pwd') -> depMap (cache s) !! id = None) /\
  dom (depMap (cache s'))
  = dom (depMap (cache s)) ∪ list_to_set (idsOf (transitiveDependencies pwd')).
Proof.
  unfold setTransitiveDependencies. intros H.
  apply bind_inv in H as (deps & s1 & Hfold & H). apply ret_inv in H as [<- <-]. simpl.
  assert (Hinv : distinctNew s deps s1).
  { revert Hfold. apply (foldM_invariant _ (distinctNew s)).
    - intros b x s2 b' s2' _ Hb Hstep. by eapply distinctNew_step.
    - split_and!; [constructor | by intros id ?%elem_of_nil |].
      intros k. split; [auto | by intros [?| ?%elem_of_nil]]. }
  destruct Hinv as (Hnd & Hnew & Hdom).
  split_and!; [done..|].
  apply set_eq. intros k.
  rewrite elem_of_union, !elem_of_dom, elem_of_list_to_set. apply Hdom.
Qed.

End Convention.

(** X18.  A graph that is not empty is expanded between the removal of
    [go.sum] and its restoration (lines 226-233): [go.sum] is read and
    removed first, then come the calls of the expansion, only they, and
    last [go.sum] is put back, when it was there and was not empty; else
    it stays removed. *)
Theorem sum_file_removed_during_expansion pwd path targetRepo edge graph s pwd' s' :
  expandGraph W pwd path targetRepo (edge :: graph) s = Ret pwd' s' ->
  exists content stat e evs rest,
    log s' = log s ++
      EvGetSumContentAndRemove (filepath_Dir W path) content stat e :: evs ++ rest /\
    Forall expansionEvent evs /\
    match stat with
    | Some st =>
        if String.eqb content "" then rest = []
        else exists e', rest = [EvRestoreSumFile (filepath_Dir W path) content st e']
    | None => rest = []
    end.
Proof.
  unfold expandGraph. intros H.
  apply bind_inv in H as ([[content stat] e] & s1 & H1 & H).
  apply call_inv in H1 as (x1 & _ & ->).
  apply bind_inv in H as (pwd1 & s2 & H2 & H).
  apply setTransitiveDependencies_events in H2 as (evs & Hl2 & Hev).
  simpl in *.
  exists content, stat, e, evs.
  destruct stat as [st|]; [destruct (String.eqb content "")|]; simpl in H; run_inv.
  - exists []. rewrite Hl2, app_nil_r, <- app_assoc. by split_and!.
  - eexists [_]. rewrite Hl2, <- !app_assoc. split_and!; [done | done | by eexists].
  - exists []. rewrite Hl2, app_nil_r, <- app_assoc. by split_and!.
Qed.

End Expansion.

(** ** Init (lines 144-162 and 191-208) *)

Section Init.
Context {Env : Type} (W : World Env).

#[local] Hint Resolve grows_call grows_note grows_updCache : walk.

(** What a run that returned logged: the log it began with, and more. *)
Ltac have_grows_in H :=
  match type of H with
  | ?m ?s = Ret ?a ?s' =>
      let Hp := fresh in
      assert (Hp : preserves grows m)
        by (unfold IncrementTotal, IncrementSuccess, IncrementFailures, mapStore;
            pres_with (@grows_refl Env) (@grows_trans Env));
      exact (Hp s a s' H)
  end.

(** X19.  [prepareAndRunInit] (lines 191-208) enters the workspace
    first, and gives up with the error of [os.Chdir] when it cannot.
    Else it removes the mod file if there is one, and only then runs
    [go mod init], whose result is what it returns.  The module name it
    passes is the ID up to its first colon, with the [!x] escapes
    decoded. *)
Theorem prepareAndRunInit_order pwd path s :
  exists e1 s',
    prepareAndRunInit W pwd path s = Ret e1 s' /\
    cache s' = cache s /\
    ((e1 <> ErrNil /\ log s' = log s ++ [EvChdir (filepath_Dir W path) e1]) \/
     (exists found e2 removal m0,
        strings.Split (GetId (Dependency pwd)) colon !! 0 = Some m0 /\
        log s' = log s ++
          EvChdir (filepath_Dir W path) ErrNil :: EvIsFileExists path found e2 :: removal ++
          [EvGoModInit (replaceExclamationMarkWithUpperCase W m0) (GoModEditMessage pwd) e1] /\
        if found then exists e3, removal = [EvRemove path e3] else removal = [])).
Proof.
  destruct (Split_first (GetId (Dependency pwd)) colon) as [m0 H0].
  unfold prepareAndRunInit, bind, call, ret, index. simpl.
  destruct (Chdir W (filepath_Dir W path) (env s)) as [x1 e1]. simpl.
  destruct e1 as [|msg]; simpl.
  2:{ eexists _, _. split; [reflexivity|]. split; [done|]. by left. }
  destruct (IsFileExists W path x1) as [x2 [found e2]]. simpl.
  destruct found; simpl; rewrite H0; simpl.
  - eexists _, _. split; [reflexivity|]. split; [done|]. right.
    exists true, e2. eexists [_], m0. simpl. rewrite <- !app_assoc. simpl.
    split_and!; [done | reflexivity | by eexists].
  - eexists _, _. split; [reflexivity|]. split; [done|]. right.
    exists false, e2, [], m0. simpl. rewrite <- !app_assoc. simpl.
    by split_and!.
Qed.

(** X20.  [prepareUnpublishedDependency] (lines 144-162) hands back the
    manifest the package had on entry, whatever it was passed, and gives
    the package what it last read from the mod file of the workspace,
    with no look at the error of that read.  It never touches the cache:
    an init that failed is not counted. *)
Theorem prepareUnpublishedDependency_snapshot pwd path passed s r s' :
  prepareUnpublishedDependency W pwd path passed s = Ret r s' ->
  snd r = modContent (Dependency pwd) /\
  cache s' = cache s /\
  exists before content e,
    fst r = setMod pwd content /\
    log s' = log s ++ before ++ [EvReadFile path content e].
Proof.
  intros H.
  pose proof (same_cache_prepareUnpublishedDependency W pwd path passed s r s' H) as Hc.
  unfold prepareUnpublishedDependency in H.
  apply bind_inv in H as (err & s1 & H1 & H).
  assert (Hg1 : grows s s1).
  { revert H1. unfold prepareAndRunInit. intros H1. have_grows_in H1. }
  apply bind_inv in H as (u & s2 & H2 & H).
  assert (Hg2 : grows s1 s2).
  { unfold writeModContentToModFile in H2. have_grows_in H2. }
  destruct Hg1 as [evs1 Hl1], Hg2 as [evs2 Hl2].
  apply bind_inv in H as ([content e] & s3 & H3 & H).
  apply call_inv in H3 as (x3 & _ & ->). apply ret_inv in H as [<- <-]. simpl.
  split; [done|]. split; [exact Hc|].
  exists (evs1 ++ evs2), content, e. split; [done|].
  by rewrite Hl2, Hl1, <- !app_assoc.
Qed.

End Init.

(** ** The sample world again *)

(** The sample world, but for an archive that cannot be unpacked. *)
Definition unpackFails (W : World unit) (msg : string) : World unit :=
  {| downloadModFileFromArtifactoryToLocalCache := downloadModFileFromArtifactoryToLocalCache W;
     createDependencyInTemp := fun _ => ok ("", Err msg);
     populateModWithTidy := populateModWithTidy W;
     removeGoSum := removeGoSum W;
     runGoModGraph := runGoModGraph W;
     RunGoModInit := RunGoModInit W;
     GetSumContentAndRemove := GetSumContentAndRemove W;
     RestoreSumFile := RestoreSumFile W;
     createDependency := createDependency W;
     shouldDownloadFromArtifactory := shouldDownloadFromArtifactory W;
     downloadAndCreateDependency := downloadAndCreateDependency W;
     Publish := Publish W;
     getDependencyName := getDependencyName W;
     replaceExclamationMarkWithUpperCase := replaceExclamationMarkWithUpperCase W;
     ReadFile := ReadFile W;
     WriteFile := WriteFile W;
     Unsetenv := Unsetenv W;
     Chdir := Chdir W;
     Remove := Remove W;
     RemoveAll := RemoveAll W;
     IsFileExists := IsFileExists W;
     filepath_Dir := filepath_Dir W;
     filepath_Join := filepath_Join W;
     GetFileSeparator := GetFileSeparator W |}.

Definition barId : string := "example.com/bar:v2.0.0".
Definition bar : Package := mkPackage barId "module example.com/bar" "bar.zip".
Definition selfEdge : string := "example.com/foo@v1.0.0".
Definition prepared : PackageWithDeps * string * list string * error := (foo "", "", [], ErrNil).

Lemma getModPathInTemp_versioned_witness :
  let W := world ErrNil [] false in
  strings.Count "example.com/foo" colon = 0 /\
  getModPathInTemp W (foo "") "/tmp/ws" (start ∅) = Ret modPath (start ∅).
Proof.
  intros W. split; [reflexivity|].
  exact (getModPathInTemp_versioned W (foo "") "/tmp/ws" "example.com/foo" "v1.0.0" (start ∅)
           eq_refl eq_refl eq_refl).
Defined.

Lemma writeModContentToGoCache_layout_witness :
  let W := world ErrNil [] false in
  strings.Count "example.com/foo" colon = 0 /\
  strings.Count "v1.0.0" colon = 0 /\
  writeModContentToGoCache W (foo populated) (start ∅)
  = Ret ErrNil
      (mkState (cache (start ∅)) tt
         [EvWriteFile "/gocache/example.com/foo/@v/v1.0.0.mod" populated ErrNil]).
Proof.
  intros W. split; [reflexivity|]. split; [reflexivity|].
  exact (writeModContentToGoCache_layout W (foo populated) "example.com/foo" "v1.0.0" (start ∅)
           eq_refl eq_refl eq_refl eq_refl).
Defined.

Lemma createDependencyAndPrepareMod_unpack_failure_witness :
  let W := unpackFails (world ErrNil [] false) "bad zip" in
  is_nil (unpackError W (foo "") tt) = false /\
  exists s', createDependencyAndPrepareMod W (foo "") (start ∅)
             = Ret (foo "", "", [], Err "bad zip") s' /\
             cache s' = cache (start ∅).
Proof.
  intros W. split; [reflexivity|].
  destruct (createDependencyAndPrepareMod_unpack_failure W (foo "") (start ∅) eq_refl)
    as (s' & H & Hc & _).
  exists s'. split; [exact H | exact Hc].
Defined.

Lemma revert_flag_iff_tidy_witness :
  let W := world ErrNil [] false in
  let run := createDependencyAndPrepareMod W (foo "") (start ∅) in
  is_nil (unpackError W (foo "") tt) = true /\
  run = Ret (valueOf prepared run) (stateOf run) /\
  shouldRevertToEmptyMod (fst (fst (fst (valueOf prepared run)))) = true /\
  exists evs, log (stateOf run) = [] ++ evs /\ countEv isTidy evs = 1.
Proof.
  intros W run.
  assert (H : run = Ret (valueOf prepared run) (stateOf run)) by (vm_compute; reflexivity).
  split; [reflexivity|]. split; [exact H|]. split; [reflexivity|].
  exact (revert_flag_iff_tidy W (foo "") (start ∅) _ _ eq_refl H).
Defined.

Lemma nonempty_manifest_used_as_is_witness :
  let W := world ErrNil [] false in
  let run := createDependencyAndPrepareMod W (foo populated) (start ∅) in
  PatternMatched (foo populated) (GetNotEmptyModRegex regexps) = true /\
  run = Ret (valueOf prepared run) (stateOf run) /\
  exists evs, log (stateOf run) = [] ++ evs /\
    countEv isInit evs = 0 /\ countEv isTidy evs = 0.
Proof.
  intros W run.
  assert (H : run = Ret (valueOf prepared run) (stateOf run)) by (vm_compute; reflexivity).
  split; [reflexivity|]. split; [exact H|].
  destruct (nonempty_manifest_used_as_is W (foo populated) (start ∅) _ _ eq_refl H)
    as (_ & evs & Hl & Hi & Ht & _).
  exists evs. split; [exact Hl|]. split; [exact Hi | exact Ht].
Defined.

Lemma revertedContent_idempotent_witness :
  let pwd := withOriginal (foo "") "module example.com/foo" in
  (forall rest, GetGeneratedBy (regExp pwd) (GoModEditMessage pwd +:+ rest) = true) /\
  revertedContent (withOriginal pwd (revertedContent pwd)) = revertedContent pwd.
Proof.
  intros pwd.
  assert (H : forall rest, GetGeneratedBy (regExp pwd) (GoModEditMessage pwd +:+ rest) = true)
    by (intros rest; reflexivity).
  split; [exact H|].
  exact (revertedContent_idempotent pwd H).
Defined.

(** The graph of the package names the package itself: its one child
    has its own ID, is published by the walk, and the package is then
    published once more. *)
Lemma publish_decided_before_walk_witness :
  let W := world ErrNil [selfEdge] false in
  let expand := expandGraph W (foo populated) modPath "repo" [selfEdge] (start ∅) in
  let run := publishDependencyAndPopulateTransitive W (PopulateModAndPublish W 2)
               (foo populated) modPath "repo" [selfEdge] (start ∅) in
  expand = Ret (valueOf (foo "") expand) (stateOf expand) /\
  flagOf (depMap (cache (stateOf expand))) fooId = false /\
  run = Ret (valueOf resolverDefault run) (stateOf run) /\
  countEv isPublish (log (stateOf run)) = 2 /\
  exists before err e,
    log (stateOf run)
    = before ++ [EvPublish (Dependency (fst (valueOf resolverDefault run))) "repo" err;
                 EvRemoveAll (filepath_Dir W modPath) e].
Proof.
  intros W expand run.
  assert (He : expand = Ret (valueOf (foo "") expand) (stateOf expand))
    by (vm_compute; reflexivity).
  assert (Hf : flagOf (depMap (cache (stateOf expand))) fooId = false)
    by (vm_compute; reflexivity).
  assert (H : run = Ret (valueOf resolverDefault run) (stateOf run)) by (vm_compute; reflexivity).
  split; [exact He|]. split; [exact Hf|]. split; [exact H|].
  split; [vm_compute; reflexivity|].
  destruct (publish_decided_before_walk W (PopulateModAndPublish W 2) (foo populated) modPath
              "repo" [selfEdge] (start ∅) _ _ _ _ He Hf H) as (before & err & e & Hl & _).
  exists before, err, e. exact Hl.
Defined.

Lemma own_entry_true_after_call_witness :
  let W := world (Err "503") [] false in
  let run := PopulateModAndPublish W 1 "repo" (foo populated) (start ∅) in
  run = Ret (valueOf resolverDefault run) (stateOf run) /\
  depMap (cache (stateOf run)) !! fooId = Some true.
Proof.
  intros W run.
  assert (H : run = Ret (valueOf resolverDefault run) (stateOf run)) by (vm_compute; reflexivity).
  split; [exact H|].
  exact (proj1 (own_entry_true_after_call W 1 "repo" (foo populated) (start ∅) _ _ H)).
Defined.

Lemma counters_never_decrease_witness :
  let W := world ErrNil [barEdge] false in
  let s := start {[ fooId := true ]} in
  let run := PopulateModAndPublish W 2 "repo" (foo populated) s in
  run = Ret (valueOf resolverDefault run) (stateOf run) /\
  totals (cache s) <= totals (cache (stateOf run)) /\
  successes (cache s) <= successes (cache (stateOf run)) /\
  failures (cache s) <= failures (cache (stateOf run)).
Proof.
  intros W s run.
  assert (H : run = Ret (valueOf resolverDefault run) (stateOf run)) by (vm_compute; reflexivity).
  split; [exact H|].
  exact (counters_never_decrease W 2 "repo" (foo populated) s _ _ H).
Defined.

Lemma populateTransitive_all_published_witness :
  let W := world ErrNil [] false in
  let pwd := withTransitive (foo populated) [childOf (foo populated) bar] in
  let s := start {[ barId := true ]} in
  let run := populateTransitive (PopulateModAndPublish W 0) pwd "repo" s in
  Forall (fun child => flagOf (depMap (cache s)) (GetId (Dependency child)) = true)
    (transitiveDependencies pwd) /\
  totals (cache (stateOf run)) = 1 /\
  successes (cache (stateOf run)) = 1 /\
  log (stateOf run) = [EvAlreadyHandled barId].
Proof.
  intros W pwd s run.
  assert (Hall : Forall (fun child => flagOf (depMap (cache s)) (GetId (Dependency child)) = true)
                   (transitiveDependencies pwd))
    by (constructor; [vm_compute; reflexivity | constructor]).
  split; [exact Hall|].
  unfold run.
  rewrite (populateTransitive_all_published (PopulateModAndPublish W 0) pwd "repo" s Hall).
  vm_compute. split; [reflexivity|]. split; reflexivity.
Defined.

Lemma unpack_failure_still_publishes_witness :
  let W := unpackFails (world ErrNil [] false) "bad zip" in
  is_nil (unpackError W (foo populated) tt) = false /\
  hasVersion fooId /\
  exists pwd' s' before err e,
    PopulateModAndPublish W 1 "repo" (foo populated) (start ∅) = Ret (pwd', ErrNil) s' /\
    log s' = [] ++ before ++ [EvPublish (Dependency pwd') "repo" err; EvRemoveAll "/.." e].
Proof.
  intros W.
  assert (Hv : hasVersion fooId) by (eexists; reflexivity).
  assert (Hf : flagOf (depMap (cache (start ∅))) (GetId (Dependency (foo populated))) = false)
    by (vm_compute; reflexivity).
  split; [reflexivity|]. split; [exact Hv|].
  destruct (unpack_failure_still_publishes W 0 "repo" (foo populated) (start ∅)
              eq_refl Hf eq_refl Hv) as (pwd' & s' & before & err & e & H & Hl & _).
  exists pwd', s', before, err, e. split; [exact H | exact Hl].
Defined.

Lemma New_keeps_revert_of_earlier_package_witness :
  let W := unpackFails (world ErrNil [] false) "bad zip" in
  let earlier := withOriginal (withRevert (foo "") true) "module example.com/foo" in
  let manifest := "// Generated by JFrog" +:+ String newline (String newline "module example.com/foo") in
  shouldRevertToEmptyMod earlier = true /\
  hasVersion barId /\
  exists pwd' s',
    PopulateModAndPublish W 1 "repo" (New earlier "/gocache" bar) (start ∅)
    = Ret (pwd', ErrNil) s' /\
    Dependency pwd' = mkPackage barId manifest "bar.zip".
Proof.
  intros W earlier manifest.
  assert (Hv : hasVersion barId) by (eexists; reflexivity).
  assert (Hf : flagOf (depMap (cache (start ∅))) (GetId bar) = false)
    by (vm_compute; reflexivity).
  split; [reflexivity|]. split; [exact Hv|].
  destruct (New_keeps_revert_of_earlier_package W 0 "repo" earlier "/gocache" bar (start ∅)
              eq_refl eq_refl Hf Hv) as (pwd' & s' & H & Hdep & _).
  exists pwd', s'. split; [exact H | exact Hdep].
Defined.

Lemma known_edges_expand_to_nothing_witness :
  let W := world ErrNil [barEdge; "badedge"] false in
  let s := start {[ barId := false ]} in
  Forall (edgeKnown W (depMap (cache s))) [barEdge; "badedge"] /\
  setTransitiveDependencies W (foo populated) "repo" [barEdge; "badedge"] s
  = Ret (withTransitive (foo populated) []) s.
Proof.
  intros W s.
  assert (Hall : Forall (edgeKnown W (depMap (cache s))) [barEdge; "badedge"]).
  { constructor; [vm_compute; eexists; reflexivity|].
    constructor; [exact I | constructor]. }
  split; [exact Hall|].
  exact (known_edges_expand_to_nothing W (foo populated) "repo" [barEdge; "badedge"] s Hall).
Defined.

Lemma expansion_children_distinct_witness :
  let W := world ErrNil [barEdge; barEdge] false in
  let run := setTransitiveDependencies W (foo "") "repo" [barEdge; barEdge] (start ∅) in
  run = Ret (valueOf (foo "") run) (stateOf run) /\
  NoDup (idsOf (transitiveDependencies (valueOf (foo "") run))) /\
  length (transitiveDependencies (valueOf (foo "") run)) = 1.
Proof.
  intros W run.
  assert (H : run = Ret (valueOf (foo "") run) (stateOf run)) by (vm_compute; reflexivity).
  split; [exact H|].
  split; [|reflexivity].
  exact (proj1 (expansion_children_distinct W (sample_idConvention _ _ _ _)
                  (foo "") "repo" [barEdge; barEdge] (start ∅) _ _ H)).
Defined.

Lemma sum_file_removed_during_expansion_witness :
  let W := world ErrNil [barEdge] false in
  let run := expandGraph W (foo populated) modPath "repo" [barEdge] (start ∅) in
  run = Ret (valueOf (foo "") run) (stateOf run) /\
  exists content stat e evs rest,
    log (stateOf run)
    = [] ++ EvGetSumContentAndRemove (filepath_Dir W modPath) content stat e :: evs ++ rest /\
    Forall (expansionEvent) evs.
Proof.
  intros W run.
  assert (H : run = Ret (valueOf (foo "") run) (stateOf run)) by (vm_compute; reflexivity).
  split; [exact H|].
  destruct (sum_file_removed_during_expansion W (foo populated) modPath "repo" barEdge []
              (start ∅) _ _ H) as (content & stat & e & evs & rest & Hl & Hev & _).
  exists content, stat, e, evs, rest. split; [exact Hl | exact Hev].
Defined.

Lemma prepareUnpublishedDependency_snapshot_witness :
  let W := world ErrNil [] false in
  let run := prepareUnpublishedDependency W (foo "module example.com/foo") modPath "passed"
               (start ∅) in
  run = Ret (valueOf (foo "", "") run) (stateOf run) /\
  snd (valueOf (foo "", "") run) = "module example.com/foo".
Proof.
  intros W run.
  assert (H : run = Ret (valueOf (foo "", "") run) (stateOf run)) by (vm_compute; reflexivity).
  split; [exact H|].
  exact (proj1 (prepareUnpublishedDependency_snapshot W (foo "module example.com/foo") modPath
                  "passed" (start ∅) _ _ H)).
Defined.
